(** * AICodeReviewer: the batch review pipeline of [reviewer.py]

  A shallow embedding of the asynchronous pipeline in [main]: the
  insertion-ordered dictionaries it builds, the batching generator
  [dict_to_batches], the concurrent unit [task] / [process_batch], the
  three phases (detail, short, project) and the helper
  [read_file_content], followed by the properties of the pipeline.

  Conventions.
  - A Python [str] is a [string]; [x in y] on strings is [str_in].
  - A Python [dict] is an association list in insertion order whose keys
    are pairwise distinct ([dict_set] keeps it so).
  - A Python [int] is a [Z].
  - A coroutine is a value of [io A]: the externally visible events it
    emits, in order, and then either its value or the exception that
    leaves it.  Log lines ([logger.*]) are not events. *)

From Stdlib Require Import String Ascii List ZArith Lia Bool Permutation Sorted.
Import ListNotations.
Local Open Scope string_scope.
Local Open Scope list_scope.


(** ** Strings *)

Module Str.

(** ['\n'] *)
Definition nl : string := String "010"%char EmptyString.

(** [s * n] for a string [s] and a natural number [n]. *)
Fixpoint repeat (s : string) (n : nat) : string :=
  match n with
  | O => EmptyString
  | S n' => String.append s (repeat s n')
  end.

(** [pat in s]: [pat] occurs in [s] as a contiguous substring. *)
Fixpoint str_in (pat s : string) : bool :=
  match s with
  | EmptyString => String.prefix pat EmptyString
  | String _ s' => String.prefix pat s || str_in pat s'
  end.

(** The relational reading of [str_in]. *)
Definition occurs (pat s : string) : Prop :=
  exists pre post, s = String.append pre (String.append pat post).

(** Membership of a character in a string. *)
Fixpoint has_char (c : ascii) (s : string) : bool :=
  match s with
  | EmptyString => false
  | String c' s' => Ascii.eqb c c' || has_char c s'
  end.

(** Last character of a string, if any. *)
Fixpoint last_char (s : string) : option ascii :=
  match s with
  | EmptyString => None
  | String c EmptyString => Some c
  | String _ s' => last_char s'
  end.

Definition first_char (s : string) : option ascii :=
  match s with
  | EmptyString => None
  | String c _ => Some c
  end.

End Str.

(** ** Insertion-ordered dictionaries *)

Module Dict.

Definition dict (V : Type) : Type := list (string * V).

Definition keys {V} (d : dict V) : list string := map fst d.

(** [d.items()] *)
Definition items {V} (d : dict V) : list (string * V) := d.

(** [len(d)] *)
Definition len {V} (d : dict V) : Z := Z.of_nat (length d).

(** [d[k] = v]: overwrite in place when [k] is present, append otherwise. *)
Fixpoint dict_set {V} (d : dict V) (k : string) (v : V) : dict V :=
  match d with
  | [] => [(k, v)]
  | (k', v') :: d' =>
      if String.eqb k' k then (k', v) :: d' else (k', v') :: dict_set d' k v
  end.

(** [dict(pairs)] *)
Definition of_items {V} (pairs : list (string * V)) : dict V :=
  fold_left (fun d kv => dict_set d (fst kv) (snd kv)) pairs [].


(** Well-formedness: the keys of a dictionary are pairwise distinct. *)
Definition wf {V} (d : dict V) : Prop := NoDup (keys d).

End Dict.

Import Str Dict.

(** ** Exceptions, results and the event monad *)

Inductive exn : Type :=
| ValueError      (* raised by [range] with a zero step *)
| ServiceError.   (* raised by the awaited completion call *)

Inductive result (A : Type) : Type :=
| Ok (a : A)
| Raise (e : exn).

Arguments Ok {A} a.
Arguments Raise {A} e.

Inductive role : Type := system | user | assistant.

(** An OpenAI chat message, [{"role": r, "content": c}]. *)
Record message : Type := Message { msg_role : role; msg_content : string }.

(** What the pipeline does to the outside world. *)
Inductive event : Type :=
| Request (model : string) (messages : list message) (seed : option Z)
| WriteMd (directory name data : string).

Definition io (A : Type) : Type := (list event * result A)%type.

Definition ret {A} (a : A) : io A := ([], Ok a).

Definition bind {A B} (m : io A) (f : A -> io B) : io B :=
  match m with
  | (tr, Ok a) => let (tr', r) := f a in (tr ++ tr', r)
  | (tr, Raise e) => (tr, Raise e)
  end.

Definition lift {A} (r : result A) : io A := ([], r).

Notation "x <- m ;; k" := (bind m (fun x => k))
  (at level 61, m at next level, right associativity).
Notation "m ;;; k" := (bind m (fun _ => k))
  (at level 61, right associativity).

(** A [for] loop over [xs] that threads an accumulator through awaited
  bodies; an exception in a body leaves the loop. *)
Fixpoint for_each {A S} (body : S -> A -> io S) (xs : list A) (s : S) : io S :=
  match xs with
  | [] => ret s
  | x :: xs' => s' <- body s x ;; for_each body xs' s'
  end.

Definition events {A} (m : io A) : list event := fst m.
Definition outcome {A} (m : io A) : result A := snd m.

(** The completion requests among a list of events. *)
Fixpoint requests (tr : list event) : list (list message * option Z) :=
  match tr with
  | [] => []
  | Request _ ms sd :: tr' => (ms, sd) :: requests tr'
  | WriteMd _ _ _ :: tr' => requests tr'
  end.

(** ** Constants of the module *)

Definition DETAIL_ANALYSIS_MD : string := "detail_analysis.md".
Definition SHORT_ANALYSIS_MD : string := "short_analysis.md".
Definition PROJECT_ANALYSIS_MD : string := "project_analysis.md".

Definition MODEL : string := "gpt-4-0125-preview".
Definition SEED : Z := 66.

Definition NUMBER_OF_CONCURRENT_REQUESTS : Z := 20.

Definition CANT_READ_FILE_MES : string := "Can not read file".
Definition NO_CHANGES : string := "No changes required".

Definition MD_TITLE : string := "## ".

(** ** Pure helpers *)

Definition to_openai_system_message (prompt : string) : message :=
  {| msg_role := system; msg_content := prompt |}.

Definition to_openai_user_message (prompt : string) : message :=
  {| msg_role := user; msg_content := prompt |}.

Definition to_openai_assistant_message (prompt : string) : message :=
  {| msg_role := assistant; msg_content := prompt |}.

(** [format_title] of [main]: [MD_TITLE + k + '\n\n' + v]. *)
Definition format_title (k v : string) : string :=
  String.append MD_TITLE (String.append k (String.append (String.append nl nl) v)).

Arguments format_title : simpl never.
Arguments str_in : simpl never.

(** [len(range(start, stop, step))]; a zero step raises [ValueError]. *)
Definition range_len (start stop step : Z) : result nat :=
  if (step =? 0)%Z then Raise ValueError
  else if (0 <? step)%Z then
    if (start <? stop)%Z then Ok (Z.to_nat ((stop - start - 1) / step + 1)) else Ok O
  else
    if (stop <? start)%Z then Ok (Z.to_nat ((start - stop - 1) / (- step) + 1)) else Ok O.

(** [sys.maxsize] of CPython on a 64-bit platform. *)
Definition maxsize : Z := 9223372036854775807.

(** [islice(it, n)]: the stop must be an integer with
    [0 <= n <= sys.maxsize], otherwise [ValueError] is raised; else the
    items taken and the advanced iterator. *)
Definition islice {A} (it : list A) (n : Z) : result (list A * list A) :=
  if ((n <? 0) || (maxsize <? n))%Z then Raise ValueError
  else Ok (firstn (Z.to_nat n) it, skipn (Z.to_nat n) it).

(** The body of the generator [dict_to_batches]: one
    [yield dict(islice(it, batch_size))] per element of the range, all on
    the one shared iterator [it]; [list(...)] drives the generator to its
    end, so an exception of a round leaves no list of batches. *)
Fixpoint batches_loop {V} (rounds : nat) (it : list (string * V)) (batch_size : Z)
  : result (list (dict V)) :=
  match rounds with
  | O => Ok []
  | S r =>
      match islice it batch_size with
      | Raise e => Raise e
      | Ok (chunk, it') =>
          match batches_loop r it' batch_size with
          | Ok batches => Ok (of_items chunk :: batches)
          | Raise e => Raise e
          end
      end
  end.

(** [list(dict_to_batches(input_dict, batch_size))] *)
Definition dict_to_batches {V} (input_dict : dict V) (batch_size : Z)
  : result (list (dict V)) :=
  match range_len 0 (len input_dict) batch_size with
  | Ok rounds => batches_loop rounds (items input_dict) batch_size
  | Raise e => Raise e
  end.

(** [asyncio.gather] on the tasks, without [return_exceptions]: every task is
    started, so the events of all of them happen; the awaiting coroutine
    gets the list of values in the order of the arguments when all tasks
    return, and otherwise an exception of one of them is raised in it. *)
Fixpoint collect {A} (rs : list (result A)) : result (list A) :=
  match rs with
  | [] => Ok []
  | Raise e :: _ => Raise e
  | Ok a :: rs' =>
      match collect rs' with
      | Ok l => Ok (a :: l)
      | Raise e => Raise e
      end
  end.

Definition gather {A} (tasks : list (io A)) : io (list A) :=
  (concat (map (@events A) tasks), collect (map (@outcome A) tasks)).

(** [write_to_md]: append [data + "\n"] to the file [name] of [directory]. *)
Definition write_to_md (name data directory : string) : io unit :=
  ([WriteMd directory name (String.append data nl)], Ok tt).

(** ** The pipeline *)

Section Pipeline.

(** The completion endpoint as one run sees it: the content of the first
    choice of [client.chat.completions.create(model, messages, temperature,
    seed)], or [None] when the awaited call raises. *)
Variable client : string -> list message -> option Z -> option string.

(** [open(file_path, 'r', encoding='utf-8').read()], [None] when opening or
    decoding raises. *)
Variable open_read : string -> option string.

(** [os.path.relpath(file_path, base_dir)] *)
Variable relpath : string -> string -> string.

(** [project_tree(..., dir_tree=directory)]: the rendered tree and the
    enumerated file paths. *)
Variable project_tree : string -> string * list string.

(** [__local_path__] and the run-time value of [REVIEWER_DIR_IN_PROJECT]. *)
Variable local_path : string.
Variable REVIEWER_DIR_IN_PROJECT : string.

Definition DETAIL_ANALYSIS_PROMPT : string := String.append local_path "/prompts/detail.md".
Definition SHORT_ANALYSIS_PROMPT : string := String.append local_path "/prompts/short.md".
Definition PROJECT_ANALYSIS_PROMPT : string := String.append local_path "/prompts/project.md".

(** The title line of [read_file_content]. *)
Definition file_title (rel_path : string) : string :=
  let marker := Str.repeat "-" 30 in
  String.append marker (String.append " " (String.append rel_path
    (String.append " " (String.append marker nl)))).

Definition read_file_content (file_path base_dir : string) (is_prompt : bool)
  : string * string :=
  let rel_path := relpath file_path base_dir in
  let title := file_title rel_path in
  let content := if is_prompt then EmptyString else title in
  match open_read file_path with
  | Some text => (String.append (String.append content text) nl, rel_path)
  | None => (String.append (String.append title CANT_READ_FILE_MES) nl, rel_path)
  end.

Definition openai_request (messages : list message) (seed : option Z) : io string :=
  ([Request MODEL messages seed],
   match client MODEL messages seed with
   | Some text => Ok text
   | None => Raise ServiceError
   end).

(** [task(k, v)] of [main] *)
Definition task (k : string) (v : list message) : io (string * string) :=
  text <- openai_request v (Some SEED) ;; ret (k, text).

(** [process_batch(b)] of [main] *)
Definition process_batch (b : dict (list message)) : io (list (string * string)) :=
  gather (map (fun kv => task (fst kv) (snd kv)) (items b)).

(** Lines 270-281: the detail prompts of the files that pass the marker test. *)
Definition detail_prompts (detail_analysis_prompt directory : string)
  (project_files : list string) : dict (list message) :=
  fold_left
    (fun d f_path =>
       let (file_detail_analysis, relative_path) :=
         read_file_content f_path directory false in
       if str_in CANT_READ_FILE_MES file_detail_analysis then d
       else dict_set d relative_path
              [to_openai_system_message detail_analysis_prompt;
               to_openai_user_message file_detail_analysis])
    project_files [].

(** Lines 288-292: what the detail phase does with one gathered result. *)
Definition detail_record (d : dict string) (kr : string * string) : io (dict string) :=
  let (key, result) := kr in
  let result_formatted := format_title key result in
  write_to_md DETAIL_ANALYSIS_MD result_formatted REVIEWER_DIR_IN_PROJECT ;;;
  ret (dict_set d key result_formatted).

(** Lines 283-292, for a concurrency limit [limit]. *)
Definition detail_phase (detail_analysis_prompt_dict : dict (list message)) (limit : Z)
  : io (dict string) :=
  batches <- lift (dict_to_batches detail_analysis_prompt_dict limit) ;;
  for_each
    (fun d batch => results <- process_batch batch ;; for_each detail_record results d)
    batches [].

(** Lines 296-302: one short prompt per detail result. *)
Definition short_prompts (short_analysis_prompt : string)
  (detail_analysis_result_dict : dict string) : dict (list message) :=
  fold_left
    (fun d kv =>
       dict_set d (fst kv)
         [to_openai_system_message short_analysis_prompt;
          to_openai_system_message (snd kv)])
    (items detail_analysis_result_dict) [].

(** Lines 309-317: what the short phase does with one gathered result. *)
Definition short_record (acc : list string) (kr : string * string) : io (list string) :=
  let (key, result) := kr in
  let result_formatted := format_title key result in
  if str_in NO_CHANGES result_formatted then ret acc
  else
    write_to_md SHORT_ANALYSIS_MD result_formatted REVIEWER_DIR_IN_PROJECT ;;;
    ret (acc ++ [result_formatted]).

(** Lines 304-317, for a concurrency limit [limit]. *)
Definition short_phase (short_analysis_prompt_dict : dict (list message)) (limit : Z)
  : io (list string) :=
  batches <- lift (dict_to_batches short_analysis_prompt_dict limit) ;;
  for_each
    (fun acc batch => results <- process_batch batch ;; for_each short_record results acc)
    batches [].

(** Lines 321-324: the message list of the project request. *)
Definition project_system_messages (project_analysis_prompt : string)
  (files_analysis_results : list string) : list message :=
  map to_openai_system_message files_analysis_results
    ++ [to_openai_system_message project_analysis_prompt].

(** Lines 321-330 *)
Definition project_phase (project_analysis_prompt : string)
  (files_analysis_results : list string) : io string :=
  openai_request
    (project_system_messages project_analysis_prompt files_analysis_results)
    (Some SEED).

Definition tree_block (tree : string) : string :=
  String.append MD_TITLE (String.append "Project tree:" (String.append nl
    (String.append "```" (String.append nl (String.append tree
      (String.append "```" nl)))))).

(** Lines 252-254: the three instructions, read once at the start. *)
Definition detail_analysis_prompt : string :=
  fst (read_file_content DETAIL_ANALYSIS_PROMPT local_path true).

Definition short_analysis_prompt : string :=
  fst (read_file_content SHORT_ANALYSIS_PROMPT local_path true).

Definition project_analysis_prompt : string :=
  fst (read_file_content PROJECT_ANALYSIS_PROMPT local_path true).

(** Lines 256-281: the input dictionary of the detail phase. *)
Definition detail_analysis_prompt_dict (directory : string) : dict (list message) :=
  detail_prompts detail_analysis_prompt directory (snd (project_tree directory)).

(** [main(client, directory)] *)
Definition main (directory : string) : io unit :=
  let tree := fst (project_tree directory) in
  write_to_md DETAIL_ANALYSIS_MD (tree_block tree) REVIEWER_DIR_IN_PROJECT ;;;
  detail_analysis_result_dict <-
    detail_phase (detail_analysis_prompt_dict directory) NUMBER_OF_CONCURRENT_REQUESTS ;;
  let short_analysis_prompt_dict :=
    short_prompts short_analysis_prompt detail_analysis_result_dict in
  files_analysis_results <-
    short_phase short_analysis_prompt_dict NUMBER_OF_CONCURRENT_REQUESTS ;;
  project_analysis_result <-
    project_phase project_analysis_prompt files_analysis_results ;;
  write_to_md PROJECT_ANALYSIS_MD project_analysis_result REVIEWER_DIR_IN_PROJECT.

End Pipeline.

(** ** The event loop under [process_batch]

    [asyncio.gather] wraps every coroutine of a batch in a task and
    schedules them all before the awaiting coroutine is suspended.  The
    loop starts the tasks in the order of the arguments; a started task
    sends its request and is suspended until the response (or the
    failure) arrives, in any order.  The awaiting coroutine is resumed
    with the list of values when every task has returned, and with the
    exception once a task has raised (the tasks scheduled with it have
    all been started by then; they are not waited for).  The labelled
    transition system below is this loop for one phase; the writes of the
    phase are silent in it. *)

Module Sched.

Inductive status : Type :=
| Created                    (* wrapped by [gather], not yet run *)
| Waiting                    (* request sent, suspended on the response *)
| Returned (text : string)   (* [task] returned [(k, text)] *)
| Raised.                    (* the awaited completion call raised *)

Record running_task : Type := RunningTask {
  t_key : string;
  t_messages : list message;
  t_status : status
}.

Definition set_status (t : running_task) (st : status) : running_task :=
  {| t_key := t_key t; t_messages := t_messages t; t_status := st |}.

(** The tasks that [process_batch] hands to [gather], in the order of [b.items()]. *)
Definition spawn (b : dict (list message)) : list running_task :=
  map (fun kv => {| t_key := fst kv; t_messages := snd kv; t_status := Created |})
      (items b).

Definition started (t : running_task) : bool :=
  match t_status t with
  | Created => false
  | _ => true
  end.

Definition raised (t : running_task) : bool :=
  match t_status t with
  | Raised => true
  | _ => false
  end.

(** The value of [await asyncio.gather(...)] once every task has returned. *)
Fixpoint results_of (tasks : list running_task) : option (list (string * string)) :=
  match tasks with
  | [] => Some []
  | t :: tasks' =>
      match t_status t, results_of tasks' with
      | Returned text, Some rs => Some ((t_key t, text) :: rs)
      | _, _ => None
      end
  end.

(** Observable steps: a request of batch number [batch] is sent, or its
    outcome arrives. *)
Inductive sched_event : Type :=
| Issue (batch : nat) (key : string)
| Resolve (batch : nat) (key : string) (ok : bool).

(** Every request of the batches numbered below [i] has been answered in [tr]. *)
Definition settled (batches : list (dict (list message))) (tr : list sched_event)
  (i : nat) : Prop :=
  forall K b k,
    K < i -> nth_error batches K = Some b -> In k (keys b) ->
    In (Resolve K k true) tr.

(** No request of a batch is sent in [tr] before every request of the
    batch before it has been answered. *)
Definition ordered (batches : list (dict (list message))) (tr : list sched_event) : Prop :=
  forall pre K k' post b k,
    tr = pre ++ Issue (S K) k' :: post ->
    nth_error batches K = Some b -> In k (keys b) ->
    In (Resolve K k true) pre.

Section Loop.

Variable client : string -> list message -> option Z -> option string.

(** The accumulator of the phase and what the phase does with one gathered
    result ([detail_record] or [short_record]). *)
Variable Acc : Type.
Variable record : Acc -> string * string -> io Acc.

Inductive state : Type :=
| Running (index : nat) (tasks : list running_task)
    (later : list (dict (list message))) (acc : Acc)
| Finished (acc : Acc)
| Aborted (e : exn).

(** The head of [for batch in batches], entered with batch number [index]. *)
Definition next (index : nat) (later : list (dict (list message))) (acc : Acc) : state :=
  match later with
  | [] => Finished acc
  | b :: later' => Running index (spawn b) later' acc
  end.

Definition init (batches : list (dict (list message))) (acc : Acc) : state :=
  next 0 batches acc.

Inductive step : state -> option sched_event -> state -> Prop :=
| step_start : forall i pre t post later acc,
    forallb started pre = true ->
    t_status t = Created ->
    step (Running i (pre ++ t :: post) later acc)
         (Some (Issue i (t_key t)))
         (Running i (pre ++ set_status t Waiting :: post) later acc)
| step_response : forall i pre t post later acc text,
    t_status t = Waiting ->
    client MODEL (t_messages t) (Some SEED) = Some text ->
    step (Running i (pre ++ t :: post) later acc)
         (Some (Resolve i (t_key t) true))
         (Running i (pre ++ set_status t (Returned text) :: post) later acc)
| step_failure : forall i pre t post later acc,
    t_status t = Waiting ->
    client MODEL (t_messages t) (Some SEED) = None ->
    step (Running i (pre ++ t :: post) later acc)
         (Some (Resolve i (t_key t) false))
         (Running i (pre ++ set_status t Raised :: post) later acc)
| step_abort : forall i tasks later acc,
    existsb raised tasks = true ->
    forallb started tasks = true ->
    step (Running i tasks later acc) None (Aborted ServiceError)
| step_join : forall i tasks later acc results acc',
    results_of tasks = Some results ->
    outcome (for_each record results acc) = Ok acc' ->
    step (Running i tasks later acc) None (next (S i) later acc')
| step_join_raise : forall i tasks later acc results e,
    results_of tasks = Some results ->
    outcome (for_each record results acc) = Raise e ->
    step (Running i tasks later acc) None (Aborted e).

Definition observe (l : option sched_event) : list sched_event :=
  match l with
  | Some e => [e]
  | None => []
  end.

(** [exec s tr s']: the loop goes from [s] to [s'] and [tr] is what was
    observed on the way. *)
Inductive exec : state -> list sched_event -> state -> Prop :=
| exec_refl : forall s, exec s [] s
| exec_step : forall s tr s' l s'',
    exec s tr s' -> step s' l s'' -> exec s (tr ++ observe l) s''.

(** What holds of a state reached from [init batches acc] with trace [tr]. *)
Definition invariant (batches : list (dict (list message))) (tr : list sched_event)
  (s : state) : Prop :=
  match s with
  | Running i tasks later _ =>
      (exists b, nth_error batches i = Some b /\ map t_key tasks = keys b)
      /\ later = skipn (S i) batches
      /\ settled batches tr i
      /\ (forall t text, In t tasks -> t_status t = Returned text ->
                         In (Resolve i (t_key t) true) tr)
      /\ (forall j k, In (Issue j k) tr -> j <= i)
  | Finished _ => settled batches tr (length batches)
  | Aborted _ => True
  end.

(** The loop [for batch in batches] of a phase in the event monad, as
    [detail_phase] and [short_phase] write it. *)
Definition phase_loop (batches : list (dict (list message))) (acc : Acc) : io Acc :=
  for_each
    (fun d batch => results <- process_batch client batch ;; for_each record results d)
    batches acc.

(** A state of the event loop agrees with the loop in the event monad. *)
Definition agrees (batches : list (dict (list message))) (acc0 : Acc) (s : state) : Prop :=
  match s with
  | Running _ tasks later acc =>
      exists done b,
        batches = done ++ b :: later
        /\ map (fun t => (t_key t, t_messages t)) tasks = items b
        /\ (forall t text, In t tasks -> t_status t = Returned text ->
                           client MODEL (t_messages t) (Some SEED) = Some text)
        /\ (forall t, In t tasks -> t_status t = Raised ->
                      client MODEL (t_messages t) (Some SEED) = None)
        /\ outcome (phase_loop done acc0) = Ok acc
  | Finished acc => outcome (phase_loop batches acc0) = Ok acc
  | Aborted e => outcome (phase_loop batches acc0) = Raise e
  end.

End Loop.

Arguments Running {Acc} index tasks later acc.
Arguments Finished {Acc} acc.
Arguments Aborted {Acc} e.

(** How far a task is from its end, and a state from the end of the loop. *)
Definition weight (t : running_task) : nat :=
  match t_status t with
  | Created => 2
  | Waiting => 1
  | _ => 0
  end.

Fixpoint pending (later : list (dict (list message))) : nat :=
  match later with
  | [] => 0
  | b :: later' => 2 * length b + 1 + pending later'
  end.

Definition measure {Acc} (s : state Acc) : nat :=
  match s with
  | Running _ tasks later _ => 1 + list_sum (map weight tasks) + pending later
  | _ => 0
  end.

Definition waiting (t : running_task) : bool :=
  match t_status t with
  | Waiting => true
  | _ => false
  end.

(** The requests sent in a trace, and the requests of the batches in the
    order of the input, numbered from batch [i]. *)
Fixpoint issued (tr : list sched_event) : list (nat * string) :=
  match tr with
  | [] => []
  | Issue i k :: tr' => (i, k) :: issued tr'
  | Resolve _ _ _ :: tr' => issued tr'
  end.

Fixpoint issue_plan (i : nat) (batches : list (dict (list message)))
  : list (nat * string) :=
  match batches with
  | [] => []
  | b :: batches' => map (pair i) (keys b) ++ issue_plan (S i) batches'
  end.

(** The started tasks of a batch come before the tasks not yet started. *)
Fixpoint started_first (tasks : list running_task) : bool :=
  match tasks with
  | [] => true
  | t :: tasks' =>
      if started t then started_first tasks'
      else forallb (fun t' => negb (started t')) tasks'
  end.

(** The requests sent so far are the first requests of the plan. *)
Definition on_plan {Acc} (batches : list (dict (list message)))
  (tr : list sched_event) (s : state Acc) : Prop :=
  match s with
  | Running i tasks later _ =>
      exists done b,
        batches = done ++ b :: later
        /\ length done = i
        /\ map t_key tasks = keys b
        /\ started_first tasks = true
        /\ issued tr
           = issue_plan 0 done ++ map (pair i) (map t_key (filter started tasks))
  | Finished _ => issued tr = issue_plan 0 batches
  | Aborted _ => exists rest, issue_plan 0 batches = issued tr ++ rest
  end.

(** Every task of the batch that has not sent its request sends it. *)
Definition start_all (tasks : list running_task) : list running_task :=
  map (fun t => if started t then t else set_status t Waiting) tasks.

(** What a trace tells about failures: at a batch, the failures seen are
    those of tasks of that batch; a loop that has finished has seen none. *)
Definition failures_seen {Acc} (tr : list sched_event) (s : state Acc) : Prop :=
  match s with
  | Running i tasks _ _ =>
      (forall t, In t tasks -> t_status t = Raised -> In (Resolve i (t_key t) false) tr)
      /\ (forall j k, In (Resolve j k false) tr -> j = i /\ existsb raised tasks = true)
  | Finished _ => forall j k, ~ In (Resolve j k false) tr
  | Aborted _ => True
  end.

End Sched.

(** ** Vocabulary of the statements *)

(** The text of the reply to the prompt [v] when the request succeeds. *)
Definition reply (client : string -> list message -> option Z -> option string)
  (v : list message) : string :=
  match client MODEL v (Some SEED) with
  | Some text => text
  | None => EmptyString
  end.

(** The request of [v] succeeds. *)
Definition succeeds (client : string -> list message -> option Z -> option string)
  (v : list message) : bool :=
  match client MODEL v (Some SEED) with
  | Some _ => true
  | None => false
  end.

(** The titled result that both phases derive from a prompt entry. *)
Definition titled (client : string -> list message -> option Z -> option string)
  (kv : string * list message) : string :=
  format_title (fst kv) (reply client (snd kv)).

(** What [process_batch] returns for the entries [b] when every request
    succeeds. *)
Definition answers (client : string -> list message -> option Z -> option string)
  (b : list (string * list message)) : list (string * string) :=
  map (fun kv => (fst kv, reply client (snd kv))) b.

(** The writes and the accumulator update of [detail_record]. *)
Definition detail_writes (reviewer_dir : string) (kr : string * string) : list event :=
  [WriteMd reviewer_dir DETAIL_ANALYSIS_MD
     (String.append (format_title (fst kr) (snd kr)) nl)].

Definition detail_update (d : dict string) (kr : string * string) : dict string :=
  dict_set d (fst kr) (format_title (fst kr) (snd kr)).

(** The writes and the accumulator update of [short_record]. *)
Definition short_writes (reviewer_dir : string) (kr : string * string) : list event :=
  if str_in NO_CHANGES (format_title (fst kr) (snd kr)) then []
  else [WriteMd reviewer_dir SHORT_ANALYSIS_MD
          (String.append (format_title (fst kr) (snd kr)) nl)].

Definition short_update (acc : list string) (kr : string * string) : list string :=
  if str_in NO_CHANGES (format_title (fst kr) (snd kr)) then acc
  else acc ++ [format_title (fst kr) (snd kr)].

(** What a list of events appends to the file [name] of [directory], in order. *)
Fixpoint written (directory name : string) (tr : list event) : list string :=
  match tr with
  | [] => []
  | WriteMd d n data :: tr' =>
      if String.eqb d directory && String.eqb n name
      then data :: written directory name tr'
      else written directory name tr'
  | Request _ _ _ :: tr' => written directory name tr'
  end.

(** The events of one batch of a phase whose requests all succeed: the
    requests of the batch, then what the phase writes for its results. *)
Definition batch_events
  (client : string -> list message -> option Z -> option string)
  (writes : string * string -> list event) (b : dict (list message)) : list event :=
  map (fun kv => Request MODEL (snd kv) (Some SEED)) b
    ++ flat_map writes (answers client b).

(** A request carries the model and the seed of the module. *)
Definition seeded (ev : event) : Prop :=
  match ev with
  | Request model _ seed => model = MODEL /\ seed = Some SEED
  | WriteMd _ _ _ => True
  end.

(** The short result [kr] is left out of [files_analysis_results]. *)
Definition excluded (reviewer_dir : string) (kr : string * string) : bool :=
  match outcome (short_record reviewer_dir [] kr) with
  | Ok [] => true
  | _ => false
  end.

(** The marker test of lines 272-275 on one enumerated file. *)
Definition passes (open_read : string -> option string)
  (relpath : string -> string -> string) (directory f_path : string) : bool :=
  negb (str_in CANT_READ_FILE_MES
          (fst (read_file_content open_read relpath f_path directory false))).

(** Failure isolation in the words of the specification: the batch still
    hands its results to the caller, and every identifier other than the
    failing one has its successful text among them. *)
Definition isolates_failure
  (client : string -> list message -> option Z -> option string)
  (b : dict (list message)) (failing : string) : Prop :=
  exists results,
    outcome (process_batch client b) = Ok results
    /\ forall k v text,
         In (k, v) b -> k <> failing ->
         client MODEL v (Some SEED) = Some text -> In (k, text) results.

(** The words of the specification for the batch loop: once the stage
    has left a batch (it is at a later batch, has finished, or has ended
    with an error), every request that was sent has resolved, successfully
    or with failure. *)
Definition waits_for_all {Acc} (tr : list Sched.sched_event) (s : Sched.state Acc)
  : Prop :=
  forall j k,
    In (j, k) (Sched.issued tr) ->
    match s with
    | Sched.Running i _ _ _ => j < i
    | _ => True
    end ->
    exists ok, In (Sched.Resolve j k ok) tr.

(** ** Sample worlds *)

Module Sample.

(** A completion service that answers every request. *)
Definition steady_client (model : string) (ms : list message) (seed : option Z)
  : option string :=
  Some "Rename the variable".

(** A completion service that answers in the same way under the seed 66
    and not at all under any other seed. *)
Definition seed_bound_client (model : string) (ms : list message) (seed : option Z)
  : option string :=
  match seed with
  | Some 66%Z => Some "Rename the variable"
  | _ => None
  end.

(** A completion service that fails whenever the prompt mentions [b.py]. *)
Definition flaky_client (model : string) (ms : list message) (seed : option Z)
  : option string :=
  if existsb (fun m => str_in "b.py" (msg_content m)) ms then None
  else Some "Rename the variable".

(** A completion service for which nothing needs to change. *)
Definition content_client (model : string) (ms : list message) (seed : option Z)
  : option string :=
  Some "No changes required".

Definition two_prompts : dict (list message) :=
  [("a.py", [to_openai_system_message "Review"; to_openai_user_message "a.py: print(1)"]);
   ("b.py", [to_openai_system_message "Review"; to_openai_user_message "b.py: print(2)"])].

Definition three_prompts : dict (list message) :=
  two_prompts
    ++ [("c.py", [to_openai_system_message "Review"; to_openai_user_message "c.py: print(3)"])].

(** [two_prompts] cut into batches of one. *)
Definition single_batches : list (dict (list message)) :=
  [[("a.py", [to_openai_system_message "Review"; to_openai_user_message "a.py: print(1)"])];
   [("b.py", [to_openai_system_message "Review"; to_openai_user_message "b.py: print(2)"])]].

Definition task_a (st : Sched.status) : Sched.running_task :=
  {| Sched.t_key := "a.py";
     Sched.t_messages :=
       [to_openai_system_message "Review"; to_openai_user_message "a.py: print(1)"];
     Sched.t_status := st |}.

Definition task_b (st : Sched.status) : Sched.running_task :=
  {| Sched.t_key := "b.py";
     Sched.t_messages :=
       [to_openai_system_message "Review"; to_openai_user_message "b.py: print(2)"];
     Sched.t_status := st |}.

Definition after_a : dict string :=
  [("a.py", format_title "a.py" "Rename the variable")].

(** [relpath] for paths written as [base_dir/name]. *)
Definition strip_base (file_path base_dir : string) : string :=
  substring (S (String.length base_dir)) (String.length file_path) file_path.

(** A project with a plain file, a file that quotes the marker, and a file
    that cannot be decoded; the prompt files are present. *)
Definition disk (file_path : string) : option string :=
  if String.eqb file_path "proj/a.py" then Some "print(1)"
  else if String.eqb file_path "proj/notes.py" then Some "MSG = 'Can not read file'"
  else if String.eqb file_path "proj/logo.bin" then None
  else if String.eqb file_path "rev/prompts/detail.md" then Some "Review this file"
  else if String.eqb file_path "rev/prompts/short.md" then Some "Summarise"
  else if String.eqb file_path "rev/prompts/project.md" then Some "Review the project"
  else None.

Definition listing (directory : string) : string * list string :=
  ("tree", ["proj/a.py"; "proj/notes.py"; "proj/logo.bin"]).

Definition empty_listing (directory : string) : string * list string :=
  (EmptyString, []).

Definition one_listing (directory : string) : string * list string :=
  ("tree", ["proj/a.py"]).

End Sample.

(** ** Enumerating the project: [project_tree]

    The directory walk that feeds [main].  The file system is what the
    walk asks of it: [os.listdir] and [os.path.isdir].  Paths are POSIX
    paths.  The recursion of [project_tree] follows the directories it
    finds, so it is bounded here by a recursion budget, as it is by the
    interpreter. *)

Module Tree.

(** [j.startswith(sw)] *)
Definition startswith (j sw : string) : bool := String.prefix sw j.

(** [j.endswith(ew)] *)
Fixpoint endswith (j ew : string) : bool :=
  String.eqb j ew
  || match j with
     | EmptyString => false
     | String _ j' => endswith j' ew
     end.

(** [posixpath.join(a, b)] *)
Definition path_join (a b : string) : string :=
  if startswith b "/" then b
  else if String.eqb a EmptyString || endswith a "/" then String.append a b
  else String.append a (String.append "/" b).

(** [filter_items] of [project_tree] *)
Definition filter_items (_items _starts_with _ends_with _equals : list string)
  : list string :=
  filter
    (fun j =>
       negb (existsb (fun sw => startswith j sw) _starts_with
             || (existsb (fun ew => endswith j ew) _ends_with
                 || (existsb (fun x => String.eqb x j) _equals || false))))
    _items.

(** Comparison of the keys [(0, y)] and [(1, y)] of [custom_sort], as
    tuples of an integer and a string. *)
Definition key_le (k1 k2 : Z * string) : bool :=
  if (fst k1 <? fst k2)%Z then true
  else if (fst k1 =? fst k2)%Z then String.leb (snd k1) (snd k2)
  else false.

(** [list.sort(key=...)]: the sorted list is the same for every sorting
    algorithm here, because items with equal keys are equal. *)
Fixpoint insert_by {A} (le : A -> A -> bool) (x : A) (l : list A) : list A :=
  match l with
  | [] => [x]
  | y :: l' => if le x y then x :: l else y :: insert_by le x l'
  end.

Fixpoint sort_by {A} (le : A -> A -> bool) (l : list A) : list A :=
  match l with
  | [] => []
  | x :: l' => insert_by le x (sort_by le l')
  end.

(** What a call of [project_tree] comes to. *)
Inductive tree_result : Type :=
| TreeOk (p_tree : string) (files_with_path : list string)
| OSError           (* [os.listdir] raised *)
| RecursionError.   (* the recursion budget is used up *)

(** The files [acc] put in front of the files of a result. *)
Definition prepend_files (acc : list string) (r : tree_result) : tree_result :=
  match r with
  | TreeOk p_tree files_with_path => TreeOk p_tree (acc ++ files_with_path)
  | err => err
  end.

Definition IGNORE_STARTS_WITH : list string := ["."].
Definition IGNORE_ENDS_WITH : list string := [".ipynb"; ".md"; ".log"; ".lock"].

(** The value of [REVIEWER_DIR_IN_PROJECT] when the module is loaded. *)
Definition REVIEWER_DIR_IN_PROJECT : string := ".reviewer".

Section Walk.

(** [os.listdir(path)], [None] when it raises, and [os.path.isdir(path)]. *)
Variable listdir : string -> option (list string).
Variable isdir : string -> bool.

(** [__reviewer_folder_name__]: the name of the folder of the script. *)
Variable reviewer_folder_name : string.

Definition IGNORE_EQUALS : list string :=
  ["venv"; "__pycache__"; "logs"; reviewer_folder_name; REVIEWER_DIR_IN_PROJECT].

(** [custom_sort] of [project_tree] *)
Definition custom_sort (dir_tree y : string) : Z * string :=
  let p := path_join dir_tree y in
  if isdir p then (1%Z, y) else (0%Z, y).

(** The order in which [items.sort(key=custom_sort)] puts two names. *)
Definition item_le (dir_tree x y : string) : bool :=
  key_le (custom_sort dir_tree x) (custom_sort dir_tree y).

(** The loop [for i, item in enumerate(items)] of [project_tree]; [n] is
    [len(items)] and [recurse] the recursive call on a subdirectory with
    its prefix. *)
Fixpoint tree_loop (recurse : string -> string -> tree_result)
  (dir_tree prefix : string) (n : Z) (i : Z) (items : list string)
  (p_tree : string) (files_with_path : list string) : tree_result :=
  match items with
  | [] => TreeOk p_tree files_with_path
  | item :: rest =>
      let path := path_join dir_tree item in
      let is_last := (i =? n - 1)%Z in
      if isdir path then
        if is_last then
          let p_tree :=
            String.append p_tree
              (String.append prefix (String.append "└─── "
                 (String.append item (String.append "/" nl)))) in
          match recurse path (String.append prefix "     ") with
          | TreeOk subtree subfiles =>
              tree_loop recurse dir_tree prefix n (i + 1) rest
                (String.append p_tree subtree) (files_with_path ++ subfiles)
          | err => err
          end
        else
          let p_tree :=
            String.append p_tree
              (String.append prefix (String.append "├─── "
                 (String.append item (String.append "/" nl)))) in
          match recurse path (String.append prefix "│    ") with
          | TreeOk subtree subfiles =>
              tree_loop recurse dir_tree prefix n (i + 1) rest
                (String.append p_tree subtree) (files_with_path ++ subfiles)
          | err => err
          end
      else
        let p_tree :=
          if is_last then
            String.append p_tree
              (String.append prefix (String.append "└─── " (String.append item nl)))
          else
            String.append p_tree
              (String.append prefix (String.append "├─── " (String.append item nl))) in
        tree_loop recurse dir_tree prefix n (i + 1) rest p_tree
          (files_with_path ++ [path])
  end.

(** [project_tree(ignore_starts_with, ignore_ends_with, ignore_equals,
    dir_tree, level, prefix)] with a recursion budget of [fuel] nested
    calls. *)
Fixpoint project_tree (fuel : nat)
  (ignore_starts_with ignore_ends_with ignore_equals : option (list string))
  (dir_tree : string) (level : Z) (prefix : string) : tree_result :=
  match fuel with
  | O => RecursionError
  | S fuel' =>
      let ignore_starts_with :=
        match ignore_starts_with with Some l => l | None => IGNORE_STARTS_WITH end in
      let ignore_ends_with :=
        match ignore_ends_with with Some l => l | None => IGNORE_ENDS_WITH end in
      let ignore_equals :=
        match ignore_equals with Some l => l | None => IGNORE_EQUALS end in
      match listdir dir_tree with
      | None => OSError
      | Some items =>
          let items :=
            filter_items items ignore_starts_with ignore_ends_with ignore_equals in
          let items := sort_by (item_le dir_tree) items in
          tree_loop
            (fun path prefix' =>
               project_tree fuel' (Some ignore_starts_with) (Some ignore_ends_with)
                 (Some ignore_equals) path (level + 1) prefix')
            dir_tree prefix (Z.of_nat (length items)) 0 items EmptyString []
      end
  end.

(** The directories that a walk from [root] enters, and the files it lists. *)
Inductive enters (sw ew eq : list string) (root : string) : string -> Prop :=
| enters_root : enters sw ew eq root root
| enters_sub : forall d items item,
    enters sw ew eq root d ->
    listdir d = Some items ->
    In item (filter_items items sw ew eq) ->
    isdir (path_join d item) = true ->
    enters sw ew eq root (path_join d item).

Definition lists (sw ew eq : list string) (root f : string) : Prop :=
  exists d items item,
    enters sw ew eq root d
    /\ listdir d = Some items
    /\ In item (filter_items items sw ew eq)
    /\ isdir (path_join d item) = false
    /\ f = path_join d item.

(** Every directory entered from [d] can be listed, and the nesting of
    entered directories below [d] is less than [n] deep. *)
Fixpoint within (sw ew eq : list string) (n : nat) (d : string) : Prop :=
  match n with
  | O => False
  | S n' =>
      exists items,
        listdir d = Some items
        /\ forall item,
             In item (filter_items items sw ew eq) ->
             isdir (path_join d item) = true ->
             within sw ew eq n' (path_join d item)
  end.

End Walk.

(** The command line of the script. *)
Record cli_args : Type := CliArgs {
  arg_key : option string;
  arg_directory : string;
  arg_ignore_equals : list string;
  arg_ignore_starts_with : list string;
  arg_ignore_ends_with : list string
}.

(** The three lists after the [+=] of the script body. *)
Definition cli_starts_with (args : cli_args) : list string :=
  IGNORE_STARTS_WITH ++ arg_ignore_starts_with args.

Definition cli_ends_with (args : cli_args) : list string :=
  IGNORE_ENDS_WITH ++ arg_ignore_ends_with args.

Definition cli_equals (reviewer_folder_name : string) (args : cli_args) : list string :=
  IGNORE_EQUALS reviewer_folder_name ++ arg_ignore_equals args.

(** [REVIEWER_DIR_IN_PROJECT] after the script body has rebound it. *)
Definition cli_reviewer_dir (args : cli_args) : string :=
  String.append (arg_directory args) (String.append "/" REVIEWER_DIR_IN_PROJECT).

(** The script body from the walk on: [main] on the directory of the
    command line, with the lists and the report directory the script has
    set up; [None] when the walk raises, before anything is sent or
    written.  ([clear_dir] and the logger are left out.) *)
Definition script
  (client : string -> list message -> option Z -> option string)
  (open_read : string -> option string) (relpath : string -> string -> string)
  (listdir : string -> option (list string)) (isdir : string -> bool)
  (reviewer_folder_name local_path : string) (fuel : nat) (args : cli_args)
  : option (io unit) :=
  match project_tree listdir isdir reviewer_folder_name fuel
          (Some (cli_starts_with args)) (Some (cli_ends_with args))
          (Some (cli_equals reviewer_folder_name args))
          (arg_directory args) 0 EmptyString with
  | TreeOk tree project_files =>
      Some (main client open_read relpath (fun _ => (tree, project_files))
              local_path (cli_reviewer_dir args) (arg_directory args))
  | _ => None
  end.

(** A sample project on disk. *)
Definition sample_listdir (path : string) : option (list string) :=
  if String.eqb path "proj" then
    Some ["src"; "README.md"; ".git"; "b.py"; "a.py"; "venv"; "poetry.lock"]
  else if String.eqb path "proj/src" then
    Some ["util.py"; "run.log"; "__pycache__"; "core"]
  else if String.eqb path "proj/src/core" then Some ["z.py"; "a.py"]
  else if String.eqb path "proj/.git" then Some ["config"]
  else if String.eqb path "proj/venv" then Some ["lib.py"]
  else if String.eqb path "proj/src/__pycache__" then Some ["util.pyc"]
  else None.

Definition sample_isdir (path : string) : bool :=
  existsb (String.eqb path)
    ["proj"; "proj/src"; "proj/src/core"; "proj/.git"; "proj/venv";
     "proj/src/__pycache__"].

Definition sample_args : cli_args :=
  {| arg_key := None;
     arg_directory := "proj";
     arg_ignore_equals := ["core"];
     arg_ignore_starts_with := [];
     arg_ignore_ends_with := [] |}.


(** The sample project with every listing reversed. *)
Definition sample_listdir_rev (path : string) : option (list string) :=
  match sample_listdir path with
  | Some names => Some (rev names)
  | None => None
  end.

End Tree.

(** * Supporting facts *)

(** ** Dictionaries *)

Section DictFacts.

Context {V : Type}.

Lemma keys_app (d1 d2 : dict V) : keys (d1 ++ d2) = keys d1 ++ keys d2.
Proof. unfold keys. apply map_app. Qed.

Lemma dict_set_fresh (d : dict V) (k : string) (v : V) :
  ~ In k (keys d) -> dict_set d k v = d ++ [(k, v)].
Proof.
  induction d as [|[k' v'] d IH]; simpl; intros Hk.
  - reflexivity.
  - destruct (String.eqb_spec k' k) as [->|Hne].
    + exfalso. apply Hk. now left.
    + f_equal. apply IH. intros Hin. apply Hk. now right.
Qed.

Lemma keys_dict_set_in (d : dict V) (k : string) (v : V) :
  In k (keys d) -> keys (dict_set d k v) = keys d.
Proof.
  induction d as [|[k' v'] d IH]; simpl; intros Hk.
  - contradiction.
  - destruct (String.eqb_spec k' k) as [->|Hne]; simpl.
    + reflexivity.
    + f_equal. apply IH. destruct Hk as [Hk|Hk]; [congruence|exact Hk].
Qed.

Lemma in_keys_dict_set (d : dict V) (k k0 : string) (v : V) :
  In k0 (keys (dict_set d k v)) <-> k0 = k \/ In k0 (keys d).
Proof.
  induction d as [|[k' v'] d IH]; simpl.
  - intuition congruence.
  - destruct (String.eqb_spec k' k) as [->|Hne]; simpl.
    + intuition congruence.
    + rewrite IH. intuition congruence.
Qed.

Lemma dict_set_wf (d : dict V) (k : string) (v : V) :
  wf d -> wf (dict_set d k v).
Proof.
  unfold wf. induction d as [|[k' v'] d IH]; simpl; intros Hd.
  - constructor; [intros []|constructor].
  - inversion Hd as [|? ? Hnin Hd']; subst.
    destruct (String.eqb_spec k' k) as [->|Hne]; simpl.
    + constructor; assumption.
    + constructor; [|apply IH; assumption].
      intros Hin. apply in_keys_dict_set in Hin. destruct Hin as [->|Hin]; tauto.
Qed.

(** Filling a dictionary with pairs whose keys are new and pairwise
    distinct appends them in order. *)
Lemma fold_dict_set_fresh (l : list (string * V)) (d : dict V) :
  NoDup (keys d ++ map fst l) ->
  fold_left (fun d kv => dict_set d (fst kv) (snd kv)) l d = d ++ l.
Proof.
  revert d. induction l as [|[k v] l IH]; intros d Hnd; simpl.
  - now rewrite app_nil_r.
  - rewrite dict_set_fresh.
    + rewrite IH.
      * now rewrite <- app_assoc.
      * rewrite keys_app. simpl. rewrite <- app_assoc. exact Hnd.
    + simpl in Hnd. apply NoDup_remove_2 in Hnd.
      intros Hin. apply Hnd. apply in_or_app. now left.
Qed.

Lemma of_items_wf (l : list (string * V)) :
  NoDup (map fst l) -> of_items l = l.
Proof.
  intros Hnd. unfold of_items. now rewrite fold_dict_set_fresh.
Qed.


Lemma wf_firstn (d : dict V) (n : nat) : wf d -> wf (firstn n d).
Proof.
  unfold wf, keys. intros Hd. rewrite <- (firstn_skipn n d), map_app in Hd.
  now apply NoDup_app_remove_r in Hd.
Qed.

Lemma wf_skipn (d : dict V) (n : nat) : wf d -> wf (skipn n d).
Proof.
  unfold wf, keys. intros Hd. rewrite <- (firstn_skipn n d), map_app in Hd.
  now apply NoDup_app_remove_l in Hd.
Qed.

End DictFacts.

(** ** Substring search *)

Section StrFacts.

Lemma append_assoc (a b c : string) :
  String.append (String.append a b) c = String.append a (String.append b c).
Proof. induction a as [|x a IH]; simpl; [reflexivity|now rewrite IH]. Qed.

Lemma prefix_nil (s : string) : String.prefix EmptyString s = true.
Proof. now destruct s. Qed.

Lemma prefix_cons (p x : ascii) (pat s : string) :
  String.prefix (String p pat) (String x s)
  = if ascii_dec p x then String.prefix pat s else false.
Proof. reflexivity. Qed.

Lemma prefix_append (pat post : string) : String.prefix pat (String.append pat post) = true.
Proof.
  induction pat as [|p pat IH]; simpl.
  - apply prefix_nil.
  - destruct (ascii_dec p p); [exact IH|congruence].
Qed.

Lemma prefix_inv (pat s : string) :
  String.prefix pat s = true -> exists post, s = String.append pat post.
Proof.
  revert s. induction pat as [|p pat IH]; intros s H.
  - now exists s.
  - destruct s as [|x s]; [discriminate|]. rewrite prefix_cons in H.
    destruct (ascii_dec p x) as [->|]; [|discriminate].
    destruct (IH s H) as (post & ->). now exists post.
Qed.

Lemma str_in_unfold (pat s : string) :
  str_in pat s
  = String.prefix pat s
    || match s with
       | EmptyString => false
       | String _ s' => str_in pat s'
       end.
Proof. destruct s; unfold str_in; fold str_in; [now rewrite orb_false_r|reflexivity]. Qed.

Lemma str_in_cons (pat : string) (x : ascii) (s : string) :
  str_in pat (String x s) = String.prefix pat (String x s) || str_in pat s.
Proof. reflexivity. Qed.

Lemma str_in_nil (s : string) : str_in EmptyString s = true.
Proof. rewrite str_in_unfold. now rewrite prefix_nil. Qed.

(** [str_in] decides the occurrence of [pat] as a contiguous substring. *)
Lemma str_in_occurs (pat s : string) : str_in pat s = true <-> occurs pat s.
Proof.
  split.
  - induction s as [|x s IH]; rewrite str_in_unfold; intros H;
      apply orb_true_iff in H; destruct H as [H|H]; try discriminate.
    + destruct (prefix_inv _ _ H) as (post & Hs). now exists EmptyString, post.
    + destruct (prefix_inv _ _ H) as (post & Hs). now exists EmptyString, post.
    + destruct (IH H) as (pre & post & ->). now exists (String x pre), post.
  - intros (pre & post & ->). induction pre as [|x pre IH]; simpl.
    + rewrite str_in_unfold, prefix_append. reflexivity.
    + rewrite str_in_cons, IH. apply orb_true_r.
Qed.

Lemma str_in_append_intro (pre pat post : string) :
  str_in pat (String.append pre (String.append pat post)) = true.
Proof. apply str_in_occurs. now exists pre, post. Qed.

(** A character that does not start the pattern can be dropped in front. *)
Lemma str_in_cons_skip (pat : string) (p c : ascii) (s : string) :
  first_char pat = Some p -> c <> p ->
  str_in pat (String c s) = str_in pat s.
Proof.
  intros Hp Hc. destruct pat as [|p' pat]; [discriminate|].
  simpl in Hp. inversion Hp; subst p'.
  rewrite str_in_cons, prefix_cons.
  destruct (ascii_dec p c); [congruence|reflexivity].
Qed.

Lemma str_in_repeat_skip (pat : string) (p c : ascii) (n : nat) (s : string) :
  first_char pat = Some p -> c <> p ->
  str_in pat (String.append (Str.repeat (String c EmptyString) n) s) = str_in pat s.
Proof.
  intros Hp Hc. induction n as [|n IH]; simpl; [reflexivity|].
  now rewrite (str_in_cons_skip pat p c _ Hp Hc).
Qed.

Lemma prefix_cut (c : ascii) (pat a b : string) :
  has_char c pat = false ->
  String.prefix pat (String.append a (String c b)) = String.prefix pat a.
Proof.
  revert pat. induction a as [|x a IH]; intros pat Hc.
  - destruct pat as [|p pat]; [reflexivity|].
    simpl in Hc. apply orb_false_iff in Hc. destruct Hc as [Hcp _].
    simpl String.append. rewrite prefix_cons.
    destruct (ascii_dec p c) as [->|]; [|reflexivity].
    now rewrite Ascii.eqb_refl in Hcp.
  - destruct pat as [|p pat]; [reflexivity|].
    simpl in Hc. apply orb_false_iff in Hc. destruct Hc as [_ Hc].
    simpl String.append. rewrite !prefix_cons.
    destruct (ascii_dec p x); [now apply IH|reflexivity].
Qed.

(** An occurrence cannot span a character that the pattern does not have. *)
Lemma str_in_cut (c : ascii) (pat a b : string) :
  has_char c pat = false ->
  str_in pat (String.append a (String c b)) = str_in pat a || str_in pat b.
Proof.
  intros Hc. induction a as [|x a IH].
  - simpl String.append. rewrite str_in_cons.
    change (String c b) with (String.append EmptyString (String c b)).
    rewrite (prefix_cut c pat EmptyString b Hc).
    rewrite (str_in_unfold pat EmptyString). now rewrite orb_false_r.
  - simpl String.append. rewrite !str_in_cons, IH.
    change (String x (String.append a (String c b)))
      with (String.append (String x a) (String c b)).
    rewrite (prefix_cut c pat (String x a) b Hc). now rewrite orb_assoc.
Qed.

Lemma prefix_snoc (c : ascii) (pat t : string) :
  last_char pat <> Some c ->
  String.prefix pat (String.append t (String c EmptyString)) = String.prefix pat t.
Proof.
  revert pat. induction t as [|x t IH]; intros pat Hl.
  - destruct pat as [|p pat]; [reflexivity|].
    simpl String.append. rewrite prefix_cons.
    destruct (ascii_dec p c) as [->|]; [|reflexivity].
    destruct pat as [|p' pat]; [|reflexivity].
    exfalso. apply Hl. reflexivity.
  - destruct pat as [|p pat]; [reflexivity|].
    simpl String.append. rewrite !prefix_cons.
    destruct (ascii_dec p x); [|reflexivity].
    destruct pat as [|p' pat]; [now rewrite !prefix_nil|].
    apply IH. exact Hl.
Qed.

(** A character that does not end the pattern can be dropped at the end. *)
Lemma str_in_snoc_skip (c : ascii) (pat s : string) :
  last_char pat <> Some c ->
  str_in pat (String.append s (String c EmptyString)) = str_in pat s.
Proof.
  intros Hl. induction s as [|x s IH].
  - simpl String.append. rewrite str_in_cons.
    change (String c EmptyString) with (String.append EmptyString (String c EmptyString)).
    rewrite (prefix_snoc c pat EmptyString Hl).
    rewrite (str_in_unfold pat EmptyString). now rewrite orb_false_r, orb_diag.
  - simpl String.append. rewrite !str_in_cons, IH.
    change (String x (String.append s (String c EmptyString)))
      with (String.append (String x s) (String c EmptyString)).
    now rewrite (prefix_snoc c pat (String x s) Hl).
Qed.

End StrFacts.

(** ** The two in-band markers *)

Lemma append_snoc_cons (a : string) (x y : ascii) (r : string) :
  String.append a (String x (String y r))
  = String.append (String.append a (String x EmptyString)) (String y r).
Proof. now rewrite append_assoc. Qed.

(** The sentinel occurs in a titled text exactly when it occurs in the
    identifier or in the text: it starts with [N] and has no line break,
    so it can neither start in the heading mark nor span the blank line. *)
Lemma no_changes_in_title (k v : string) :
  str_in NO_CHANGES (format_title k v) = str_in NO_CHANGES k || str_in NO_CHANGES v.
Proof.
  unfold format_title, MD_TITLE, nl. simpl String.append.
  rewrite !(str_in_cons_skip NO_CHANGES "N"%char) by (reflexivity || discriminate).
  rewrite (str_in_cut "010"%char) by reflexivity.
  now rewrite (str_in_cons_skip NO_CHANGES "N"%char) by (reflexivity || discriminate).
Qed.

(** The marker occurs in what [read_file_content] returns for a file that
    was read exactly when it occurs in the relative path or in the
    content of the file. *)
Lemma cant_read_in_content (rel_path text : string) :
  str_in CANT_READ_FILE_MES
    (String.append (String.append (file_title rel_path) text) nl)
  = str_in CANT_READ_FILE_MES rel_path || str_in CANT_READ_FILE_MES text.
Proof.
  unfold nl at 1. rewrite (str_in_snoc_skip "010"%char) by discriminate.
  unfold file_title. cbv zeta. rewrite !append_assoc.
  rewrite (str_in_repeat_skip CANT_READ_FILE_MES "C"%char "-"%char 30)
    by (reflexivity || discriminate).
  simpl (String.append " " _).
  rewrite (str_in_cons_skip CANT_READ_FILE_MES "C"%char) by (reflexivity || discriminate).
  change (Str.repeat "-" 30) with (String "-"%char (Str.repeat "-" 29)).
  simpl (String.append (String "-"%char _) _).
  rewrite append_snoc_cons, (str_in_cut "-"%char) by reflexivity.
  rewrite (str_in_snoc_skip " "%char) by discriminate.
  unfold nl. simpl String.append.
  now rewrite !(str_in_cons_skip CANT_READ_FILE_MES "C"%char) by (reflexivity || discriminate).
Qed.

(** The text returned for a file that could not be read carries the marker. *)
Lemma cant_read_in_failure (rel_path : string) :
  str_in CANT_READ_FILE_MES
    (String.append (String.append (file_title rel_path) CANT_READ_FILE_MES) nl)
  = true.
Proof. rewrite append_assoc. apply str_in_append_intro. Qed.

(** ** Batching *)

Section Batching.

Context {V : Type}.

(** With a positive step, [range(0, n, c)] has [ceil(n / c)] elements. *)
Lemma range_len_ceil (n c : Z) :
  (0 <= n)%Z -> (1 <= c)%Z ->
  range_len 0 n c = Ok (Z.to_nat ((n + c - 1) / c)).
Proof.
  intros Hn Hc. unfold range_len.
  destruct (Z.eqb_spec c 0) as [?|_]; [lia|].
  destruct (Z.ltb_spec 0 c) as [_|?]; [|lia].
  destruct (Z.ltb_spec 0 n) as [Hpos|Hz].
  - do 2 f_equal.
    replace (n + c - 1)%Z with (n - 0 - 1 + 1 * c)%Z by lia.
    rewrite Z.div_add by lia. reflexivity.
  - assert (n = 0)%Z as -> by lia.
    rewrite Z.div_small by lia. reflexivity.
Qed.

(** The number of rounds brackets the length of the input. *)
Lemma ceil_bracket (n c : Z) :
  (0 <= n)%Z -> (1 <= c)%Z ->
  let r := ((n + c - 1) / c)%Z in
  (0 <= r /\ n <= r * c /\ (r = 0 \/ (r - 1) * c < n))%Z.
Proof.
  intros Hn Hc r.
  pose proof (Z.div_mod (n + c - 1) c ltac:(lia)) as Hdm.
  pose proof (Z.mod_pos_bound (n + c - 1) c ltac:(lia)) as Hmod.
  fold r in Hdm.
  assert (0 <= r)%Z by (apply Z.div_pos; lia).
  repeat split; nia.
Qed.

Lemma islice_ok {A} (it : list A) (n : nat) :
  (Z.of_nat n <= maxsize)%Z ->
  islice it (Z.of_nat n) = Ok (firstn n it, skipn n it).
Proof.
  intros Hmax. unfold islice.
  destruct (Z.ltb_spec (Z.of_nat n) 0) as [?|_]; [lia|].
  destruct (Z.ltb_spec maxsize (Z.of_nat n)) as [?|_]; [lia|].
  simpl. now rewrite Nat2Z.id.
Qed.

Lemma islice_too_large {A} (it : list A) (c : Z) :
  (maxsize < c)%Z -> islice it c = Raise ValueError.
Proof.
  intros Hc. unfold islice.
  destruct (Z.ltb_spec maxsize c) as [_|?]; [|lia].
  now rewrite orb_true_r.
Qed.

Lemma batches_loop_spec (n : nat) :
  1 <= n -> (Z.of_nat n <= maxsize)%Z ->
  forall (r : nat) (it : list (string * V)),
    wf it ->
    length it <= r * n ->
    (r = 0 \/ (r - 1) * n < length it) ->
    exists batches,
      batches_loop r it (Z.of_nat n) = Ok batches
      /\ length batches = r
      /\ concat batches = it
      /\ Forall (fun b : dict V => 1 <= length b <= n) batches
      /\ (forall i b, nth_error batches i = Some b -> S i < r -> length b = n).
Proof.
  intros Hpos Hmax. induction r as [|r IH]; intros it Hwf Hub Hlb.
  - simpl in *. assert (it = []) as -> by (destruct it; simpl in *; [reflexivity|lia]).
    exists []. split; [reflexivity|]. split; [reflexivity|]. split; [reflexivity|].
    split; [constructor|]. intros i b Hnth. destruct i; discriminate.
  - assert (Hlen : r * n < length it) by (destruct Hlb as [?|Hlb]; [lia|]; simpl in Hlb; lia).
    simpl. rewrite (islice_ok it n Hmax).
    rewrite (of_items_wf (firstn n it)) by (apply (wf_firstn it n Hwf)).
    assert (Hsk : length (skipn n it) = length it - n) by apply length_skipn.
    assert (Hfi : length (firstn n it) = Nat.min n (length it)) by apply length_firstn.
    destruct (IH (skipn n it)) as (bs & -> & Hl & Hc & Hf & Hfull).
    + apply (wf_skipn it n Hwf).
    + simpl in Hub. lia.
    + destruct r as [|r']; [now left|right]. simpl in *. lia.
    + eexists. split; [reflexivity|]. split; [|split; [|split]].
      * simpl. now rewrite Hl.
      * simpl. rewrite Hc. apply firstn_skipn.
      * constructor; [|exact Hf]. lia.
      * intros [|i] b Hnth Hi; simpl in Hnth.
        -- inversion Hnth; subst b. rewrite Hfi.
           assert (n <= r * n) by (destruct r; simpl; lia). lia.
        -- apply (Hfull i b Hnth). lia.
Qed.

(** A batch size above [sys.maxsize]: the first [islice] raises, so there
    are batches only when the range is empty, that is for an empty input. *)
Lemma dict_to_batches_too_large (M : dict V) (c : Z) :
  (maxsize < c)%Z ->
  dict_to_batches M c = match M with [] => Ok [] | _ :: _ => Raise ValueError end.
Proof.
  intros Hc. assert (Hm : (0 < maxsize)%Z) by reflexivity.
  unfold dict_to_batches, range_len, len, items.
  destruct (Z.eqb_spec c 0) as [?|_]; [lia|].
  destruct (Z.ltb_spec 0 c) as [_|?]; [|lia].
  destruct M as [|kv M]; [reflexivity|].
  destruct (Z.ltb_spec 0 (Z.of_nat (length (kv :: M)))) as [Hpos|Hz];
    [|simpl length in Hz; lia].
  assert (Hr : (0 <= (Z.of_nat (length (kv :: M)) - 0 - 1) / c)%Z)
    by (apply Z.div_pos; lia).
  destruct (Z.to_nat ((Z.of_nat (length (kv :: M)) - 0 - 1) / c + 1)) as [|r] eqn:Hrounds;
    [lia|].
  simpl. now rewrite (islice_too_large (kv :: M) c Hc).
Qed.

End Batching.

(** ** The event monad *)

Section IoFacts.

Context {A B : Type}.

Lemma bind_ok (m : io A) (f : A -> io B) (a : A) :
  outcome m = Ok a ->
  bind m f = (events m ++ events (f a), outcome (f a)).
Proof.
  destruct m as [tr r]. simpl. intros ->. simpl. now destruct (f a).
Qed.

Lemma bind_raise (m : io A) (f : A -> io B) (e : exn) :
  outcome m = Raise e -> bind m f = (events m, Raise e).
Proof.
  destruct m as [tr r]. simpl. now intros ->.
Qed.

Lemma outcome_bind_ok (m : io A) (f : A -> io B) (a : A) :
  outcome m = Ok a -> outcome (bind m f) = outcome (f a).
Proof. intros H. now rewrite (bind_ok _ _ _ H). Qed.

Lemma events_bind_ok (m : io A) (f : A -> io B) (a : A) :
  outcome m = Ok a -> events (bind m f) = events m ++ events (f a).
Proof. intros H. now rewrite (bind_ok _ _ _ H). Qed.

Lemma outcome_bind_raise (m : io A) (f : A -> io B) (e : exn) :
  outcome m = Raise e -> outcome (bind m f) = Raise e.
Proof. intros H. now rewrite (bind_raise _ _ _ H). Qed.

Lemma events_bind_raise (m : io A) (f : A -> io B) (e : exn) :
  outcome m = Raise e -> events (bind m f) = events m.
Proof. intros H. now rewrite (bind_raise _ _ _ H). Qed.

(** Every event of [bind m f] is an event of [m] or of some [f a]. *)
Lemma in_events_bind (m : io A) (f : A -> io B) (ev : event) :
  In ev (events (bind m f)) ->
  In ev (events m) \/ exists a, outcome m = Ok a /\ In ev (events (f a)).
Proof.
  destruct m as [tr [a|e]]; simpl.
  - destruct (f a) as [tr' r] eqn:Hf. simpl. intros Hin.
    apply in_app_or in Hin. destruct Hin as [Hin|Hin]; [now left|right].
    exists a. rewrite Hf. now split.
  - now left.
Qed.

End IoFacts.

Lemma for_each_cons {A S} (body : S -> A -> io S) (x : A) (xs : list A) (s : S) :
  for_each body (x :: xs) s = bind (body s x) (fun s' => for_each body xs s').
Proof. reflexivity. Qed.

Lemma for_each_ext {A S} (body body' : S -> A -> io S) (xs : list A) (s : S) :
  (forall s x, body s x = body' s x) ->
  for_each body xs s = for_each body' xs s.
Proof.
  intros Hext. revert s. induction xs as [|x xs IH]; intros s; simpl.
  - reflexivity.
  - rewrite Hext. destruct (body' s x) as [tr [s'|e]]; simpl; [|reflexivity].
    now rewrite IH.
Qed.

Lemma in_events_for_each {A S} (body : S -> A -> io S) (xs : list A) (s : S) (ev : event) :
  In ev (events (for_each body xs s)) ->
  exists s' x, In x xs /\ In ev (events (body s' x)).
Proof.
  revert s. induction xs as [|x xs IH]; intros s; simpl.
  - intros [].
  - intros Hin. apply in_events_bind in Hin. destruct Hin as [Hin|(s' & _ & Hin)].
    + exists s, x. split; [now left|exact Hin].
    + destruct (IH _ Hin) as (s'' & x' & Hx & Hev).
      exists s'', x'. split; [now right|exact Hev].
Qed.

Lemma requests_app (tr tr' : list event) :
  requests (tr ++ tr') = requests tr ++ requests tr'.
Proof.
  induction tr as [|[model ms sd|d n x] tr IH]; simpl; [reflexivity| |exact IH].
  now rewrite IH.
Qed.

(** ** Gathering a batch *)

Section BatchFacts.

Variable client : string -> list message -> option Z -> option string.

Lemma events_process_batch (b : dict (list message)) :
  events (process_batch client b)
  = map (fun kv => Request MODEL (snd kv) (Some SEED)) b.
Proof.
  unfold process_batch, gather, items. simpl.
  induction b as [|[k v] b IH]; simpl; [reflexivity|].
  rewrite <- IH. unfold task, openai_request. simpl.
  now destruct (client MODEL v (Some SEED)).
Qed.

Lemma outcome_task (k : string) (v : list message) :
  outcome (task client k v)
  = match client MODEL v (Some SEED) with
    | Some text => Ok (k, text)
    | None => Raise ServiceError
    end.
Proof.
  unfold task, openai_request. simpl. now destruct (client MODEL v (Some SEED)).
Qed.

(** A batch whose requests all succeed returns one pair per entry, in the
    order of the entries. *)
Lemma process_batch_ok (b : dict (list message)) :
  forallb (fun kv => succeeds client (snd kv)) b = true ->
  outcome (process_batch client b)
  = Ok (map (fun kv => (fst kv, reply client (snd kv))) b).
Proof.
  unfold process_batch, gather, items. simpl.
  induction b as [|[k v] b IH]; simpl; [reflexivity|].
  intros Hall. apply andb_true_iff in Hall. destruct Hall as [Hv Hb].
  rewrite outcome_task. unfold succeeds, reply in *. simpl in *.
  destruct (client MODEL v (Some SEED)); [|discriminate].
  now rewrite (IH Hb).
Qed.

(** A batch with a failing request raises, whatever its siblings do. *)
Lemma process_batch_raise (b : dict (list message)) :
  forallb (fun kv => succeeds client (snd kv)) b = false ->
  outcome (process_batch client b) = Raise ServiceError.
Proof.
  unfold process_batch, gather, items. simpl.
  induction b as [|[k v] b IH]; simpl; [discriminate|].
  intros Hall. rewrite outcome_task. unfold succeeds in *. simpl in *.
  destruct (client MODEL v (Some SEED)); [|reflexivity].
  simpl in Hall. now rewrite (IH Hall).
Qed.

End BatchFacts.

(** ** The batch loop of a phase *)

Section StageLoop.

Variable client : string -> list message -> option Z -> option string.
Variable Acc : Type.
Variable record : Acc -> string * string -> io Acc.

(** Both phases record a gathered result without raising: they emit writes
    that depend on the result alone and update the accumulator. *)
Variable writes : string * string -> list event.
Variable update : Acc -> string * string -> Acc.
Hypothesis record_spec : forall acc kr, record acc kr = (writes kr, Ok (update acc kr)).

Lemma for_each_record (results : list (string * string)) (acc : Acc) :
  for_each record results acc
  = (flat_map writes results, Ok (fold_left update results acc)).
Proof.
  revert acc. induction results as [|kr results IH]; intros acc; simpl.
  - reflexivity.
  - rewrite record_spec. simpl. now rewrite IH.
Qed.

Lemma stage_body_ok (b : dict (list message)) (acc : Acc) :
  forallb (fun kv => succeeds client (snd kv)) b = true ->
  (results <- process_batch client b ;; for_each record results acc)
  = (events (process_batch client b) ++ flat_map writes (answers client b),
     Ok (fold_left update (answers client b) acc)).
Proof.
  intros Hb. rewrite (bind_ok _ _ _ (process_batch_ok client b Hb)).
  now rewrite for_each_record.
Qed.

Lemma stage_body_raise (b : dict (list message)) (acc : Acc) :
  forallb (fun kv => succeeds client (snd kv)) b = false ->
  (results <- process_batch client b ;; for_each record results acc)
  = (events (process_batch client b), Raise ServiceError).
Proof.
  intros Hb. now rewrite (bind_raise _ _ _ (process_batch_raise client b Hb)).
Qed.

Lemma stage_loop_ok (batches : list (dict (list message))) (acc : Acc) :
  forallb (fun kv => succeeds client (snd kv)) (concat batches) = true ->
  outcome (for_each
     (fun d batch => results <- process_batch client batch ;; for_each record results d)
     batches acc)
  = Ok (fold_left update (answers client (concat batches)) acc).
Proof.
  revert acc. induction batches as [|b batches IH]; intros acc.
  - reflexivity.
  - simpl concat. rewrite forallb_app. intros Hall. apply andb_true_iff in Hall.
    destruct Hall as [Hb Hrest].
    rewrite for_each_cons, (stage_body_ok b acc Hb).
    erewrite outcome_bind_ok by reflexivity. rewrite (IH _ Hrest).
    unfold answers. now rewrite map_app, fold_left_app.
Qed.

Lemma stage_loop_raise (batches : list (dict (list message))) (acc : Acc) :
  forallb (fun kv => succeeds client (snd kv)) (concat batches) = false ->
  outcome (for_each
     (fun d batch => results <- process_batch client batch ;; for_each record results d)
     batches acc) = Raise ServiceError.
Proof.
  revert acc. induction batches as [|b batches IH]; intros acc.
  - discriminate.
  - simpl concat. rewrite forallb_app. intros Hall.
    destruct (forallb (fun kv => succeeds client (snd kv)) b) eqn:Hb.
    + simpl in Hall.
      rewrite for_each_cons, (stage_body_ok b acc Hb).
      erewrite outcome_bind_ok by reflexivity. now apply IH.
    + rewrite for_each_cons, (stage_body_raise b acc Hb). reflexivity.
Qed.

(** The loop sends nothing but the requests of its batches, with the seed
    of the module, as long as recording sends no request. *)
Lemma stage_loop_seeded (batches : list (dict (list message))) (acc : Acc) (ev : event) :
  (forall kr ev', In ev' (writes kr) -> seeded ev') ->
  In ev (events (for_each
     (fun d batch => results <- process_batch client batch ;; for_each record results d)
     batches acc)) -> seeded ev.
Proof.
  intros Hw Hin. apply in_events_for_each in Hin.
  destruct Hin as (d & b & _ & Hin).
  apply in_events_bind in Hin. destruct Hin as [Hin|(results & _ & Hin)].
  - rewrite events_process_batch in Hin. apply in_map_iff in Hin.
    destruct Hin as (kv & <- & _). simpl. now split.
  - rewrite for_each_record in Hin. simpl in Hin. apply in_flat_map in Hin.
    destruct Hin as (kr & _ & Hin). now apply (Hw kr).
Qed.

End StageLoop.


(** ** The two recorders *)

Lemma detail_record_spec (reviewer_dir : string) (d : dict string) (kr : string * string) :
  detail_record reviewer_dir d kr
  = (detail_writes reviewer_dir kr, Ok (detail_update d kr)).
Proof. destruct kr as [key result]. reflexivity. Qed.

Lemma short_record_spec (reviewer_dir : string) (acc : list string) (kr : string * string) :
  short_record reviewer_dir acc kr
  = (short_writes reviewer_dir kr, Ok (short_update acc kr)).
Proof.
  destruct kr as [key result]. unfold short_record, short_writes, short_update.
  cbn [fst snd]. now destruct (str_in NO_CHANGES (format_title key result)).
Qed.

(** ** The phases on a well-formed prompt dictionary *)

Lemma dict_to_batches_spec {V} (M : dict V) (c : Z) :
  wf M -> (1 <= c <= maxsize)%Z ->
  exists batches,
    dict_to_batches M c = Ok batches
    /\ Z.of_nat (length batches) = ((len M + c - 1) / c)%Z
    /\ concat batches = items M
    /\ Forall (fun b : dict V => (1 <= len b <= c)%Z) batches
    /\ (forall i b, nth_error batches i = Some b ->
                    S i < length batches -> len b = c).
Proof.
  intros Hwf [Hc Hmax]. unfold dict_to_batches, len, items.
  rewrite range_len_ceil by lia.
  destruct (ceil_bracket (Z.of_nat (length M)) c) as (Hr0 & Hub & Hlb); [lia|lia|].
  set (r := Z.to_nat ((Z.of_nat (length M) + c - 1) / c)) in *.
  assert (Hr : ((Z.of_nat (length M) + c - 1) / c)%Z = Z.of_nat r) by (unfold r; lia).
  rewrite Hr in *. clear Hr. clearbody r.
  assert (Hn : exists n, c = Z.of_nat n /\ 1 <= n) by (exists (Z.to_nat c); lia).
  destruct Hn as (n & -> & Hn).
  destruct (batches_loop_spec (V:=V) n Hn Hmax r M Hwf)
    as (batches & Hb & Hlen & Hcat & Hall & Hfull).
  - apply Nat2Z.inj_le. rewrite Nat2Z.inj_mul. exact Hub.
  - destruct r as [|r']; [now left|right].
    destruct Hlb as [Hz|Hlb]; [lia|]. replace (S r' - 1) with r' by lia.
    apply Nat2Z.inj_lt. rewrite Nat2Z.inj_mul.
    replace (Z.of_nat r') with (Z.of_nat (S r') - 1)%Z by lia. exact Hlb.
  - exists batches. split; [exact Hb|]. split; [|split; [|split]].
    + now rewrite Hlen.
    + exact Hcat.
    + eapply Forall_impl; [|exact Hall]. simpl. intros b Hb'. lia.
    + intros i b Hnth Hi. rewrite Hlen in Hi.
      rewrite (Hfull i b Hnth Hi). lia.
Qed.

(** The limit of [main] is a legal batch size. *)
Lemma limit_in_range : (1 <= NUMBER_OF_CONCURRENT_REQUESTS <= maxsize)%Z.
Proof. unfold NUMBER_OF_CONCURRENT_REQUESTS, maxsize. lia. Qed.

Lemma fold_detail_update (rs : list (string * string)) (d : dict string) :
  NoDup (keys d ++ map fst rs) ->
  fold_left detail_update rs d
  = d ++ map (fun kr => (fst kr, format_title (fst kr) (snd kr))) rs.
Proof.
  revert d. induction rs as [|[k r] rs IH]; intros d Hnd; simpl.
  - now rewrite app_nil_r.
  - unfold detail_update at 2. simpl. rewrite dict_set_fresh.
    + rewrite IH.
      * now rewrite <- app_assoc.
      * rewrite keys_app. simpl. rewrite <- app_assoc. exact Hnd.
    + simpl in Hnd. apply NoDup_remove_2 in Hnd.
      intros Hin. apply Hnd. apply in_or_app. now left.
Qed.

Lemma fold_short_update (rs : list (string * string)) (acc : list string) :
  fold_left short_update rs acc
  = acc ++ filter (fun s => negb (str_in NO_CHANGES s))
             (map (fun kr => format_title (fst kr) (snd kr)) rs).
Proof.
  revert acc. induction rs as [|[k r] rs IH]; intros acc; simpl.
  - now rewrite app_nil_r.
  - rewrite IH. unfold short_update at 1. cbn [fst snd].
    destruct (str_in NO_CHANGES (format_title k r)); simpl.
    + reflexivity.
    + now rewrite <- app_assoc.
Qed.

Lemma forallb_succeeds (client : string -> list message -> option Z -> option string)
  (M : dict (list message)) :
  (forall k v, In (k, v) M -> client MODEL v (Some SEED) <> None) ->
  forallb (fun kv => succeeds client (snd kv)) M = true.
Proof.
  intros Hall. apply forallb_forall. intros [k v] Hin. unfold succeeds. simpl.
  specialize (Hall k v Hin). now destruct (client MODEL v (Some SEED)).
Qed.

Lemma exists_failing (client : string -> list message -> option Z -> option string)
  (M : dict (list message)) (k : string) (v : list message) :
  In (k, v) M -> client MODEL v (Some SEED) = None ->
  forallb (fun kv => succeeds client (snd kv)) M = false.
Proof.
  intros Hin Hfail.
  destruct (forallb (fun kv => succeeds client (snd kv)) M) eqn:Hall; [|reflexivity].
  rewrite forallb_forall in Hall. specialize (Hall _ Hin).
  unfold succeeds in Hall. simpl in Hall. now rewrite Hfail in Hall.
Qed.

Section Phases.

Variable client : string -> list message -> option Z -> option string.
Variable reviewer_dir : string.
Variable M : dict (list message).
Variable c : Z.
Hypothesis M_wf : wf M.
Hypothesis c_pos : (1 <= c <= maxsize)%Z.

Lemma detail_phase_ok :
  forallb (fun kv => succeeds client (snd kv)) M = true ->
  outcome (detail_phase client reviewer_dir M c)
  = Ok (map (fun kv => (fst kv, titled client kv)) M).
Proof.
  intros Hall. unfold detail_phase.
  destruct (dict_to_batches_spec M c M_wf c_pos) as (bs & -> & _ & Hcat & _).
  unfold lift. erewrite outcome_bind_ok by reflexivity.
  rewrite (stage_loop_ok client _ _ _ _ (detail_record_spec reviewer_dir)), Hcat
    by (rewrite Hcat; exact Hall).
  unfold items. rewrite fold_detail_update.
  - unfold answers, titled. simpl. now rewrite map_map.
  - simpl. unfold answers. rewrite map_map. exact M_wf.
Qed.

Lemma detail_phase_raise :
  forallb (fun kv => succeeds client (snd kv)) M = false ->
  outcome (detail_phase client reviewer_dir M c) = Raise ServiceError.
Proof.
  intros Hall. unfold detail_phase.
  destruct (dict_to_batches_spec M c M_wf c_pos) as (bs & -> & _ & Hcat & _).
  unfold lift. erewrite outcome_bind_ok by reflexivity.
  apply (stage_loop_raise client _ _ _ _ (detail_record_spec reviewer_dir)).
  now rewrite Hcat.
Qed.

Lemma short_phase_ok :
  forallb (fun kv => succeeds client (snd kv)) M = true ->
  outcome (short_phase client reviewer_dir M c)
  = Ok (filter (fun s => negb (str_in NO_CHANGES s)) (map (titled client) M)).
Proof.
  intros Hall. unfold short_phase.
  destruct (dict_to_batches_spec M c M_wf c_pos) as (bs & -> & _ & Hcat & _).
  unfold lift. erewrite outcome_bind_ok by reflexivity.
  rewrite (stage_loop_ok client _ _ _ _ (short_record_spec reviewer_dir)), Hcat
    by (rewrite Hcat; exact Hall).
  unfold items. rewrite fold_short_update. simpl.
  unfold answers, titled. now rewrite map_map.
Qed.

Lemma short_phase_raise :
  forallb (fun kv => succeeds client (snd kv)) M = false ->
  outcome (short_phase client reviewer_dir M c) = Raise ServiceError.
Proof.
  intros Hall. unfold short_phase.
  destruct (dict_to_batches_spec M c M_wf c_pos) as (bs & -> & _ & Hcat & _).
  unfold lift. erewrite outcome_bind_ok by reflexivity.
  apply (stage_loop_raise client _ _ _ _ (short_record_spec reviewer_dir)).
  now rewrite Hcat.
Qed.

End Phases.

(** ** The marker test on enumerated files *)

Section ReadFacts.

Variable open_read : string -> option string.
Variable relpath : string -> string -> string.

Lemma passes_spec (directory f_path : string) :
  passes open_read relpath directory f_path
  = match open_read f_path with
    | Some text =>
        negb (str_in CANT_READ_FILE_MES (relpath f_path directory)
              || str_in CANT_READ_FILE_MES text)
    | None => false
    end.
Proof.
  unfold passes, read_file_content. cbv beta zeta iota.
  destruct (open_read f_path) as [text|]; cbn [fst].
  - now rewrite cant_read_in_content.
  - now rewrite cant_read_in_failure.
Qed.

Lemma snd_read_file_content (f_path base_dir : string) (is_prompt : bool) :
  snd (read_file_content open_read relpath f_path base_dir is_prompt)
  = relpath f_path base_dir.
Proof. unfold read_file_content. now destruct (open_read f_path). Qed.

Lemma detail_prompts_step (dp directory f_path : string) (d : dict (list message)) :
  (let (file_detail_analysis, relative_path) :=
     read_file_content open_read relpath f_path directory false in
   if str_in CANT_READ_FILE_MES file_detail_analysis then d
   else dict_set d relative_path
          [to_openai_system_message dp; to_openai_user_message file_detail_analysis])
  = if passes open_read relpath directory f_path
    then dict_set d (relpath f_path directory)
           [to_openai_system_message dp;
            to_openai_user_message
              (fst (read_file_content open_read relpath f_path directory false))]
    else d.
Proof.
  unfold passes.
  pose proof (snd_read_file_content f_path directory false) as Hsnd.
  destruct (read_file_content open_read relpath f_path directory false) as [txt rel].
  simpl in *. subst rel. now destruct (str_in CANT_READ_FILE_MES txt).
Qed.

Lemma in_keys_fold_prompts (dp directory : string) (files : list string)
  (d : dict (list message)) (k : string) :
  In k (keys (fold_left
                (fun d f_path =>
                   let (file_detail_analysis, relative_path) :=
                     read_file_content open_read relpath f_path directory false in
                   if str_in CANT_READ_FILE_MES file_detail_analysis then d
                   else dict_set d relative_path
                          [to_openai_system_message dp;
                           to_openai_user_message file_detail_analysis])
                files d))
  <-> In k (keys d)
      \/ exists f, In f files /\ relpath f directory = k
                   /\ passes open_read relpath directory f = true.
Proof.
  revert d. induction files as [|f files IH]; intros d; simpl fold_left.
  - split; [now left|]. intros [H|(f & [] & _)]. exact H.
  - rewrite IH, detail_prompts_step.
    destruct (passes open_read relpath directory f) eqn:Hp.
    + rewrite in_keys_dict_set. split.
      * intros [[->|H]|(f' & Hin & Hrel & Hpass)].
        -- right. exists f. repeat split; [now left|exact Hp].
        -- now left.
        -- right. exists f'. repeat split; [now right|exact Hrel|exact Hpass].
      * intros [H|(f' & [<-|Hin] & Hrel & Hpass)].
        -- left. now right.
        -- left. left. now rewrite Hrel.
        -- right. exists f'. now repeat split.
    + split.
      * intros [H|(f' & Hin & Hrel & Hpass)]; [now left|].
        right. exists f'. repeat split; [now right|exact Hrel|exact Hpass].
      * intros [H|(f' & [<-|Hin] & Hrel & Hpass)]; [now left|congruence|].
        right. exists f'. now repeat split.
Qed.

Lemma fold_prompts_wf (dp directory : string) (files : list string)
  (d : dict (list message)) :
  wf d ->
  wf (fold_left
        (fun d f_path =>
           let (file_detail_analysis, relative_path) :=
             read_file_content open_read relpath f_path directory false in
           if str_in CANT_READ_FILE_MES file_detail_analysis then d
           else dict_set d relative_path
                  [to_openai_system_message dp;
                   to_openai_user_message file_detail_analysis])
        files d).
Proof.
  revert d. induction files as [|f files IH]; intros d Hd; simpl fold_left.
  - exact Hd.
  - apply IH. rewrite detail_prompts_step.
    destruct (passes open_read relpath directory f); [now apply dict_set_wf|exact Hd].
Qed.

End ReadFacts.


(** ** The run as a whole *)

Section Run.

Variable client : string -> list message -> option Z -> option string.
Variable open_read : string -> option string.
Variable relpath : string -> string -> string.
Variable project_tree : string -> string * list string.
Variable local_path : string.
Variable reviewer_dir : string.

Local Abbreviation run := (main client open_read relpath project_tree local_path reviewer_dir).
Local Abbreviation detail_input :=
  (detail_analysis_prompt_dict open_read relpath project_tree local_path).
Local Abbreviation short_prompt := (short_analysis_prompt open_read relpath local_path).
Local Abbreviation project_prompt := (project_analysis_prompt open_read relpath local_path).

Lemma requests_project_tail (R : list string) (k : string -> io unit) :
  (forall text, requests (events (k text)) = []) ->
  requests (events (text <- project_phase client project_prompt R ;; k text))
  = [(project_system_messages project_prompt R, Some SEED)].
Proof.
  intros Hk. unfold project_phase, openai_request.
  destruct (client MODEL _ (Some SEED)) as [text|].
  - erewrite events_bind_ok by reflexivity. rewrite requests_app, Hk. reflexivity.
  - erewrite events_bind_raise by reflexivity. reflexivity.
Qed.

(** When the first two phases return, the requests of the run are theirs
    followed by the single project request. *)
Lemma main_requests (directory : string) (D : dict string) (R : list string) :
  outcome (detail_phase client reviewer_dir (detail_input directory)
             NUMBER_OF_CONCURRENT_REQUESTS) = Ok D ->
  outcome (short_phase client reviewer_dir (short_prompts short_prompt D)
             NUMBER_OF_CONCURRENT_REQUESTS) = Ok R ->
  requests (events (run directory))
  = requests (events (detail_phase client reviewer_dir (detail_input directory)
                        NUMBER_OF_CONCURRENT_REQUESTS))
    ++ requests (events (short_phase client reviewer_dir (short_prompts short_prompt D)
                           NUMBER_OF_CONCURRENT_REQUESTS))
    ++ [(project_system_messages project_prompt R, Some SEED)].
Proof.
  intros HD HR. unfold main. cbv zeta.
  rewrite (events_bind_ok (write_to_md _ _ _) _ tt eq_refl), requests_app.
  change (requests (events (write_to_md _ _ _))) with (@nil (list message * option Z)).
  rewrite app_nil_l.
  rewrite (events_bind_ok _ _ D HD), requests_app. f_equal.
  rewrite (events_bind_ok _ _ R HR), requests_app. f_equal.
  apply requests_project_tail. reflexivity.
Qed.

Lemma seeded_write (name data directory : string) (ev : event) :
  In ev (events (write_to_md name data directory)) -> seeded ev.
Proof. simpl. intros [<-|[]]. exact I. Qed.

Lemma seeded_detail_phase (M : dict (list message)) (c : Z) (ev : event) :
  In ev (events (detail_phase client reviewer_dir M c)) -> seeded ev.
Proof.
  unfold detail_phase. intros Hin. apply in_events_bind in Hin.
  destruct Hin as [[]|(bs & _ & Hin)].
  apply (stage_loop_seeded client _ _ _ _ (detail_record_spec reviewer_dir)) in Hin;
    [exact Hin|].
  intros kr ev' [<-|[]]. exact I.
Qed.

Lemma seeded_short_phase (M : dict (list message)) (c : Z) (ev : event) :
  In ev (events (short_phase client reviewer_dir M c)) -> seeded ev.
Proof.
  unfold short_phase. intros Hin. apply in_events_bind in Hin.
  destruct Hin as [[]|(bs & _ & Hin)].
  apply (stage_loop_seeded client _ _ _ _ (short_record_spec reviewer_dir)) in Hin;
    [exact Hin|].
  intros kr ev'. unfold short_writes.
  destruct (str_in NO_CHANGES _); intros Hev; [destruct Hev|].
  destruct Hev as [<-|[]]. exact I.
Qed.

Lemma seeded_main (directory : string) (ev : event) :
  In ev (events (run directory)) -> seeded ev.
Proof.
  unfold main. intros Hin.
  apply in_events_bind in Hin. destruct Hin as [Hin|(_ & _ & Hin)].
  { now apply seeded_write in Hin. }
  apply in_events_bind in Hin. destruct Hin as [Hin|(D & _ & Hin)].
  { now apply seeded_detail_phase in Hin. }
  apply in_events_bind in Hin. destruct Hin as [Hin|(R & _ & Hin)].
  { now apply seeded_short_phase in Hin. }
  apply in_events_bind in Hin. destruct Hin as [Hin|(text & _ & Hin)].
  - unfold project_phase, openai_request in Hin. simpl in Hin.
    destruct Hin as [<-|[]]. now split.
  - now apply seeded_write in Hin.
Qed.

End Run.

(** ** Sample facts *)

Lemma two_prompts_wf : wf Sample.two_prompts.
Proof.
  unfold wf. simpl. repeat constructor; simpl; intuition discriminate.
Qed.

Lemma three_prompts_wf : wf Sample.three_prompts.
Proof.
  unfold wf. simpl. repeat constructor; simpl; intuition discriminate.
Qed.

Example batches_of_three :
  dict_to_batches Sample.three_prompts 2
  = Ok [Sample.two_prompts;
        [("c.py", [to_openai_system_message "Review";
                   to_openai_user_message "c.py: print(3)"])]].
Proof. reflexivity. Qed.

Example zero_batch_size_raises :
  dict_to_batches Sample.three_prompts 0 = Raise ValueError.
Proof. reflexivity. Qed.

Example negative_batch_size_yields_nothing :
  dict_to_batches Sample.three_prompts (-3) = Ok [].
Proof. reflexivity. Qed.

Example steady_detail_phase :
  outcome (detail_phase Sample.steady_client "out" Sample.two_prompts 20)
  = Ok [("a.py", format_title "a.py" "Rename the variable");
        ("b.py", format_title "b.py" "Rename the variable")].
Proof. reflexivity. Qed.

Example flaky_detail_phase :
  detail_phase Sample.flaky_client "out" Sample.three_prompts 2
  = ([Request MODEL [to_openai_system_message "Review";
                     to_openai_user_message "a.py: print(1)"] (Some SEED);
      Request MODEL [to_openai_system_message "Review";
                     to_openai_user_message "b.py: print(2)"] (Some SEED)],
     Raise ServiceError).
Proof. reflexivity. Qed.

Example sample_run_requests :
  length (requests (events (main Sample.steady_client Sample.disk Sample.strip_base
                              Sample.listing "rev" "out" "proj"))) = 3.
Proof. reflexivity. Qed.

(** * Properties of the pipeline *)

(** C3 (as the specification states it, refuted).  The batch size
    [2 ** 63] is at least 1, yet the three prompts are not partitioned:
    the first [islice] refuses a stop above [sys.maxsize], so the batching
    raises [ValueError] and yields no batch at all. *)
Lemma oversized_batch_size_raises :
  wf Sample.three_prompts
  /\ (1 <= 9223372036854775808)%Z
  /\ dict_to_batches Sample.three_prompts 9223372036854775808 = Raise ValueError
  /\ ~ (exists batches,
          dict_to_batches Sample.three_prompts 9223372036854775808 = Ok batches
          /\ concat batches = items Sample.three_prompts).
Proof.
  split; [|split; [lia|split; [reflexivity|]]].
  - unfold wf. simpl. repeat constructor; simpl; intuition discriminate.
  - intros (batches & Hb & _). discriminate Hb.
Qed.

(** C3 (amended).  For a dictionary [M] and a batch size [c] with
    [1 <= c <= sys.maxsize], [dict_to_batches] yields exactly
    [ceil(len(M) / c)] batches; they are consecutive slices of [M] in
    iteration order (their concatenation is [M.items()]); every batch has
    between one and [c] entries and every batch but the last has exactly
    [c].  For every [c >= 1] the empty dictionary yields no batch, and a
    phase run on it emits no event at all, so no request.  A batch size
    above [sys.maxsize] yields batches for the empty dictionary only: for
    any other [islice] raises [ValueError]. *)
Theorem dict_to_batches_partition {V} (M : dict V) (c : Z) :
  wf M -> (1 <= c)%Z ->
  ((c <= maxsize)%Z ->
   exists batches,
     dict_to_batches M c = Ok batches
     /\ Z.of_nat (length batches) = ((len M + c - 1) / c)%Z
     /\ concat batches = items M
     /\ Forall (fun b : dict V => (1 <= len b <= c)%Z) batches
     /\ (forall i b, nth_error batches i = Some b ->
                     S i < length batches -> len b = c))
  /\ (M = [] -> dict_to_batches M c = Ok [])
  /\ (forall client reviewer_dir,
        events (detail_phase client reviewer_dir [] c) = []
        /\ events (short_phase client reviewer_dir [] c) = [])
  /\ ((maxsize < c)%Z -> M <> [] -> dict_to_batches M c = Raise ValueError).
Proof.
  intros Hwf Hc.
  assert (Hempty : forall W, @dict_to_batches W [] c = Ok []).
  { intros W. unfold dict_to_batches, range_len. simpl.
    destruct (Z.eqb_spec c 0); [lia|]. destruct (Z.ltb_spec 0 c); [|lia]. reflexivity. }
  split; [|split; [|split]].
  - intros Hmax. exact (dict_to_batches_spec M c Hwf (conj Hc Hmax)).
  - intros ->. apply Hempty.
  - intros client reviewer_dir. unfold detail_phase, short_phase.
    rewrite Hempty. split; reflexivity.
  - intros Hbig Hne. rewrite (dict_to_batches_too_large M c Hbig).
    destruct M; [congruence|reflexivity].
Qed.

Lemma dict_to_batches_partition_witness :
  (exists batches,
     dict_to_batches Sample.three_prompts 2 = Ok batches
     /\ Z.of_nat (length batches) = ((len Sample.three_prompts + 2 - 1) / 2)%Z
     /\ concat batches = items Sample.three_prompts
     /\ Forall (fun b : dict (list message) => (1 <= len b <= 2)%Z) batches
     /\ (forall i b, nth_error batches i = Some b ->
                     S i < length batches -> len b = 2%Z))
  /\ dict_to_batches Sample.three_prompts 9223372036854775808 = Raise ValueError.
Proof.
  split.
  - apply (proj1 (dict_to_batches_partition Sample.three_prompts 2
                    three_prompts_wf ltac:(lia))).
    unfold maxsize. lia.
  - apply (proj2 (proj2 (proj2 (dict_to_batches_partition Sample.three_prompts
                                  9223372036854775808 three_prompts_wf ltac:(lia))))).
    + unfold maxsize. lia.
    + discriminate.
Defined.




(** C2 (as the specification states it, refuted).  With a completion
    service that fails for [b.py], the batch of [a.py] and [b.py] does
    not hand any result to its caller: the sibling [a.py] is lost with it. *)
Lemma failure_not_isolated :
  ~ isolates_failure Sample.flaky_client Sample.two_prompts "b.py".
Proof.
  intros (results & Hres & _). vm_compute in Hres. discriminate.
Qed.

(** C7.  The input dictionary of the short phase has exactly the
    identifiers of the detail result dictionary, in the same order: each
    detail result yields one entry under its own identifier, whose prompt
    is the condense instruction followed by that detail result, both as
    system messages; nothing is added, dropped or filtered. *)
Theorem short_prompts_one_to_one (short_analysis_prompt : string) (D : dict string) :
  wf D ->
  short_prompts short_analysis_prompt D
  = map (fun kv => (fst kv, [to_openai_system_message short_analysis_prompt;
                             to_openai_system_message (snd kv)]))
        (items D)
  /\ keys (short_prompts short_analysis_prompt D) = keys D
  /\ wf (short_prompts short_analysis_prompt D).
Proof.
  intros Hwf.
  assert (Heq : short_prompts short_analysis_prompt D
                = map (fun kv => (fst kv, [to_openai_system_message short_analysis_prompt;
                                           to_openai_system_message (snd kv)])) D).
  { unfold short_prompts, items.
    transitivity
      (fold_left (fun d kv => dict_set d (fst kv) (snd kv))
         (map (fun kv => (fst kv, [to_openai_system_message short_analysis_prompt;
                                   to_openai_system_message (snd kv)])) D) []).
    - clear Hwf. generalize (@nil (string * list message)).
      induction D as [|kv D IH]; intros acc; simpl; [reflexivity|]. apply IH.
    - apply (fold_dict_set_fresh _ []). simpl. rewrite map_map. exact Hwf. }
  assert (Hkeys : keys (short_prompts short_analysis_prompt D) = keys D).
  { rewrite Heq. unfold keys. now rewrite map_map. }
  repeat split; [exact Heq|exact Hkeys|]. unfold wf. now rewrite Hkeys.
Qed.

Lemma short_prompts_one_to_one_witness :
  short_prompts "Summarise" [("a.py", "## a.py"); ("b.py", "## b.py")]
  = map (fun kv => (fst kv, [to_openai_system_message "Summarise";
                             to_openai_system_message (snd kv)]))
        (items [("a.py", "## a.py"); ("b.py", "## b.py")])
  /\ keys (short_prompts "Summarise" [("a.py", "## a.py"); ("b.py", "## b.py")])
     = keys [("a.py", "## a.py"); ("b.py", "## b.py")]
  /\ wf (short_prompts "Summarise" [("a.py", "## a.py"); ("b.py", "## b.py")]).
Proof.
  apply (short_prompts_one_to_one "Summarise" [("a.py", "## a.py"); ("b.py", "## b.py")]).
  unfold wf. simpl. repeat constructor; simpl; intuition discriminate.
Defined.

(** C8.  The project phase sends exactly one completion request: its
    message list is the retained short analyses, in order, each as a
    system message, followed by the project instruction, and it is sent
    with the seed of the module; its value is the single text of the
    reply.  In a run whose detail and short phases return, the requests of
    [main] are those of the two phases followed by that one request. *)
Theorem project_phase_single_request
  (client : string -> list message -> option Z -> option string)
  (open_read : string -> option string) (relpath : string -> string -> string)
  (project_tree : string -> string * list string)
  (local_path reviewer_dir : string) :
  (forall pp R,
     events (project_phase client pp R)
     = [Request MODEL
          (map to_openai_system_message R ++ [to_openai_system_message pp])
          (Some SEED)]
     /\ outcome (project_phase client pp R)
        = match client MODEL
                  (map to_openai_system_message R ++ [to_openai_system_message pp])
                  (Some SEED) with
          | Some text => Ok text
          | None => Raise ServiceError
          end)
  /\ (forall directory D R,
        outcome (detail_phase client reviewer_dir
                   (detail_analysis_prompt_dict open_read relpath project_tree
                      local_path directory)
                   NUMBER_OF_CONCURRENT_REQUESTS) = Ok D ->
        outcome (short_phase client reviewer_dir
                   (short_prompts (short_analysis_prompt open_read relpath local_path) D)
                   NUMBER_OF_CONCURRENT_REQUESTS) = Ok R ->
        requests (events (main client open_read relpath project_tree local_path
                            reviewer_dir directory))
        = requests (events (detail_phase client reviewer_dir
                              (detail_analysis_prompt_dict open_read relpath project_tree
                                 local_path directory)
                              NUMBER_OF_CONCURRENT_REQUESTS))
          ++ requests (events (short_phase client reviewer_dir
                                 (short_prompts
                                    (short_analysis_prompt open_read relpath local_path) D)
                                 NUMBER_OF_CONCURRENT_REQUESTS))
          ++ [(map to_openai_system_message R
                 ++ [to_openai_system_message
                       (project_analysis_prompt open_read relpath local_path)],
               Some SEED)]).
Proof.
  split.
  - intros pp R. split; reflexivity.
  - intros directory D R HD HR.
    exact (main_requests client open_read relpath project_tree local_path reviewer_dir
             directory D R HD HR).
Qed.

Lemma project_phase_single_request_witness :
  exists D R,
    outcome (detail_phase Sample.steady_client "out"
               (detail_analysis_prompt_dict Sample.disk Sample.strip_base
                  Sample.one_listing "rev" "proj")
               NUMBER_OF_CONCURRENT_REQUESTS) = Ok D
    /\ outcome (short_phase Sample.steady_client "out"
                  (short_prompts
                     (short_analysis_prompt Sample.disk Sample.strip_base "rev") D)
                  NUMBER_OF_CONCURRENT_REQUESTS) = Ok R
    /\ R <> []
    /\ requests (events (main Sample.steady_client Sample.disk Sample.strip_base
                           Sample.one_listing "rev" "out" "proj"))
       = requests (events (detail_phase Sample.steady_client "out"
                             (detail_analysis_prompt_dict Sample.disk Sample.strip_base
                                Sample.one_listing "rev" "proj")
                             NUMBER_OF_CONCURRENT_REQUESTS))
         ++ requests (events (short_phase Sample.steady_client "out"
                                (short_prompts
                                   (short_analysis_prompt Sample.disk Sample.strip_base
                                      "rev") D)
                                NUMBER_OF_CONCURRENT_REQUESTS))
         ++ [(map to_openai_system_message R
                ++ [to_openai_system_message
                      (project_analysis_prompt Sample.disk Sample.strip_base "rev")],
              Some SEED)].
Proof.
  eexists. eexists.
  split; [vm_compute; reflexivity|].
  split; [vm_compute; reflexivity|].
  split; [discriminate|].
  apply (proj2 (project_phase_single_request Sample.steady_client Sample.disk
                  Sample.strip_base Sample.one_listing "rev" "out")).
  - vm_compute. reflexivity.
  - vm_compute. reflexivity.
Defined.

(** C10.  With nothing retained from the short phase the project phase is
    not skipped: it sends its one request, whose message list is the
    project instruction alone.  This is what a run of [main] does when
    every short result was filtered out, and when no file was enumerated
    at all (the run then sends no other request). *)
Theorem project_phase_on_empty
  (client : string -> list message -> option Z -> option string)
  (open_read : string -> option string) (relpath : string -> string -> string)
  (project_tree : string -> string * list string)
  (local_path reviewer_dir : string) :
  (forall pp,
     project_system_messages pp [] = [to_openai_system_message pp]
     /\ events (project_phase client pp [])
        = [Request MODEL [to_openai_system_message pp] (Some SEED)])
  /\ (forall directory D,
        outcome (detail_phase client reviewer_dir
                   (detail_analysis_prompt_dict open_read relpath project_tree
                      local_path directory)
                   NUMBER_OF_CONCURRENT_REQUESTS) = Ok D ->
        outcome (short_phase client reviewer_dir
                   (short_prompts (short_analysis_prompt open_read relpath local_path) D)
                   NUMBER_OF_CONCURRENT_REQUESTS) = Ok [] ->
        requests (events (main client open_read relpath project_tree local_path
                            reviewer_dir directory))
        = requests (events (detail_phase client reviewer_dir
                              (detail_analysis_prompt_dict open_read relpath project_tree
                                 local_path directory)
                              NUMBER_OF_CONCURRENT_REQUESTS))
          ++ requests (events (short_phase client reviewer_dir
                                 (short_prompts
                                    (short_analysis_prompt open_read relpath local_path) D)
                                 NUMBER_OF_CONCURRENT_REQUESTS))
          ++ [([to_openai_system_message
                  (project_analysis_prompt open_read relpath local_path)],
               Some SEED)])
  /\ (forall directory,
        snd (project_tree directory) = [] ->
        requests (events (main client open_read relpath project_tree local_path
                            reviewer_dir directory))
        = [([to_openai_system_message
               (project_analysis_prompt open_read relpath local_path)],
            Some SEED)]).
Proof.
  split; [|split].
  - intros pp. split; reflexivity.
  - intros directory D HD HR.
    exact (main_requests client open_read relpath project_tree local_path reviewer_dir
             directory D [] HD HR).
  - intros directory Hfiles.
    assert (Hin : detail_analysis_prompt_dict open_read relpath project_tree local_path
                    directory = []).
    { unfold detail_analysis_prompt_dict. now rewrite Hfiles. }
    rewrite (main_requests client open_read relpath project_tree local_path reviewer_dir
               directory [] []).
    + rewrite Hin. reflexivity.
    + rewrite Hin. reflexivity.
    + reflexivity.
Qed.

Lemma project_phase_on_empty_witness :
  (exists D,
     requests (events (main Sample.content_client Sample.disk Sample.strip_base
                            Sample.one_listing "rev" "out" "proj"))
        = requests (events (detail_phase Sample.content_client "out"
                              (detail_analysis_prompt_dict Sample.disk Sample.strip_base
                                 Sample.one_listing "rev" "proj")
                              NUMBER_OF_CONCURRENT_REQUESTS))
          ++ requests (events (short_phase Sample.content_client "out"
                                 (short_prompts
                                    (short_analysis_prompt Sample.disk Sample.strip_base
                                       "rev") D)
                                 NUMBER_OF_CONCURRENT_REQUESTS))
          ++ [([to_openai_system_message
                  (project_analysis_prompt Sample.disk Sample.strip_base "rev")],
               Some SEED)]
     /\ D <> [])
  /\ requests (events (main Sample.steady_client Sample.disk Sample.strip_base
                         Sample.empty_listing "rev" "out" "proj"))
     = [([to_openai_system_message
            (project_analysis_prompt Sample.disk Sample.strip_base "rev")],
         Some SEED)].
Proof.
  split.
  - eexists. split.
    + apply (proj1 (proj2 (project_phase_on_empty Sample.content_client Sample.disk
                             Sample.strip_base Sample.one_listing "rev" "out"))).
      * vm_compute. reflexivity.
      * vm_compute. reflexivity.
    + discriminate.
  - apply (proj2 (proj2 (project_phase_on_empty Sample.steady_client Sample.disk
                           Sample.strip_base Sample.empty_listing "rev" "out"))).
    reflexivity.
Defined.

(** C6 (as the specification states it, refuted).  [proj/notes.py] is read
    without error, yet it is absent from the detail prompts: its content
    quotes the marker. *)
Lemma readable_file_left_out :
  Sample.disk "proj/notes.py" <> None
  /\ ~ In (Sample.strip_base "proj/notes.py" "proj")
          (keys (detail_prompts Sample.disk Sample.strip_base "Review this file" "proj"
                   (snd (Sample.listing "proj")))).
Proof.
  split; [discriminate|]. vm_compute. intros [H|[]]. discriminate.
Qed.

(** C6 (amended).  An identifier is in the detail prompts exactly when it
    is the relative path of an enumerated file that passes the marker
    test, and a file passes that test exactly when it was read and neither
    its relative path nor its content contains "Can not read file".  So a
    file whose read fails never enters the dictionary; for such a file the
    read helper returns the title followed by the marker instead of
    raising; and a file that was read enters the dictionary whenever the
    marker occurs neither in its path nor in its content. *)
Theorem detail_prompts_membership
  (open_read : string -> option string) (relpath : string -> string -> string)
  (detail_analysis_prompt directory : string) (project_files : list string) :
  (forall k,
     In k (keys (detail_prompts open_read relpath detail_analysis_prompt directory
                   project_files))
     <-> exists f, In f project_files /\ relpath f directory = k
                   /\ passes open_read relpath directory f = true)
  /\ (forall f,
        passes open_read relpath directory f
        = match open_read f with
          | Some text =>
              negb (str_in CANT_READ_FILE_MES (relpath f directory)
                    || str_in CANT_READ_FILE_MES text)
          | None => false
          end)
  /\ (forall f,
        open_read f = None ->
        read_file_content open_read relpath f directory false
        = (String.append
             (String.append (file_title (relpath f directory)) CANT_READ_FILE_MES) nl,
           relpath f directory))
  /\ wf (detail_prompts open_read relpath detail_analysis_prompt directory project_files).
Proof.
  split; [|split; [|split]].
  - intros k. split.
    + intros Hin. apply in_keys_fold_prompts in Hin. destruct Hin as [[]|Hin]. exact Hin.
    + intros Hex. apply in_keys_fold_prompts. now right.
  - intros f. apply passes_spec.
  - intros f Hf. unfold read_file_content. now rewrite Hf.
  - apply fold_prompts_wf. constructor.
Qed.

Lemma detail_prompts_membership_witness :
  read_file_content Sample.disk Sample.strip_base "proj/logo.bin" "proj" false
  = (String.append
       (String.append (file_title (Sample.strip_base "proj/logo.bin" "proj"))
          CANT_READ_FILE_MES) nl,
     Sample.strip_base "proj/logo.bin" "proj").
Proof.
  apply (proj1 (proj2 (proj2 (detail_prompts_membership Sample.disk Sample.strip_base
                                "Review this file" "proj" (snd (Sample.listing "proj")))))).
  reflexivity.
Defined.

(** C5 (as the specification states it, refuted).  The short result of the
    file [No changes required.py] is left out although its text does not
    contain the sentinel. *)
Lemma sentinel_in_identifier_excludes :
  str_in NO_CHANGES "Rename the variable" = false
  /\ excluded "out" ("No changes required.py", "Rename the variable") = true.
Proof. split; vm_compute; reflexivity. Qed.

(** C5 (amended).  A short result is left out exactly when its titled text
    (the heading mark, the identifier, a blank line, the text of the
    reply) contains "No changes required", that is when the identifier or
    the text of the reply contains it; every other short result is kept,
    in order, as its titled text, and the kept titled texts are the
    contents of the messages that precede the project instruction,
    unmodified. *)
Theorem short_filter_law
  (client : string -> list message -> option Z -> option string)
  (reviewer_dir : string) :
  (forall key text,
     str_in NO_CHANGES (format_title key text)
     = str_in NO_CHANGES key || str_in NO_CHANGES text)
  /\ (forall acc key text,
        outcome (short_record reviewer_dir acc (key, text))
        = Ok (if str_in NO_CHANGES key || str_in NO_CHANGES text then acc
              else acc ++ [format_title key text]))
  /\ (forall key text,
        excluded reviewer_dir (key, text)
        = str_in NO_CHANGES key || str_in NO_CHANGES text)
  /\ (forall M c,
        wf M -> (1 <= c <= maxsize)%Z ->
        (forall k v, In (k, v) M -> client MODEL v (Some SEED) <> None) ->
        outcome (short_phase client reviewer_dir M c)
        = Ok (filter (fun s => negb (str_in NO_CHANGES s)) (map (titled client) M)))
  /\ (forall pp R,
        map msg_content (project_system_messages pp R) = R ++ [pp]).
Proof.
  split; [|split; [|split; [|split]]].
  - intros key text. apply no_changes_in_title.
  - intros acc key text. rewrite short_record_spec. unfold short_update.
    cbn [outcome fst snd]. now rewrite no_changes_in_title.
  - intros key text. unfold excluded. rewrite short_record_spec. unfold short_update.
    cbn [outcome fst snd app]. rewrite no_changes_in_title.
    now destruct (str_in NO_CHANGES key || str_in NO_CHANGES text).
  - intros M c Hwf Hc Hok. apply short_phase_ok; try assumption.
    now apply forallb_succeeds.
  - intros pp R. unfold project_system_messages. rewrite map_app, map_map. simpl.
    now rewrite map_id.
Qed.

Lemma short_filter_law_witness :
  outcome (short_phase Sample.steady_client "out" Sample.three_prompts 2)
  = Ok (filter (fun s => negb (str_in NO_CHANGES s))
          (map (titled Sample.steady_client) Sample.three_prompts)).
Proof.
  apply (proj1 (proj2 (proj2 (proj2 (short_filter_law Sample.steady_client "out"))))).
  - exact three_prompts_wf.
  - unfold maxsize. lia.
  - intros k v _. discriminate.
Defined.

(** ** The event loop *)

Section SchedFacts.

Import Sched.

Variable client : string -> list message -> option Z -> option string.
Variable Acc : Type.
Variable record : Acc -> string * string -> io Acc.

Local Abbreviation step := (Sched.step client Acc record).
Local Abbreviation exec := (Sched.exec client Acc record).
Local Abbreviation state := (Sched.state Acc).

Lemma keys_spawn (b : dict (list message)) : map t_key (spawn b) = keys b.
Proof. unfold spawn, items, keys. now rewrite map_map. Qed.

Lemma spawn_created (b : dict (list message)) (t : running_task) :
  In t (spawn b) -> t_status t = Created.
Proof.
  unfold spawn. intros Hin. apply in_map_iff in Hin. now destruct Hin as (kv & <- & _).
Qed.

Lemma results_of_returned (tasks : list running_task) (results : list (string * string)) :
  results_of tasks = Some results ->
  forall t, In t tasks -> exists text, t_status t = Returned text.
Proof.
  revert results. induction tasks as [|t0 tasks IH]; intros results Hres t Hin.
  - contradiction.
  - simpl in Hres. destruct (t_status t0) as [| |text|] eqn:Hst; try discriminate.
    destruct (results_of tasks) as [rs|] eqn:Hrs; [|discriminate].
    destruct Hin as [<-|Hin]; [now exists text|]. exact (IH rs eq_refl t Hin).
Qed.

Lemma settled_mono (batches : list (dict (list message))) (tr tr' : list sched_event)
  (i : nat) :
  settled batches tr i -> settled batches (tr ++ tr') i.
Proof. intros H K b k HK Hb Hk. apply in_or_app. left. exact (H K b k HK Hb Hk). Qed.

(** Entering the loop head with every earlier batch settled. *)
Lemma invariant_next (batches : list (dict (list message))) (tr : list sched_event)
  (i : nat) (acc : Acc) :
  settled batches tr i ->
  (forall j k, In (Issue j k) tr -> j < i) ->
  invariant Acc batches tr (next Acc i (skipn i batches) acc).
Proof.
  intros Hset Hiss. unfold next.
  destruct (skipn i batches) as [|b later] eqn:Hsk.
  - simpl. intros K b k _ Hb Hk. apply (Hset K b k); [|exact Hb|exact Hk].
    apply skipn_all_iff in Hsk.
    assert (K < length batches) by (apply nth_error_Some; congruence). lia.
  - assert (Hnth : nth_error batches i = Some b).
    { rewrite <- (Nat.add_0_r i), <- nth_error_skipn, Hsk. reflexivity. }
    assert (Hlater : later = skipn (S i) batches).
    { replace (skipn (S i) batches) with (skipn 1 (skipn i batches))
        by apply (skipn_skipn 1 i batches).
      now rewrite Hsk. }
    unfold invariant. split; [|split; [|split; [|split]]].
    + exists b. split; [exact Hnth|apply keys_spawn].
    + exact Hlater.
    + exact Hset.
    + intros t text Hin Hst. rewrite (spawn_created b t Hin) in Hst. discriminate.
    + intros j k Hin. apply Hiss in Hin. lia.
Qed.

Lemma in_middle_status (pre post : list running_task) (t t0 : running_task) (st : status) :
  In t0 (pre ++ set_status t st :: post) ->
  t0 = set_status t st \/ In t0 (pre ++ t :: post).
Proof.
  intros Hin. apply in_app_or in Hin. destruct Hin as [Hin|[<-|Hin]].
  - right. apply in_or_app. now left.
  - now left.
  - right. apply in_or_app. right. now right.
Qed.

Lemma keys_set_status (pre post : list running_task) (t : running_task) (st : status) :
  map t_key (pre ++ set_status t st :: post) = map t_key (pre ++ t :: post).
Proof. now rewrite !map_app. Qed.

Lemma invariant_step (batches : list (dict (list message))) (tr : list sched_event)
  (s s' : state) (l : option sched_event) :
  invariant Acc batches tr s -> step s l s' ->
  invariant Acc batches (tr ++ observe l) s'.
Proof.
  intros Hinv Hstep.
  destruct Hstep as [i pre t post later acc Hpre Hst
                    |i pre t post later acc text Hst Hcl
                    |i pre t post later acc Hst Hcl
                    |i tasks later acc Hraised Hstarted
                    |i tasks later acc results acc' Hres Hrec
                    |i tasks later acc results e Hres Hrec]; simpl in Hinv |- *.
  - destruct Hinv as ((b & Hb & Hkeys) & Hlater & Hset & Hret & Hiss).
    split; [|split; [|split; [|split]]].
    + exists b. split; [exact Hb|]. now rewrite keys_set_status.
    + exact Hlater.
    + now apply settled_mono.
    + intros t0 text Hin Hst0. apply in_or_app. left.
      apply in_middle_status in Hin. destruct Hin as [->|Hin]; [discriminate|].
      exact (Hret t0 text Hin Hst0).
    + intros j k Hin. apply in_app_or in Hin. destruct Hin as [Hin|[Heq|[]]].
      * exact (Hiss j k Hin).
      * inversion Heq; subst. lia.
  - destruct Hinv as ((b & Hb & Hkeys) & Hlater & Hset & Hret & Hiss).
    split; [|split; [|split; [|split]]].
    + exists b. split; [exact Hb|]. now rewrite keys_set_status.
    + exact Hlater.
    + now apply settled_mono.
    + intros t0 text0 Hin Hst0. apply in_or_app.
      apply in_middle_status in Hin. destruct Hin as [->|Hin].
      * right. now left.
      * left. exact (Hret t0 text0 Hin Hst0).
    + intros j k Hin. apply in_app_or in Hin. destruct Hin as [Hin|[Heq|[]]].
      * exact (Hiss j k Hin).
      * discriminate.
  - destruct Hinv as ((b & Hb & Hkeys) & Hlater & Hset & Hret & Hiss).
    split; [|split; [|split; [|split]]].
    + exists b. split; [exact Hb|]. now rewrite keys_set_status.
    + exact Hlater.
    + now apply settled_mono.
    + intros t0 text0 Hin Hst0. apply in_or_app. left.
      apply in_middle_status in Hin. destruct Hin as [->|Hin]; [discriminate|].
      exact (Hret t0 text0 Hin Hst0).
    + intros j k Hin. apply in_app_or in Hin. destruct Hin as [Hin|[Heq|[]]].
      * exact (Hiss j k Hin).
      * discriminate.
  - exact I.
  - destruct Hinv as ((b & Hb & Hkeys) & Hlater & Hset & Hret & Hiss).
    rewrite app_nil_r. subst later. apply invariant_next.
    + intros K b' k HK Hb' Hk.
      destruct (Nat.eq_dec K i) as [->|Hne].
      * rewrite Hb in Hb'. inversion Hb'; subst b'.
        rewrite <- Hkeys in Hk. apply in_map_iff in Hk. destruct Hk as (t & <- & Hin).
        destruct (results_of_returned tasks results Hres t Hin) as (text & Hst).
        exact (Hret t text Hin Hst).
      * apply (Hset K b' k); [lia|exact Hb'|exact Hk].
    + intros j k Hin. apply Hiss in Hin. lia.
  - exact I.
Qed.

Lemma invariant_init (batches : list (dict (list message))) (acc : Acc) :
  invariant Acc batches [] (init Acc batches acc).
Proof.
  unfold init. change batches with (skipn 0 batches) at 2. apply invariant_next.
  - intros K b k HK. lia.
  - intros j k [].
Qed.

Lemma exec_invariant (batches : list (dict (list message))) (acc : Acc)
  (tr : list sched_event) (s : state) :
  exec (init Acc batches acc) tr s -> invariant Acc batches tr s.
Proof.
  intros Hexec. remember (init Acc batches acc) as s0 eqn:Hs0.
  induction Hexec as [s|s tr s' l s'' Hexec IH Hstep].
  - subst s. apply invariant_init.
  - apply (invariant_step batches tr s' s'' l (IH Hs0) Hstep).
Qed.

Lemma snoc_split {A} (tr pre post : list A) (e x : A) :
  tr ++ [e] = pre ++ x :: post ->
  (post = [] /\ pre = tr /\ e = x)
  \/ exists post', post = post' ++ [e] /\ tr = pre ++ x :: post'.
Proof.
  intros Heq. destruct (exists_last (l := x :: post)) as (l' & a & Hl); [discriminate|].
  destruct post as [|y post].
  - left. apply app_inj_tail in Heq. now destruct Heq as [-> ->].
  - right. destruct (exists_last (l := y :: post)) as (post' & z & Hpost); [discriminate|].
    rewrite Hpost in Heq |- *.
    change (pre ++ x :: post' ++ [z]) with (pre ++ (x :: post') ++ [z]) in Heq.
    rewrite app_assoc in Heq. apply app_inj_tail in Heq. destruct Heq as [-> ->].
    now exists post'.
Qed.

Lemma exec_ordered (batches : list (dict (list message))) (acc : Acc)
  (tr : list sched_event) (s : state) :
  exec (init Acc batches acc) tr s -> ordered batches tr.
Proof.
  intros Hexec. remember (init Acc batches acc) as s0 eqn:Hs0.
  induction Hexec as [s|s tr s' l s'' Hexec IH Hstep].
  - intros pre K k' post b k Heq. destruct pre; discriminate.
  - specialize (IH Hs0). subst s.
    pose proof (exec_invariant batches acc tr s' Hexec) as Hinv.
    destruct l as [e|]; simpl; [|now rewrite app_nil_r].
    intros pre K k' post b k Heq Hb Hk.
    apply snoc_split in Heq. destruct Heq as [(-> & -> & ->)|(post' & -> & ->)].
    + inversion Hstep; subst; simpl in Hinv.
      destruct Hinv as (_ & _ & Hset & _). apply (Hset K b k); [lia|exact Hb|exact Hk].
    + exact (IH pre K k' post' b k eq_refl Hb Hk).
Qed.

(** The first task that was not started yet, if there is one. *)
Lemma first_created (tasks : list running_task) :
  (exists t, In t tasks /\ t_status t = Created) ->
  exists pre t post,
    tasks = pre ++ t :: post /\ forallb started pre = true /\ t_status t = Created.
Proof.
  induction tasks as [|t0 tasks IH]; intros (t & Hin & Hst).
  - contradiction.
  - destruct (t_status t0) eqn:Hst0.
    + exists [], t0, tasks. now repeat split.
    + destruct IH as (pre & t1 & post & -> & Hpre & Hst1).
      { destruct Hin as [<-|Hin]; [congruence|now exists t]. }
      exists (t0 :: pre), t1, post. repeat split; [|exact Hst1].
      simpl. unfold started at 1. now rewrite Hst0.
    + destruct IH as (pre & t1 & post & -> & Hpre & Hst1).
      { destruct Hin as [<-|Hin]; [congruence|now exists t]. }
      exists (t0 :: pre), t1, post. repeat split; [|exact Hst1].
      simpl. unfold started at 1. now rewrite Hst0.
    + destruct IH as (pre & t1 & post & -> & Hpre & Hst1).
      { destruct Hin as [<-|Hin]; [congruence|now exists t]. }
      exists (t0 :: pre), t1, post. repeat split; [|exact Hst1].
      simpl. unfold started at 1. now rewrite Hst0.
Qed.

(** *** Agreement with the event monad *)

Lemma for_each_app_outcome {A S} (body : S -> A -> io S) (xs ys : list A) (s s' : S) :
  outcome (for_each body xs s) = Ok s' ->
  outcome (for_each body (xs ++ ys) s) = outcome (for_each body ys s').
Proof.
  revert s. induction xs as [|x xs IH]; intros s Hxs.
  - simpl in Hxs. inversion Hxs; subst. reflexivity.
  - simpl app. rewrite for_each_cons in *.
    destruct (body s x) as [tr [s1|e]] eqn:Hb.
    + rewrite (outcome_bind_ok (tr, Ok s1) _ s1 eq_refl) in Hxs.
      rewrite (outcome_bind_ok (tr, Ok s1) _ s1 eq_refl). now apply IH.
    + rewrite (outcome_bind_raise (tr, Raise e) _ e eq_refl) in Hxs. discriminate.
Qed.

Lemma results_of_answers (tasks : list running_task) (results : list (string * string)) :
  results_of tasks = Some results ->
  (forall t text, In t tasks -> t_status t = Returned text ->
                  client MODEL (t_messages t) (Some SEED) = Some text) ->
  results = answers client (map (fun t => (t_key t, t_messages t)) tasks)
  /\ forallb (fun kv => succeeds client (snd kv))
       (map (fun t => (t_key t, t_messages t)) tasks) = true.
Proof.
  revert results. induction tasks as [|t tasks IH]; intros results Hres Hcl.
  - simpl in Hres. inversion Hres. now split.
  - simpl in Hres. destruct (t_status t) as [| |text|] eqn:Hst; try discriminate.
    destruct (results_of tasks) as [rs|] eqn:Hrs; [|discriminate].
    inversion Hres; subst results.
    destruct (IH rs eq_refl) as (-> & Hall).
    { intros t' text' Hin. apply Hcl. now right. }
    pose proof (Hcl t text (or_introl eq_refl) Hst) as Ht.
    simpl. unfold reply, succeeds. simpl. rewrite Ht. now split.
Qed.

Lemma body_outcome (b : dict (list message)) (acc : Acc) :
  forallb (fun kv => succeeds client (snd kv)) b = true ->
  outcome (results <- process_batch client b ;; for_each record results acc)
  = outcome (for_each record (answers client b) acc).
Proof.
  intros Hall. now rewrite (outcome_bind_ok _ _ _ (process_batch_ok client b Hall)).
Qed.

Lemma phase_loop_snoc (done : list (dict (list message))) (b : dict (list message))
  (later : list (dict (list message))) (acc0 acc : Acc) :
  outcome (phase_loop client Acc record done acc0) = Ok acc ->
  outcome (phase_loop client Acc record (done ++ b :: later) acc0)
  = outcome (s <- (results <- process_batch client b ;; for_each record results acc) ;;
             phase_loop client Acc record later s).
Proof.
  intros Hdone. unfold phase_loop in *. now rewrite (for_each_app_outcome _ done _ _ _ Hdone).
Qed.

Lemma agrees_next (batches done later : list (dict (list message))) (i : nat)
  (acc0 acc : Acc) :
  batches = done ++ later ->
  outcome (phase_loop client Acc record done acc0) = Ok acc ->
  agrees client Acc record batches acc0 (next Acc i later acc).
Proof.
  intros -> Hdone. destruct later as [|b later]; simpl.
  - now rewrite app_nil_r.
  - exists done, b. split; [reflexivity|]. split; [|split; [|split; [|exact Hdone]]].
    + unfold spawn, items. rewrite map_map. simpl. rewrite <- (map_id b) at 2.
      apply map_ext. now intros [k v].
    + intros t text Hin Hst. rewrite (spawn_created b t Hin) in Hst. discriminate.
    + intros t Hin Hst. rewrite (spawn_created b t Hin) in Hst. discriminate.
Qed.

Lemma agrees_step (batches : list (dict (list message))) (acc0 : Acc)
  (s s' : state) (l : option sched_event) :
  agrees client Acc record batches acc0 s -> step s l s' ->
  agrees client Acc record batches acc0 s'.
Proof.
  intros Hag Hstep.
  destruct Hstep as [i pre t post later acc Hpre Hst
                    |i pre t post later acc text Hst Hcl
                    |i pre t post later acc Hst Hcl
                    |i tasks later acc Hraised Hstarted
                    |i tasks later acc results acc' Hres Hrec
                    |i tasks later acc results e Hres Hrec];
    simpl in Hag; destruct Hag as (done & b & Hb & Hitems & Hret & Hrai & Hdone).
  - exists done, b. split; [exact Hb|]. split; [|split; [|split; [|exact Hdone]]].
    + rewrite <- Hitems. now rewrite !map_app.
    + intros t0 text Hin Hst0. apply in_middle_status in Hin.
      destruct Hin as [->|Hin]; [discriminate|]. exact (Hret t0 text Hin Hst0).
    + intros t0 Hin Hst0. apply in_middle_status in Hin.
      destruct Hin as [->|Hin]; [discriminate|]. exact (Hrai t0 Hin Hst0).
  - exists done, b. split; [exact Hb|]. split; [|split; [|split; [|exact Hdone]]].
    + rewrite <- Hitems. now rewrite !map_app.
    + intros t0 text0 Hin Hst0. apply in_middle_status in Hin.
      destruct Hin as [->|Hin]; [|exact (Hret t0 text0 Hin Hst0)].
      simpl in Hst0 |- *. inversion Hst0; subst text0. exact Hcl.
    + intros t0 Hin Hst0. apply in_middle_status in Hin.
      destruct Hin as [->|Hin]; [discriminate|]. exact (Hrai t0 Hin Hst0).
  - exists done, b. split; [exact Hb|]. split; [|split; [|split; [|exact Hdone]]].
    + rewrite <- Hitems. now rewrite !map_app.
    + intros t0 text0 Hin Hst0. apply in_middle_status in Hin.
      destruct Hin as [->|Hin]; [discriminate|]. exact (Hret t0 text0 Hin Hst0).
    + intros t0 Hin Hst0. apply in_middle_status in Hin.
      destruct Hin as [->|Hin]; [exact Hcl|]. exact (Hrai t0 Hin Hst0).
  - simpl. rewrite Hb, (phase_loop_snoc done b later acc0 acc Hdone).
    apply outcome_bind_raise, outcome_bind_raise, process_batch_raise.
    apply existsb_exists in Hraised. destruct Hraised as (t & Hin & Ht).
    apply (exists_failing client b (t_key t) (t_messages t)).
    + unfold items in Hitems. rewrite <- Hitems.
      now apply (in_map (fun t => (t_key t, t_messages t))).
    + apply (Hrai t Hin). unfold raised in Ht. now destruct (t_status t).
  - destruct (results_of_answers tasks results Hres Hret) as (-> & Hall).
    unfold items in Hitems. rewrite Hitems in *.
    apply (agrees_next batches (done ++ [b]) later).
    + rewrite Hb, <- app_assoc. reflexivity.
    + rewrite (phase_loop_snoc done b [] acc0 acc Hdone).
      rewrite <- (body_outcome b acc Hall) in Hrec.
      now rewrite (outcome_bind_ok _ _ acc' Hrec).
  - destruct (results_of_answers tasks results Hres Hret) as (-> & Hall).
    unfold items in Hitems. rewrite Hitems in *.
    simpl. rewrite Hb, (phase_loop_snoc done b later acc0 acc Hdone).
    rewrite <- (body_outcome b acc Hall) in Hrec.
    now rewrite (outcome_bind_raise _ _ e Hrec).
Qed.

(** Whatever the order in which the responses arrive, the event loop ends
    where the loop in the event monad does: with the same accumulator, or
    with the same exception. *)
Lemma exec_agrees (batches : list (dict (list message))) (acc0 : Acc)
  (tr : list sched_event) (s : state) :
  exec (init Acc batches acc0) tr s ->
  agrees client Acc record batches acc0 s.
Proof.
  intros Hexec. remember (init Acc batches acc0) as s0 eqn:Hs0.
  induction Hexec as [s|s tr s' l s'' Hexec IH Hstep].
  - subst s. apply (agrees_next batches [] batches); reflexivity.
  - exact (agrees_step batches acc0 s' s'' l (IH Hs0) Hstep).
Qed.

End SchedFacts.

(** The two phases are the loop of the event monad on the batches of
    their input. *)
Lemma detail_phase_unfold
  (client : string -> list message -> option Z -> option string)
  (reviewer_dir : string) (M : dict (list message)) (c : Z) :
  detail_phase client reviewer_dir M c
  = (batches <- lift (dict_to_batches M c) ;;
     Sched.phase_loop client (dict string) (detail_record reviewer_dir) batches []).
Proof. reflexivity. Qed.

Lemma short_phase_unfold
  (client : string -> list message -> option Z -> option string)
  (reviewer_dir : string) (M : dict (list message)) (c : Z) :
  short_phase client reviewer_dir M c
  = (batches <- lift (dict_to_batches M c) ;;
     Sched.phase_loop client (list string) (short_record reviewer_dir) batches []).
Proof. reflexivity. Qed.

(** Every execution of the event loop on the batches of [M] that runs to
    its end yields the outcome of [detail_phase]: the order in which the
    responses arrive does not show in the result dictionary. *)
Lemma event_loop_yields_detail_phase
  (client : string -> list message -> option Z -> option string)
  (reviewer_dir : string) (M : dict (list message)) (c : Z)
  (batches : list (dict (list message)))
  (tr : list Sched.sched_event) (s : Sched.state (dict string)) :
  dict_to_batches M c = Ok batches ->
  Sched.exec client (dict string) (detail_record reviewer_dir)
    (Sched.init (dict string) batches []) tr s ->
  match s with
  | Sched.Running _ _ _ _ => True
  | Sched.Finished R => outcome (detail_phase client reviewer_dir M c) = Ok R
  | Sched.Aborted e => outcome (detail_phase client reviewer_dir M c) = Raise e
  end.
Proof.
  intros Hb Hexec. rewrite detail_phase_unfold, Hb.
  pose proof (exec_agrees client (dict string) (detail_record reviewer_dir)
                batches [] tr s Hexec) as Hag.
  destruct s as [i tasks later acc|R|e]; [exact I| |];
    unfold lift; erewrite outcome_bind_ok by reflexivity; exact Hag.
Qed.

(** ** The event loop: progress and the order of the requests *)

Section SchedMore.

Import Sched.

Variable client : string -> list message -> option Z -> option string.
Variable Acc : Type.
Variable record : Acc -> string * string -> io Acc.

Local Abbreviation step := (Sched.step client Acc record).
Local Abbreviation exec := (Sched.exec client Acc record).
Local Abbreviation state := (Sched.state Acc).

Lemma not_started_created (tasks : list running_task) :
  forallb started tasks = false ->
  exists t, In t tasks /\ t_status t = Created.
Proof.
  induction tasks as [|t tasks IH]; simpl; [discriminate|].
  intros H. apply andb_false_iff in H. destruct H as [H|H].
  - exists t. split; [now left|]. unfold started in H. now destruct (t_status t).
  - destruct (IH H) as (t' & Hin & Hst). exists t'. split; [now right|exact Hst].
Qed.

Lemma all_returned (tasks : list running_task) :
  forallb started tasks = true ->
  existsb waiting tasks = false ->
  existsb raised tasks = false ->
  exists results, results_of tasks = Some results.
Proof.
  induction tasks as [|t tasks IH]; simpl; intros Hs Hw Hr.
  - now exists [].
  - apply andb_true_iff in Hs. apply orb_false_iff in Hw, Hr.
    destruct Hs as [Hs Hs'], Hw as [Hw Hw'], Hr as [Hr Hr'].
    destruct (IH Hs' Hw' Hr') as (rs & ->).
    unfold started, waiting, raised in *. destruct (t_status t); try discriminate.
    eexists. reflexivity.
Qed.

Lemma list_sum_weight_middle (pre post : list running_task) (t : running_task)
  (st : status) :
  weight (set_status t st) < weight t ->
  list_sum (map weight (pre ++ set_status t st :: post))
  < list_sum (map weight (pre ++ t :: post)).
Proof. intros H. rewrite !map_app, !list_sum_app. simpl. lia. Qed.

Lemma measure_next (i : nat) (later : list (dict (list message))) (acc : Acc) :
  measure (next Acc i later acc) = pending later.
Proof.
  destruct later as [|b later]; simpl; [reflexivity|].
  assert (H : list_sum (map weight (spawn b)) = 2 * length b).
  { unfold spawn, items. induction b as [|kv b IH]; simpl in *; [reflexivity|]. lia. }
  rewrite H. lia.
Qed.

(** X15.  The event loop neither gets stuck nor runs for ever: from every
    state in which a batch is at hand some step is possible (a task can
    be started, a response or a failure can arrive, or the awaiting
    coroutine can be resumed), every step brings the loop strictly closer
    to its end, and once the loop has finished or was aborted nothing
    more happens. *)
Theorem event_loop_progress :
  (forall i tasks later acc, exists l s', step (Running i tasks later acc) l s')
  /\ (forall s l s', step s l s' -> measure s' < measure s)
  /\ (forall s l s', step s l s' -> exists i tasks later acc, s = Running i tasks later acc).
Proof.
  split; [|split].
  - intros i tasks later acc.
    destruct (forallb started tasks) eqn:Hs.
    + destruct (existsb waiting tasks) eqn:Hw.
      * apply existsb_exists in Hw. destruct Hw as (t & Hin & Ht).
        apply in_split in Hin. destruct Hin as (pre & post & ->).
        assert (Hst : t_status t = Waiting)
          by (unfold waiting in Ht; now destruct (t_status t)).
        destruct (client MODEL (t_messages t) (Some SEED)) as [text|] eqn:Hcl.
        -- do 2 eexists. exact (step_response client Acc record i pre t post later acc
                                  text Hst Hcl).
        -- do 2 eexists. exact (step_failure client Acc record i pre t post later acc
                                  Hst Hcl).
      * destruct (existsb raised tasks) eqn:Hr.
        -- do 2 eexists. exact (step_abort client Acc record i tasks later acc Hr Hs).
        -- destruct (all_returned tasks Hs Hw Hr) as (results & Hres).
           destruct (outcome (for_each record results acc)) as [acc'|e] eqn:Hrec.
           ++ do 2 eexists. exact (step_join client Acc record i tasks later acc results
                                     acc' Hres Hrec).
           ++ do 2 eexists. exact (step_join_raise client Acc record i tasks later acc
                                     results e Hres Hrec).
    + destruct (first_created tasks (not_started_created tasks Hs))
        as (pre & t & post & -> & Hpre & Hst).
      do 2 eexists. exact (step_start client Acc record i pre t post later acc Hpre Hst).
  - intros s l s' Hstep.
    destruct Hstep as [i pre t post later acc Hpre Hst
                      |i pre t post later acc text Hst Hcl
                      |i pre t post later acc Hst Hcl
                      |i tasks later acc Hraised Hstarted
                      |i tasks later acc results acc' Hres Hrec
                      |i tasks later acc results e Hres Hrec].
    + simpl. assert (H : weight (set_status t Waiting) < weight t)
        by (unfold weight; simpl; rewrite Hst; lia).
      pose proof (list_sum_weight_middle pre post t _ H). lia.
    + simpl. assert (H : weight (set_status t (Returned text)) < weight t)
        by (unfold weight; simpl; rewrite Hst; lia).
      pose proof (list_sum_weight_middle pre post t _ H). lia.
    + simpl. assert (H : weight (set_status t Raised) < weight t)
        by (unfold weight; simpl; rewrite Hst; lia).
      pose proof (list_sum_weight_middle pre post t _ H). lia.
    + simpl. lia.
    + rewrite measure_next. simpl. lia.
    + simpl. lia.
  - intros s l s' Hstep. destruct Hstep; do 4 eexists; reflexivity.
Qed.

(** *** The requests of a trace follow the input *)

Lemma issued_app (tr tr' : list sched_event) :
  issued (tr ++ tr') = issued tr ++ issued tr'.
Proof.
  induction tr as [|[i k|i k ok] tr IH]; simpl; [reflexivity| |exact IH]. now rewrite IH.
Qed.

Lemma issue_plan_app (i : nat) (a b : list (dict (list message))) :
  issue_plan i (a ++ b) = issue_plan i a ++ issue_plan (i + length a) b.
Proof.
  revert i. induction a as [|x a IH]; intros i; simpl.
  - now rewrite Nat.add_0_r.
  - rewrite IH, <- app_assoc. do 3 f_equal. lia.
Qed.

Lemma unstarted_first (l : list running_task) :
  forallb (fun t => negb (started t)) l = true -> started_first l = true.
Proof.
  destruct l as [|t l]; simpl; [reflexivity|]. intros H.
  apply andb_true_iff in H. destruct H as [Ht Hl].
  apply negb_true_iff in Ht. now rewrite Ht.
Qed.

Lemma started_first_after (pre post : list running_task) (t : running_task) :
  started_first (pre ++ t :: post) = true ->
  started t = false ->
  forallb (fun t' => negb (started t')) post = true.
Proof.
  induction pre as [|h pre IH]; simpl; intros H Ht.
  - now rewrite Ht in H.
  - destruct (started h); [now apply IH|].
    rewrite forallb_app in H. apply andb_true_iff in H. destruct H as [_ H].
    simpl in H. apply andb_true_iff in H. tauto.
Qed.

Lemma started_first_start (pre post : list running_task) (t : running_task) :
  forallb started pre = true ->
  started t = true ->
  forallb (fun t' => negb (started t')) post = true ->
  started_first (pre ++ t :: post) = true
  /\ filter started (pre ++ t :: post) = pre ++ [t].
Proof.
  intros Hpre Ht Hpost. induction pre as [|h pre IH]; simpl in *.
  - rewrite Ht. split; [now apply unstarted_first|]. f_equal.
    clear -Hpost. induction post as [|p post IH]; simpl in *; [reflexivity|].
    apply andb_true_iff in Hpost. destruct Hpost as [Hp Hpost].
    apply negb_true_iff in Hp. rewrite Hp. now apply IH.
  - apply andb_true_iff in Hpre. destruct Hpre as [Hh Hpre]. rewrite Hh.
    destruct (IH Hpre) as [H1 H2]. split; [exact H1|now rewrite H2].
Qed.

Lemma filter_started_before (pre post : list running_task) (t : running_task) :
  forallb started pre = true ->
  started t = false ->
  forallb (fun t' => negb (started t')) post = true ->
  filter started (pre ++ t :: post) = pre.
Proof.
  intros Hpre Ht Hpost. induction pre as [|h pre IH]; simpl in *.
  - rewrite Ht. clear -Hpost. induction post as [|p post IH]; simpl in *; [reflexivity|].
    apply andb_true_iff in Hpost. destruct Hpost as [Hp Hpost].
    apply negb_true_iff in Hp. rewrite Hp. now apply IH.
  - apply andb_true_iff in Hpre. destruct Hpre as [Hh Hpre]. rewrite Hh.
    now rewrite (IH Hpre).
Qed.

(** A change of status of a task that was started changes neither the
    order of started and unstarted tasks nor the keys of the started ones. *)
Lemma started_status_change (pre post : list running_task) (t : running_task)
  (st : status) :
  started t = true -> started (set_status t st) = true ->
  started_first (pre ++ set_status t st :: post) = started_first (pre ++ t :: post)
  /\ map t_key (filter started (pre ++ set_status t st :: post))
     = map t_key (filter started (pre ++ t :: post)).
Proof.
  intros Ht Ht'. induction pre as [|h pre [IH1 IH2]]; simpl.
  - rewrite Ht, Ht'. now split.
  - destruct (started h); simpl.
    + split; [exact IH1|now rewrite IH2].
    + split; [|exact IH2]. rewrite !forallb_app. simpl. now rewrite Ht, Ht'.
Qed.

Lemma started_first_split (l : list running_task) :
  started_first l = true ->
  l = filter started l ++ filter (fun t => negb (started t)) l.
Proof.
  induction l as [|t l IH]; simpl; [reflexivity|].
  destruct (started t) eqn:Ht; simpl; intros H.
  - now rewrite <- IH.
  - assert (Hnone : filter started l = []).
    { clear -H. induction l as [|p l IH]; simpl in *; [reflexivity|].
      apply andb_true_iff in H. destruct H as [Hp H].
      apply negb_true_iff in Hp. rewrite Hp. now apply IH. }
    rewrite Hnone. simpl. f_equal. symmetry. now apply forallb_filter_id.
Qed.

Lemma returned_started (tasks : list running_task) (results : list (string * string)) :
  results_of tasks = Some results -> forallb started tasks = true.
Proof.
  intros Hres. apply forallb_forall. intros t Hin.
  destruct (results_of_returned tasks results Hres t Hin) as (text & Hst).
  unfold started. now rewrite Hst.
Qed.

Lemma on_plan_next (batches done later : list (dict (list message)))
  (tr : list sched_event) (acc : Acc) :
  batches = done ++ later ->
  issued tr = issue_plan 0 done ->
  on_plan batches tr (next Acc (length done) later acc).
Proof.
  intros -> Hiss. destruct later as [|b later]; simpl.
  - now rewrite app_nil_r.
  - exists done, b. split; [reflexivity|]. split; [reflexivity|].
    split; [apply keys_spawn|].
    assert (Hun : forallb (fun t => negb (started t)) (spawn b) = true).
    { apply forallb_forall. intros t Hin. unfold started.
      now rewrite (spawn_created b t Hin). }
    split; [now apply unstarted_first|].
    assert (Hnone : filter started (spawn b) = []).
    { clear -Hun. induction (spawn b) as [|p l IH]; simpl in *; [reflexivity|].
      apply andb_true_iff in Hun. destruct Hun as [Hp Hun].
      apply negb_true_iff in Hp. rewrite Hp. now apply IH. }
    rewrite Hnone. simpl. now rewrite app_nil_r.
Qed.

Lemma on_plan_all_started (batches done later : list (dict (list message)))
  (b : dict (list message)) (tasks : list running_task) (tr : list sched_event) :
  batches = done ++ b :: later ->
  map t_key tasks = keys b ->
  forallb started tasks = true ->
  issued tr
  = issue_plan 0 done ++ map (pair (length done)) (map t_key (filter started tasks)) ->
  issued tr = issue_plan 0 (done ++ [b])
  /\ issue_plan 0 batches = issued tr ++ issue_plan (S (length done)) later.
Proof.
  intros -> Hkeys Hall Hiss. rewrite (forallb_filter_id _ _ Hall), Hkeys in Hiss.
  rewrite !issue_plan_app. simpl. rewrite app_nil_r, Hiss. split; [reflexivity|].
  now rewrite <- app_assoc.
Qed.

Lemma on_plan_step (batches : list (dict (list message))) (tr : list sched_event)
  (s s' : state) (l : option sched_event) :
  on_plan batches tr s -> step s l s' -> on_plan batches (tr ++ observe l) s'.
Proof.
  intros Hinv Hstep.
  destruct Hstep as [i pre t post later acc Hpre Hst
                    |i pre t post later acc text Hst Hcl
                    |i pre t post later acc Hst Hcl
                    |i tasks later acc Hraised Hstarted
                    |i tasks later acc results acc' Hres Hrec
                    |i tasks later acc results e Hres Hrec];
    simpl in Hinv; destruct Hinv as (done & b & Hb & Hlen & Hkeys & Hfirst & Hiss).
  - assert (Ht : started t = false) by (unfold started; now rewrite Hst).
    pose proof (started_first_after pre post t Hfirst Ht) as Hpost.
    destruct (started_first_start pre post (set_status t Waiting) Hpre eq_refl Hpost)
      as [Hf' Hfilter].
    exists done, b. split; [exact Hb|]. split; [exact Hlen|].
    split; [now rewrite keys_set_status|]. split; [exact Hf'|].
    simpl observe. rewrite issued_app, Hiss, Hfilter.
    rewrite (filter_started_before pre post t Hpre Ht Hpost).
    simpl. now rewrite !map_app, <- app_assoc.
  - assert (Ht : started t = true) by (unfold started; now rewrite Hst).
    destruct (started_status_change pre post t (Returned text) Ht eq_refl) as [H1 H2].
    exists done, b. split; [exact Hb|]. split; [exact Hlen|].
    split; [now rewrite keys_set_status|]. split; [now rewrite H1|].
    simpl observe. rewrite issued_app, Hiss, H2. simpl. now rewrite app_nil_r.
  - assert (Ht : started t = true) by (unfold started; now rewrite Hst).
    destruct (started_status_change pre post t Raised Ht eq_refl) as [H1 H2].
    exists done, b. split; [exact Hb|]. split; [exact Hlen|].
    split; [now rewrite keys_set_status|]. split; [now rewrite H1|].
    simpl observe. rewrite issued_app, Hiss, H2. simpl. now rewrite app_nil_r.
  - simpl. rewrite app_nil_r. subst i.
    destruct (on_plan_all_started batches done later b tasks tr Hb Hkeys Hstarted Hiss)
      as [_ H]. now exists (issue_plan (S (length done)) later).
  - simpl observe. rewrite app_nil_r. subst i.
    destruct (on_plan_all_started batches done later b tasks tr Hb Hkeys
                (returned_started tasks results Hres) Hiss) as [H _].
    replace (S (length done)) with (length (done ++ [b]))
      by (rewrite length_app; simpl; lia).
    apply on_plan_next; [|exact H]. rewrite Hb, <- app_assoc. reflexivity.
  - simpl. rewrite app_nil_r. subst i.
    destruct (on_plan_all_started batches done later b tasks tr Hb Hkeys
                (returned_started tasks results Hres) Hiss) as [_ H].
    now exists (issue_plan (S (length done)) later).
Qed.

Lemma exec_on_plan (batches : list (dict (list message))) (acc0 : Acc)
  (tr : list sched_event) (s : state) :
  exec (init Acc batches acc0) tr s -> on_plan batches tr s.
Proof.
  intros Hexec. remember (init Acc batches acc0) as s0 eqn:Hs0.
  induction Hexec as [s|s tr s' l s'' Hexec IH Hstep].
  - subst s. apply (on_plan_next batches [] batches [] acc0); reflexivity.
  - exact (on_plan_step batches tr s' s'' l (IH Hs0) Hstep).
Qed.

(** X16.  In every execution of the event loop the requests are sent in
    the order of the input, batch after batch and within a batch in the
    order of its entries, and none is sent twice: the requests sent so far
    are always the first requests of that plan; when the loop has
    finished they are the whole plan. *)
Theorem requests_follow_the_input (batches : list (dict (list message))) (acc0 : Acc)
  (tr : list sched_event) (s : state) :
  exec (init Acc batches acc0) tr s ->
  (exists rest, issue_plan 0 batches = issued tr ++ rest)
  /\ (forall acc, s = Finished acc -> issued tr = issue_plan 0 batches).
Proof.
  intros Hexec. pose proof (exec_on_plan batches acc0 tr s Hexec) as Hplan.
  split.
  - destruct s as [i tasks later acc|acc|e]; simpl in Hplan.
    + destruct Hplan as (done & b & -> & Hlen & Hkeys & Hfirst & Hiss).
      pose proof (f_equal (map t_key) (started_first_split tasks Hfirst)) as Hsplit.
      rewrite Hkeys, map_app in Hsplit.
      exists (map (pair (length done))
                (map t_key (filter (fun t => negb (started t)) tasks))
              ++ issue_plan (S (length done)) later).
      rewrite issue_plan_app. simpl. rewrite Hiss, Hsplit.
      subst i. now rewrite !map_app, <- !app_assoc.
    + exists []. now rewrite app_nil_r.
    + exact Hplan.
  - intros acc ->. exact Hplan.
Qed.

End SchedMore.

Lemma event_loop_progress_witness :
  Sched.measure (Sched.Running 0 [Sample.task_a Sched.Waiting] [] Sample.after_a)
  < Sched.measure (Sched.Running 0 [Sample.task_a Sched.Created] [] Sample.after_a).
Proof.
  exact (proj1 (proj2 (event_loop_progress Sample.steady_client (dict string)
                         (detail_record "out")))
           _ _ _
           (Sched.step_start Sample.steady_client (dict string) (detail_record "out")
              0 [] (Sample.task_a Sched.Created) [] [] Sample.after_a
              eq_refl eq_refl)).
Defined.

Lemma requests_follow_the_input_witness :
  (exists rest,
     Sched.issue_plan 0 Sample.single_batches
     = Sched.issued [Sched.Issue 0 "a.py"; Sched.Resolve 0 "a.py" true;
                     Sched.Issue 1 "b.py"; Sched.Resolve 1 "b.py" true] ++ rest)
  /\ (forall acc,
        Sched.Finished
          [("a.py", format_title "a.py" "Rename the variable");
           ("b.py", format_title "b.py" "Rename the variable")]
        = Sched.Finished acc ->
        Sched.issued [Sched.Issue 0 "a.py"; Sched.Resolve 0 "a.py" true;
                      Sched.Issue 1 "b.py"; Sched.Resolve 1 "b.py" true]
        = Sched.issue_plan 0 Sample.single_batches).
Proof.
  apply (requests_follow_the_input Sample.steady_client (dict string)
           (detail_record "out") Sample.single_batches []).
  refine (Sched.exec_step _ _ _ _
            [Sched.Issue 0 "a.py"; Sched.Resolve 0 "a.py" true;
             Sched.Issue 1 "b.py"; Sched.Resolve 1 "b.py" true]
            (Sched.Running 1 [Sample.task_b (Sched.Returned "Rename the variable")] []
               Sample.after_a)
            None _ _ _).
  - refine (Sched.exec_step _ _ _ _
              [Sched.Issue 0 "a.py"; Sched.Resolve 0 "a.py" true; Sched.Issue 1 "b.py"]
              (Sched.Running 1 [Sample.task_b Sched.Waiting] [] Sample.after_a)
              (Some (Sched.Resolve 1 "b.py" true)) _ _ _).
    + refine (Sched.exec_step _ _ _ _
                [Sched.Issue 0 "a.py"; Sched.Resolve 0 "a.py" true]
                (Sched.Running 1 [Sample.task_b Sched.Created] [] Sample.after_a)
                (Some (Sched.Issue 1 "b.py")) _ _ _).
      * refine (Sched.exec_step _ _ _ _
                  [Sched.Issue 0 "a.py"; Sched.Resolve 0 "a.py" true]
                  (Sched.Running 0
                     [Sample.task_a (Sched.Returned "Rename the variable")]
                     [[("b.py", [to_openai_system_message "Review";
                                 to_openai_user_message "b.py: print(2)"])]] [])
                  None _ _ _).
        -- refine (Sched.exec_step _ _ _ _
                     [Sched.Issue 0 "a.py"]
                     (Sched.Running 0 [Sample.task_a Sched.Waiting]
                        [[("b.py", [to_openai_system_message "Review";
                                    to_openai_user_message "b.py: print(2)"])]] [])
                     (Some (Sched.Resolve 0 "a.py" true)) _ _ _).
           ++ refine (Sched.exec_step _ _ _ _ [] _ (Some (Sched.Issue 0 "a.py")) _
                        (Sched.exec_refl _ _ _ _) _).
              exact (Sched.step_start _ _ _ 0 [] (Sample.task_a Sched.Created) [] _ _
                       eq_refl eq_refl).
           ++ exact (Sched.step_response _ _ _ 0 [] (Sample.task_a Sched.Waiting) [] _ _
                       "Rename the variable" eq_refl eq_refl).
        -- exact (Sched.step_join Sample.steady_client _ (detail_record "out") 0
                    [Sample.task_a (Sched.Returned "Rename the variable")]
                    [[("b.py", [to_openai_system_message "Review";
                                to_openai_user_message "b.py: print(2)"])]]
                    [] [("a.py", "Rename the variable")] Sample.after_a eq_refl eq_refl).
      * exact (Sched.step_start _ _ _ 1 [] (Sample.task_b Sched.Created) [] _ _
                 eq_refl eq_refl).
    + exact (Sched.step_response _ _ _ 1 [] (Sample.task_b Sched.Waiting) [] _ _
               "Rename the variable" eq_refl eq_refl).
  - exact (Sched.step_join Sample.steady_client _ (detail_record "out") 1
             [Sample.task_b (Sched.Returned "Rename the variable")] []
             Sample.after_a [("b.py", "Rename the variable")]
             [("a.py", format_title "a.py" "Rename the variable");
              ("b.py", format_title "b.py" "Rename the variable")]
             eq_refl eq_refl).
Defined.

(** *** Concurrency within a batch, and what a failure does *)

Section SchedOrder.

Import Sched.

Variable client : string -> list message -> option Z -> option string.
Variable Acc : Type.
Variable record : Acc -> string * string -> io Acc.

Local Abbreviation step := (Sched.step client Acc record).
Local Abbreviation exec := (Sched.exec client Acc record).
Local Abbreviation state := (Sched.state Acc).

Lemma exec_trans (s s' s'' : state) (tr tr' : list sched_event) :
  exec s tr s' -> exec s' tr' s'' -> exec s (tr ++ tr') s''.
Proof.
  intros H1 H2. induction H2 as [s'|s' tr1 s1 l s2 H2 IH Hstep].
  - now rewrite app_nil_r.
  - rewrite app_assoc. exact (exec_step client Acc record s _ s1 l s2 (IH H1) Hstep).
Qed.

Lemma exec_one (s s' : state) (l : option sched_event) :
  step s l s' -> exec s (observe l) s'.
Proof.
  intros Hstep.
  exact (exec_step client Acc record s [] s l s' (exec_refl client Acc record s) Hstep).
Qed.

(** The tasks not yet started can all be started, one after the other,
    while the started ones stay as they are. *)
Lemma issue_rest (i : nat) (later : list (dict (list message))) (acc : Acc)
  (post pre : list running_task) :
  forallb started pre = true ->
  forallb (fun t => negb (started t)) post = true ->
  exec (Running i (pre ++ post) later acc)
       (map (fun t => Issue i (t_key t)) post)
       (Running i (pre ++ map (fun t => set_status t Waiting) post) later acc).
Proof.
  revert pre. induction post as [|t post IH]; intros pre Hpre Hpost.
  - apply exec_refl.
  - simpl in Hpost. apply andb_true_iff in Hpost. destruct Hpost as [Ht Hpost].
    assert (Hst : t_status t = Created).
    { unfold started in Ht. now destruct (t_status t). }
    pose proof (exec_one _ _ _
                  (step_start client Acc record i pre t post later acc Hpre Hst)) as H1.
    assert (Hpre' : forallb started (pre ++ [set_status t Waiting]) = true).
    { rewrite forallb_app, Hpre. reflexivity. }
    pose proof (IH (pre ++ [set_status t Waiting]) Hpre' Hpost) as H2.
    rewrite <- !app_assoc in H2. simpl in H2.
    exact (exec_trans _ _ _ _ _ H1 H2).
Qed.

Lemma start_all_unstarted (tasks : list running_task) :
  forallb (fun t => negb (started t)) tasks = true ->
  start_all tasks = map (fun t => set_status t Waiting) tasks
  /\ filter started tasks = []
  /\ filter (fun t => negb (started t)) tasks = tasks.
Proof.
  unfold start_all.
  induction tasks as [|t tasks IH]; simpl; intros H; [now repeat split|].
  apply andb_true_iff in H. destruct H as [Ht H]. rewrite Ht.
  apply negb_true_iff in Ht. rewrite Ht.
  destruct (IH H) as (H1 & H2 & H3).
  now rewrite H1, H2, H3.
Qed.

Lemma start_all_split (tasks : list running_task) :
  started_first tasks = true ->
  start_all tasks
  = filter started tasks
      ++ map (fun t => set_status t Waiting) (filter (fun t => negb (started t)) tasks).
Proof.
  induction tasks as [|t tasks IH]; [reflexivity|].
  unfold start_all in *. simpl. destruct (started t) eqn:Ht; simpl; intros H.
  - f_equal. exact (IH H).
  - destruct (start_all_unstarted tasks H) as (H1 & H2 & H3).
    unfold start_all in H1. now rewrite H1, H2, H3.
Qed.

Lemma start_all_started (tasks : list running_task) :
  forallb started (start_all tasks) = true.
Proof.
  unfold start_all. induction tasks as [|t tasks IH]; [reflexivity|].
  simpl. rewrite IH. destruct (started t) eqn:Ht; [now rewrite Ht|reflexivity].
Qed.

Lemma forallb_filter_self {A} (f : A -> bool) (l : list A) :
  forallb f (filter f l) = true.
Proof.
  induction l as [|x l IH]; [reflexivity|].
  simpl. destruct (f x) eqn:Hx; [simpl; now rewrite Hx|exact IH].
Qed.

(** In a state in which the started tasks come first, every request of
    the batch that is still to be sent can be sent at once, in the order
    of the batch, without any response in between. *)
Lemma issue_all (i : nat) (tasks : list running_task)
  (later : list (dict (list message))) (acc : Acc) :
  started_first tasks = true ->
  exec (Running i tasks later acc)
       (map (fun t => Issue i (t_key t)) (filter (fun t => negb (started t)) tasks))
       (Running i (start_all tasks) later acc).
Proof.
  intros Hfirst. rewrite (start_all_split tasks Hfirst).
  rewrite (started_first_split tasks Hfirst) at 1.
  apply issue_rest; apply forallb_filter_self.
Qed.

(** *** Failures in the trace *)

Lemma raised_middle (pre post : list running_task) (t t' : running_task) :
  raised t = false ->
  existsb raised (pre ++ t :: post) = true ->
  existsb raised (pre ++ t' :: post) = true.
Proof.
  intros Ht. rewrite !existsb_app. simpl. rewrite Ht. simpl.
  intros H. apply orb_true_iff in H. destruct H as [H|H]; rewrite H;
    [reflexivity|]. now rewrite !orb_true_r.
Qed.

Lemma returned_not_raised (tasks : list running_task) (results : list (string * string)) :
  results_of tasks = Some results -> existsb raised tasks = false.
Proof.
  intros Hres. destruct (existsb raised tasks) eqn:Hr; [|reflexivity].
  apply existsb_exists in Hr. destruct Hr as (t & Hin & Ht).
  destruct (results_of_returned tasks results Hres t Hin) as (text & Hst).
  unfold raised in Ht. now rewrite Hst in Ht.
Qed.

Lemma failures_seen_next (tr : list sched_event) (i : nat)
  (later : list (dict (list message))) (acc : Acc) :
  (forall j k, ~ In (Resolve j k false) tr) ->
  failures_seen tr (next Acc i later acc).
Proof.
  intros Hnone. destruct later as [|b later]; simpl; [exact Hnone|]. split.
  - intros t Hin Hst. now rewrite (spawn_created b t Hin) in Hst.
  - intros j k Hin. now destruct (Hnone j k).
Qed.

Lemma failures_seen_step (tr : list sched_event) (s s' : state)
  (l : option sched_event) :
  failures_seen tr s -> step s l s' -> failures_seen (tr ++ observe l) s'.
Proof.
  intros Hinv Hstep.
  destruct Hstep as [i pre t post later acc Hpre Hst
                    |i pre t post later acc text Hst Hcl
                    |i pre t post later acc Hst Hcl
                    |i tasks later acc Hraised Hstarted
                    |i tasks later acc results acc' Hres Hrec
                    |i tasks later acc results e Hres Hrec];
    simpl in Hinv; try exact I.
  - destruct Hinv as [Hseen Hfrom]. simpl. split.
    + intros t0 Hin Hr. apply in_or_app. left.
      destruct (in_middle_status pre post t t0 Waiting Hin) as [->|Hold];
        [discriminate Hr|]. exact (Hseen t0 Hold Hr).
    + intros j k Hin. apply in_app_or in Hin.
      destruct Hin as [Hin|[Heq|[]]]; [|discriminate Heq].
      destruct (Hfrom j k Hin) as [-> Hex]. split; [reflexivity|].
      apply (raised_middle pre post t); [|exact Hex]. unfold raised. now rewrite Hst.
  - destruct Hinv as [Hseen Hfrom]. simpl. split.
    + intros t0 Hin Hr. apply in_or_app. left.
      destruct (in_middle_status pre post t t0 (Returned text) Hin) as [->|Hold];
        [discriminate Hr|]. exact (Hseen t0 Hold Hr).
    + intros j k Hin. apply in_app_or in Hin.
      destruct Hin as [Hin|[Heq|[]]]; [|discriminate Heq].
      destruct (Hfrom j k Hin) as [-> Hex]. split; [reflexivity|].
      apply (raised_middle pre post t); [|exact Hex]. unfold raised. now rewrite Hst.
  - destruct Hinv as [Hseen Hfrom]. simpl.
    assert (Hnow : existsb raised (pre ++ set_status t Raised :: post) = true).
    { rewrite existsb_app. simpl. now rewrite orb_true_r. }
    split.
    + intros t0 Hin Hr. apply in_or_app.
      destruct (in_middle_status pre post t t0 Raised Hin) as [->|Hold].
      * right. now left.
      * left. exact (Hseen t0 Hold Hr).
    + intros j k Hin. split; [|exact Hnow].
      apply in_app_or in Hin. destruct Hin as [Hin|[Heq|[]]].
      * now destruct (Hfrom j k Hin).
      * now inversion Heq.
  - destruct Hinv as [Hseen Hfrom]. simpl observe. rewrite app_nil_r.
    apply failures_seen_next. intros j k Hin.
    destruct (Hfrom j k Hin) as [_ Hex].
    now rewrite (returned_not_raised tasks results Hres) in Hex.
Qed.

Lemma exec_failures_seen (batches : list (dict (list message))) (acc0 : Acc)
  (tr : list sched_event) (s : state) :
  exec (init Acc batches acc0) tr s -> failures_seen tr s.
Proof.
  intros Hexec. remember (init Acc batches acc0) as s0 eqn:Hs0.
  induction Hexec as [s|s tr s' l s'' Hexec IH Hstep].
  - subst s. apply failures_seen_next. intros j k [].
  - exact (failures_seen_step tr s' s'' l (IH Hs0) Hstep).
Qed.

(** An aborted loop was aborted at some batch, by a silent step. *)
Lemma exec_aborted (batches : list (dict (list message))) (acc0 : Acc)
  (tr : list sched_event) (e : exn) :
  exec (init Acc batches acc0) tr (Aborted e) ->
  exists i tasks later acc,
    exec (init Acc batches acc0) tr (Running i tasks later acc)
    /\ step (Running i tasks later acc) None (Aborted e).
Proof.
  intros Hexec. inversion Hexec as [s Hs|s tr' s' l s'' Hexec' Hstep]; subst.
  - unfold init, next in *. destruct batches; discriminate.
  - inversion Hstep as [| | |i tasks later acc Hr Hs
                        |i tasks later acc results acc' Hres Hrec Hs Hl Hnext
                        |i tasks later acc results e' Hres Hrec]; subst.
    + simpl. rewrite app_nil_r. exists i, tasks, later, acc. now split.
    + unfold next in Hnext. destruct later; discriminate.
    + simpl. rewrite app_nil_r. exists i, tasks, later, acc. now split.
Qed.

End SchedOrder.

(** Two executions on the one batch of [a.py] and [b.py]: the first
    request is sent; and, against the service that fails for [b.py], both
    requests are sent, the one of [b.py] fails, and the loop is ended. *)
Lemma sample_first_issue :
  Sched.exec Sample.steady_client (dict string) (detail_record "out")
    (Sched.init (dict string) [Sample.two_prompts] [])
    [Sched.Issue 0 "a.py"]
    (Sched.Running 0 [Sample.task_a Sched.Waiting; Sample.task_b Sched.Created] [] []).
Proof.
  refine (Sched.exec_step _ _ _ _ [] _ (Some (Sched.Issue 0 "a.py")) _
            (Sched.exec_refl _ _ _ _) _).
  exact (Sched.step_start _ _ _ 0 [] (Sample.task_a Sched.Created)
           [Sample.task_b Sched.Created] [] [] eq_refl eq_refl).
Qed.

Lemma sample_failure_run :
  Sched.exec Sample.flaky_client (dict string) (detail_record "out")
    (Sched.init (dict string) [Sample.two_prompts] [])
    [Sched.Issue 0 "a.py"; Sched.Issue 0 "b.py"; Sched.Resolve 0 "b.py" false]
    (Sched.Aborted ServiceError).
Proof.
  refine (Sched.exec_step _ _ _ _
            [Sched.Issue 0 "a.py"; Sched.Issue 0 "b.py"; Sched.Resolve 0 "b.py" false]
            (Sched.Running 0 [Sample.task_a Sched.Waiting; Sample.task_b Sched.Raised]
               [] [])
            None _ _ _).
  - refine (Sched.exec_step _ _ _ _
              [Sched.Issue 0 "a.py"; Sched.Issue 0 "b.py"]
              (Sched.Running 0 [Sample.task_a Sched.Waiting; Sample.task_b Sched.Waiting]
                 [] [])
              (Some (Sched.Resolve 0 "b.py" false)) _ _ _).
    + refine (Sched.exec_step _ _ _ _
                [Sched.Issue 0 "a.py"]
                (Sched.Running 0 [Sample.task_a Sched.Waiting; Sample.task_b Sched.Created]
                   [] [])
                (Some (Sched.Issue 0 "b.py")) _ _ _).
      * refine (Sched.exec_step _ _ _ _ [] _ (Some (Sched.Issue 0 "a.py")) _
                  (Sched.exec_refl _ _ _ _) _).
        exact (Sched.step_start _ _ _ 0 [] (Sample.task_a Sched.Created)
                 [Sample.task_b Sched.Created] [] [] eq_refl eq_refl).
      * exact (Sched.step_start _ _ _ 0 [Sample.task_a Sched.Waiting]
                 (Sample.task_b Sched.Created) [] [] [] eq_refl eq_refl).
    + exact (Sched.step_failure _ _ _ 0 [Sample.task_a Sched.Waiting]
               (Sample.task_b Sched.Waiting) [] [] [] eq_refl eq_refl).
  - exact (Sched.step_abort _ _ _ 0
             [Sample.task_a Sched.Waiting; Sample.task_b Sched.Raised] [] []
             eq_refl eq_refl).
Qed.

(** C4 (as the specification states it, refuted).  The stage does not
    wait for every request of a batch to resolve, successfully or with
    failure: against the service that fails for [b.py] the loop is ended
    with the error while the request of [a.py], sent in the same batch,
    has not resolved. *)
Lemma failure_leaves_sibling_pending :
  ~ (forall tr s,
       Sched.exec Sample.flaky_client (dict string) (detail_record "out")
         (Sched.init (dict string) [Sample.two_prompts] []) tr s ->
       waits_for_all tr s).
Proof.
  intros Hwait.
  destruct (Hwait _ _ sample_failure_run 0 "a.py") as [ok Hin].
  - simpl. now left.
  - exact I.
  - simpl in Hin. destruct Hin as [H|[H|[H|[]]]]; inversion H.
Qed.

(** C4 (amended).  In every execution of the event loop of a phase,
    whatever the order in which the responses arrive: (1) a request of
    batch [K+1] is sent only after every request of batch [K] has been
    answered successfully; (2) while the loop is at batch [i], every
    earlier batch is settled and no request of a later batch has been
    sent, and when the loop has finished every batch is settled; (3) the
    requests sent so far are the first requests of the input, in its
    order; (4) within the batch at hand the requests are sent
    concurrently: from every state the loop reaches, all requests of the
    batch that are still to be sent can be sent, in the order of the
    batch, without any response in between, so that every task of the
    batch is started; (5) a loop that was ended with an error was ended
    at a batch of which every request had been sent and none of a later
    batch, after a request of that batch failed (the siblings are not
    waited for) or after all of them returned and recording a result
    raised; (6) once a request has failed no request of a later batch is
    ever sent and the loop does not finish; and (7) the loop ends where
    the loop of the event monad ends. *)
Theorem batches_run_in_sequence
  (client : string -> list message -> option Z -> option string)
  (Acc : Type) (record : Acc -> string * string -> io Acc)
  (batches : list (dict (list message))) (acc0 : Acc)
  (tr : list Sched.sched_event) (s : Sched.state Acc) :
  Sched.exec client Acc record (Sched.init Acc batches acc0) tr s ->
  Sched.ordered batches tr
  /\ Sched.invariant Acc batches tr s
  /\ Sched.on_plan batches tr s
  /\ (forall i tasks later acc,
        s = Sched.Running i tasks later acc ->
        Sched.exec client Acc record s
          (map (fun t => Sched.Issue i (Sched.t_key t))
             (filter (fun t => negb (Sched.started t)) tasks))
          (Sched.Running i (Sched.start_all tasks) later acc)
        /\ forallb Sched.started (Sched.start_all tasks) = true)
  /\ (forall e,
        s = Sched.Aborted e ->
        exists done b later,
          batches = done ++ b :: later
          /\ Sched.issued tr = Sched.issue_plan 0 (done ++ [b])
          /\ Sched.settled batches tr (length done)
          /\ ((e = ServiceError
               /\ exists k, In k (keys b)
                            /\ In (Sched.Resolve (length done) k false) tr)
              \/ (forall k, In k (keys b) ->
                            In (Sched.Resolve (length done) k true) tr)))
  /\ (forall j k,
        In (Sched.Resolve j k false) tr ->
        (forall j' k', In (Sched.Issue j' k') tr -> j' <= j)
        /\ (forall acc, s <> Sched.Finished acc))
  /\ Sched.agrees client Acc record batches acc0 s.
Proof.
  intros Hexec.
  pose proof (exec_invariant client Acc record batches acc0 tr s Hexec) as Hinv.
  pose proof (exec_on_plan client Acc record batches acc0 tr s Hexec) as Hplan.
  pose proof (exec_failures_seen client Acc record batches acc0 tr s Hexec) as Hfail.
  split; [exact (exec_ordered client Acc record batches acc0 tr s Hexec)|].
  split; [exact Hinv|]. split; [exact Hplan|].
  split; [|split; [|split]].
  - intros i tasks later acc ->. simpl in Hplan.
    destruct Hplan as (done & b & _ & _ & _ & Hfirst & _).
    split; [|apply start_all_started].
    exact (issue_all client Acc record i tasks later acc Hfirst).
  - intros e ->. clear Hinv Hplan Hfail.
    destruct (exec_aborted client Acc record batches acc0 tr e Hexec)
      as (i & tasks & later & acc & Hrun & Hstep).
    pose proof (exec_invariant client Acc record batches acc0 tr _ Hrun) as Hinv.
    pose proof (exec_on_plan client Acc record batches acc0 tr _ Hrun) as Hplan.
    pose proof (exec_failures_seen client Acc record batches acc0 tr _ Hrun) as Hfail.
    simpl in Hinv, Hplan, Hfail.
    destruct Hinv as (_ & _ & Hset & Hret & _).
    destruct Hplan as (done & b & Hb & Hlen & Hkeys & _ & Hiss).
    destruct Hfail as [Hseen _].
    exists done, b, later. split; [exact Hb|]. subst i.
    inversion Hstep as [| | |i tasks' later' acc' Hr Hs
                        |i tasks' later' acc' results acc'' Hres Hrec Hs Hl Hnext
                        |i tasks' later' acc' results e' Hres Hrec]; subst.
    + destruct (on_plan_all_started _ done later b tasks tr eq_refl Hkeys Hs Hiss)
        as [Hall _].
      split; [exact Hall|]. split; [exact Hset|]. left. split; [reflexivity|].
      apply existsb_exists in Hr. destruct Hr as (t & Hin & Ht).
      exists (Sched.t_key t). split.
      * rewrite <- Hkeys. now apply in_map.
      * apply (Hseen t Hin). unfold Sched.raised in Ht.
        now destruct (Sched.t_status t).
    + unfold Sched.next in Hnext. destruct later; discriminate.
    + destruct (on_plan_all_started _ done later b tasks tr eq_refl Hkeys
                  (returned_started tasks results Hres) Hiss) as [Hall _].
      split; [exact Hall|]. split; [exact Hset|]. right.
      intros k Hk. rewrite <- Hkeys in Hk. apply in_map_iff in Hk.
      destruct Hk as (t & <- & Hin).
      destruct (results_of_returned tasks results Hres t Hin) as (text & Hst).
      exact (Hret t text Hin Hst).
  - intros j k Hin. destruct s as [i tasks later acc|acc|e].
    + simpl in Hinv, Hfail. destruct Hfail as [_ Hfrom].
      destruct (Hfrom j k Hin) as [-> _]. split; [|discriminate].
      destruct Hinv as (_ & _ & _ & _ & Hle). exact Hle.
    + simpl in Hfail. now destruct (Hfail j k).
    + split; [|discriminate]. clear Hinv Hplan Hfail.
      destruct (exec_aborted client Acc record batches acc0 tr e Hexec)
        as (i & tasks & later & acc & Hrun & _).
      pose proof (exec_invariant client Acc record batches acc0 tr _ Hrun) as Hinv.
      pose proof (exec_failures_seen client Acc record batches acc0 tr _ Hrun) as Hfail.
      simpl in Hinv, Hfail. destruct Hfail as [_ Hfrom].
      destruct (Hfrom j k Hin) as [-> _].
      destruct Hinv as (_ & _ & _ & _ & Hle). exact Hle.
  - exact (exec_agrees client Acc record batches acc0 tr s Hexec).
Qed.

Lemma batches_run_in_sequence_witness :
  Sched.exec Sample.steady_client (dict string) (detail_record "out")
    (Sched.Running 0 [Sample.task_a Sched.Waiting; Sample.task_b Sched.Created] [] [])
    [Sched.Issue 0 "b.py"]
    (Sched.Running 0 [Sample.task_a Sched.Waiting; Sample.task_b Sched.Waiting] [] [])
  /\ (exists done b later,
        [Sample.two_prompts] = done ++ b :: later
        /\ Sched.issued
             [Sched.Issue 0 "a.py"; Sched.Issue 0 "b.py"; Sched.Resolve 0 "b.py" false]
           = Sched.issue_plan 0 (done ++ [b])
        /\ Sched.settled [Sample.two_prompts]
             [Sched.Issue 0 "a.py"; Sched.Issue 0 "b.py"; Sched.Resolve 0 "b.py" false]
             (length done)
        /\ ((ServiceError = ServiceError
             /\ exists k,
                  In k (keys b)
                  /\ In (Sched.Resolve (length done) k false)
                       [Sched.Issue 0 "a.py"; Sched.Issue 0 "b.py";
                        Sched.Resolve 0 "b.py" false])
            \/ (forall k, In k (keys b) ->
                  In (Sched.Resolve (length done) k true)
                    [Sched.Issue 0 "a.py"; Sched.Issue 0 "b.py";
                     Sched.Resolve 0 "b.py" false]))).
Proof.
  split.
  - exact (proj1 (proj1 (proj2 (proj2 (proj2
             (batches_run_in_sequence Sample.steady_client (dict string)
                (detail_record "out") [Sample.two_prompts] [] _ _ sample_first_issue))))
             0 [Sample.task_a Sched.Waiting; Sample.task_b Sched.Created] [] [] eq_refl)).
  - exact (proj1 (proj2 (proj2 (proj2 (proj2
             (batches_run_in_sequence Sample.flaky_client (dict string)
                (detail_record "out") [Sample.two_prompts] [] _ _ sample_failure_run)))))
             ServiceError eq_refl).
Defined.

(** Two complete executions on the one batch of [a.py] and [b.py]: in
    the first the response for [a.py] arrives first, in the second the
    one for [b.py]. *)
Lemma sample_run_a_first :
  Sched.exec Sample.steady_client (dict string) (detail_record "out")
    (Sched.init (dict string) [Sample.two_prompts] [])
    [Sched.Issue 0 "a.py"; Sched.Issue 0 "b.py";
     Sched.Resolve 0 "a.py" true; Sched.Resolve 0 "b.py" true]
    (Sched.Finished [("a.py", format_title "a.py" "Rename the variable");
                     ("b.py", format_title "b.py" "Rename the variable")]).
Proof.
  refine (Sched.exec_step _ _ _ _
            [Sched.Issue 0 "a.py"; Sched.Issue 0 "b.py";
             Sched.Resolve 0 "a.py" true; Sched.Resolve 0 "b.py" true]
            (Sched.Running 0
               [Sample.task_a (Sched.Returned "Rename the variable");
                Sample.task_b (Sched.Returned "Rename the variable")] [] [])
            None _ _ _).
  - refine (Sched.exec_step _ _ _ _
              [Sched.Issue 0 "a.py"; Sched.Issue 0 "b.py"; Sched.Resolve 0 "a.py" true]
              (Sched.Running 0
                 [Sample.task_a (Sched.Returned "Rename the variable");
                  Sample.task_b Sched.Waiting] [] [])
              (Some (Sched.Resolve 0 "b.py" true)) _ _ _).
    + refine (Sched.exec_step _ _ _ _
                [Sched.Issue 0 "a.py"; Sched.Issue 0 "b.py"]
                (Sched.Running 0 [Sample.task_a Sched.Waiting; Sample.task_b Sched.Waiting]
                   [] [])
                (Some (Sched.Resolve 0 "a.py" true)) _ _ _).
      * refine (Sched.exec_step _ _ _ _
                  [Sched.Issue 0 "a.py"]
                  (Sched.Running 0
                     [Sample.task_a Sched.Waiting; Sample.task_b Sched.Created] [] [])
                  (Some (Sched.Issue 0 "b.py")) _ _ _).
        -- exact sample_first_issue.
        -- exact (Sched.step_start _ _ _ 0 [Sample.task_a Sched.Waiting]
                    (Sample.task_b Sched.Created) [] [] [] eq_refl eq_refl).
      * exact (Sched.step_response _ _ _ 0 [] (Sample.task_a Sched.Waiting)
                 [Sample.task_b Sched.Waiting] [] [] "Rename the variable"
                 eq_refl eq_refl).
    + exact (Sched.step_response _ _ _ 0
               [Sample.task_a (Sched.Returned "Rename the variable")]
               (Sample.task_b Sched.Waiting) [] [] [] "Rename the variable"
               eq_refl eq_refl).
  - exact (Sched.step_join Sample.steady_client _ (detail_record "out") 0
             [Sample.task_a (Sched.Returned "Rename the variable");
              Sample.task_b (Sched.Returned "Rename the variable")] [] []
             [("a.py", "Rename the variable"); ("b.py", "Rename the variable")]
             [("a.py", format_title "a.py" "Rename the variable");
              ("b.py", format_title "b.py" "Rename the variable")]
             eq_refl eq_refl).
Qed.

Lemma sample_run_b_first :
  Sched.exec Sample.seed_bound_client (dict string) (detail_record "out")
    (Sched.init (dict string) [Sample.two_prompts] [])
    [Sched.Issue 0 "a.py"; Sched.Issue 0 "b.py";
     Sched.Resolve 0 "b.py" true; Sched.Resolve 0 "a.py" true]
    (Sched.Finished [("a.py", format_title "a.py" "Rename the variable");
                     ("b.py", format_title "b.py" "Rename the variable")]).
Proof.
  refine (Sched.exec_step _ _ _ _
            [Sched.Issue 0 "a.py"; Sched.Issue 0 "b.py";
             Sched.Resolve 0 "b.py" true; Sched.Resolve 0 "a.py" true]
            (Sched.Running 0
               [Sample.task_a (Sched.Returned "Rename the variable");
                Sample.task_b (Sched.Returned "Rename the variable")] [] [])
            None _ _ _).
  - refine (Sched.exec_step _ _ _ _
              [Sched.Issue 0 "a.py"; Sched.Issue 0 "b.py"; Sched.Resolve 0 "b.py" true]
              (Sched.Running 0
                 [Sample.task_a Sched.Waiting;
                  Sample.task_b (Sched.Returned "Rename the variable")] [] [])
              (Some (Sched.Resolve 0 "a.py" true)) _ _ _).
    + refine (Sched.exec_step _ _ _ _
                [Sched.Issue 0 "a.py"; Sched.Issue 0 "b.py"]
                (Sched.Running 0 [Sample.task_a Sched.Waiting; Sample.task_b Sched.Waiting]
                   [] [])
                (Some (Sched.Resolve 0 "b.py" true)) _ _ _).
      * refine (Sched.exec_step _ _ _ _
                  [Sched.Issue 0 "a.py"]
                  (Sched.Running 0
                     [Sample.task_a Sched.Waiting; Sample.task_b Sched.Created] [] [])
                  (Some (Sched.Issue 0 "b.py")) _ _ _).
        -- refine (Sched.exec_step _ _ _ _ [] _ (Some (Sched.Issue 0 "a.py")) _
                     (Sched.exec_refl _ _ _ _) _).
           exact (Sched.step_start _ _ _ 0 [] (Sample.task_a Sched.Created)
                    [Sample.task_b Sched.Created] [] [] eq_refl eq_refl).
        -- exact (Sched.step_start _ _ _ 0 [Sample.task_a Sched.Waiting]
                    (Sample.task_b Sched.Created) [] [] [] eq_refl eq_refl).
      * exact (Sched.step_response _ _ _ 0 [Sample.task_a Sched.Waiting]
                 (Sample.task_b Sched.Waiting) [] [] [] "Rename the variable"
                 eq_refl eq_refl).
    + exact (Sched.step_response _ _ _ 0 [] (Sample.task_a Sched.Waiting)
               [Sample.task_b (Sched.Returned "Rename the variable")] [] []
               "Rename the variable" eq_refl eq_refl).
  - exact (Sched.step_join Sample.seed_bound_client _ (detail_record "out") 0
             [Sample.task_a (Sched.Returned "Rename the variable");
              Sample.task_b (Sched.Returned "Rename the variable")] [] []
             [("a.py", "Rename the variable"); ("b.py", "Rename the variable")]
             [("a.py", format_title "a.py" "Rename the variable");
              ("b.py", format_title "b.py" "Rename the variable")]
             eq_refl eq_refl).
Qed.

(** The events and the outcome of the detail phase depend on the
    completion service through its answers under the seed of the module
    only. *)
Lemma detail_phase_seed_only
  (client client' : string -> list message -> option Z -> option string)
  (reviewer_dir : string) (M : dict (list message)) (c : Z) :
  (forall ms, client MODEL ms (Some SEED) = client' MODEL ms (Some SEED)) ->
  detail_phase client reviewer_dir M c = detail_phase client' reviewer_dir M c.
Proof.
  intros Hdet.
  unfold detail_phase. destruct (dict_to_batches M c) as [bs|e]; [|reflexivity].
  enough (Hloop : forall acc,
    for_each (fun d batch => results <- process_batch client batch ;;
                             for_each (detail_record reviewer_dir) results d) bs acc
    = for_each (fun d batch => results <- process_batch client' batch ;;
                               for_each (detail_record reviewer_dir) results d) bs acc)
    by (unfold lift, bind; now rewrite Hloop).
  intros acc. apply for_each_ext. intros d b. f_equal.
  unfold process_batch. f_equal. apply map_ext. intros [k0 v0]. simpl.
  unfold task, openai_request. now rewrite Hdet.
Qed.

(** C9.  Two runs of the detail phase on the same dictionary, against
    completion services that give the same answer to the same messages
    under the seed of the module.  (1) Whatever the order in which the
    responses arrive in either run: when one run of the event loop
    finishes with a result dictionary, the other run is not ended with an
    error, and when it finishes its result dictionary is the same; that
    dictionary is the result of the detail phase for both services, and
    the run has sent every request of the input once, in its order.
    (2) For a well-formed input and a batch size from 1 to
    [sys.maxsize], a result dictionary binds every identifier of the
    input to the titled reply to its prompt, so every request was
    answered.  (3) The two runs have the same events.  (4) Every request
    of the phase, and of a whole run of [main], carries that one seed
    (and the one model). *)
Theorem detail_phase_idempotent
  (client client' : string -> list message -> option Z -> option string)
  (reviewer_dir : string) (M : dict (list message)) (c : Z) :
  (forall ms, client MODEL ms (Some SEED) = client' MODEL ms (Some SEED)) ->
  (forall batches tr tr' s s' D,
     dict_to_batches M c = Ok batches ->
     Sched.exec client (dict string) (detail_record reviewer_dir)
       (Sched.init (dict string) batches []) tr s ->
     Sched.exec client' (dict string) (detail_record reviewer_dir)
       (Sched.init (dict string) batches []) tr' s' ->
     s = Sched.Finished D ->
     (forall D', s' = Sched.Finished D' -> D' = D)
     /\ (forall e, s' <> Sched.Aborted e)
     /\ outcome (detail_phase client reviewer_dir M c) = Ok D
     /\ outcome (detail_phase client' reviewer_dir M c) = Ok D
     /\ Sched.issued tr = Sched.issue_plan 0 batches)
  /\ (wf M -> (1 <= c <= maxsize)%Z ->
      forall D,
        outcome (detail_phase client reviewer_dir M c) = Ok D ->
        D = map (fun kv => (fst kv, titled client' kv)) M
        /\ forall k v, In (k, v) M -> client' MODEL v (Some SEED) <> None)
  /\ detail_phase client reviewer_dir M c = detail_phase client' reviewer_dir M c
  /\ (forall ev, In ev (events (detail_phase client reviewer_dir M c)) -> seeded ev)
  /\ (forall open_read relpath project_tree local_path directory ev,
        In ev (events (main client open_read relpath project_tree local_path
                         reviewer_dir directory)) ->
        seeded ev).
Proof.
  intros Hdet.
  pose proof (detail_phase_seed_only client client' reviewer_dir M c Hdet) as Hsame.
  split; [|split; [|split; [exact Hsame|split]]].
  - intros batches tr tr' s s' D Hb Hexec Hexec' ->.
    pose proof (event_loop_yields_detail_phase client reviewer_dir M c batches tr _
                  Hb Hexec) as HD.
    pose proof (event_loop_yields_detail_phase client' reviewer_dir M c batches tr' s'
                  Hb Hexec') as HD'.
    simpl in HD. rewrite <- Hsame in HD'.
    split; [|split; [|split; [exact HD|split]]].
    + intros D' ->. rewrite HD in HD'. now inversion HD'.
    + intros e ->. rewrite HD in HD'. discriminate.
    + now rewrite <- Hsame.
    + exact (exec_on_plan client (dict string) (detail_record reviewer_dir)
               batches [] tr _ Hexec).
  - intros Hwf Hc D HD. rewrite Hsame in HD.
    destruct (forallb (fun kv => succeeds client' (snd kv)) M) eqn:Hall.
    + rewrite (detail_phase_ok client' reviewer_dir M c Hwf Hc Hall) in HD.
      inversion HD. split; [reflexivity|].
      intros k v Hin. rewrite forallb_forall in Hall. specialize (Hall _ Hin).
      unfold succeeds in Hall. simpl in Hall.
      now destruct (client' MODEL v (Some SEED)).
    + rewrite (detail_phase_raise client' reviewer_dir M c Hwf Hc Hall) in HD.
      discriminate.
  - intros ev. apply seeded_detail_phase.
  - intros open_read relpath project_tree local_path directory ev. apply seeded_main.
Qed.

Lemma detail_phase_idempotent_witness :
  (forall D',
     Sched.Finished [("a.py", format_title "a.py" "Rename the variable");
                     ("b.py", format_title "b.py" "Rename the variable")]
     = Sched.Finished D' ->
     D' = [("a.py", format_title "a.py" "Rename the variable");
           ("b.py", format_title "b.py" "Rename the variable")])
  /\ (forall e,
        Sched.Finished [("a.py", format_title "a.py" "Rename the variable");
                        ("b.py", format_title "b.py" "Rename the variable")]
        <> Sched.Aborted e)
  /\ outcome (detail_phase Sample.steady_client "out" Sample.two_prompts 2)
     = Ok [("a.py", format_title "a.py" "Rename the variable");
           ("b.py", format_title "b.py" "Rename the variable")]
  /\ outcome (detail_phase Sample.seed_bound_client "out" Sample.two_prompts 2)
     = Ok [("a.py", format_title "a.py" "Rename the variable");
           ("b.py", format_title "b.py" "Rename the variable")]
  /\ Sched.issued [Sched.Issue 0 "a.py"; Sched.Issue 0 "b.py";
                   Sched.Resolve 0 "a.py" true; Sched.Resolve 0 "b.py" true]
     = Sched.issue_plan 0 [Sample.two_prompts].
Proof.
  assert (Hseed : forall ms,
            Sample.steady_client MODEL ms (Some SEED)
            = Sample.seed_bound_client MODEL ms (Some SEED))
    by (intros ms; reflexivity).
  exact (proj1 (detail_phase_idempotent Sample.steady_client Sample.seed_bound_client
                  "out" Sample.two_prompts 2 Hseed)
           [Sample.two_prompts] _ _ _ _ _ eq_refl
           sample_run_a_first sample_run_b_first eq_refl).
Defined.

(** * The walk of the project directory *)

Section TreeFacts.

Import Tree.

Variable listdir : string -> option (list string).
Variable isdir : string -> bool.
Variable reviewer_folder_name : string.

Local Abbreviation walk := (project_tree listdir isdir reviewer_folder_name).
Local Abbreviation loop := (tree_loop isdir).
Local Abbreviation enters := (Tree.enters listdir isdir).
Local Abbreviation lists := (Tree.lists listdir isdir).
Local Abbreviation within := (Tree.within listdir isdir).

Lemma project_tree_defaults (fuel : nat) (dir_tree : string) (level : Z) (prefix : string) :
  walk fuel None None None dir_tree level prefix
  = walk fuel (Some IGNORE_STARTS_WITH) (Some IGNORE_ENDS_WITH)
      (Some (IGNORE_EQUALS reviewer_folder_name)) dir_tree level prefix.
Proof. destruct fuel; reflexivity. Qed.

(** *** Sorting *)

Lemma insert_by_perm {A} (le : A -> A -> bool) (x : A) (l : list A) :
  Permutation (x :: l) (insert_by le x l).
Proof.
  induction l as [|y l IH]; simpl; [reflexivity|].
  destruct (le x y); [reflexivity|].
  rewrite perm_swap. now apply perm_skip.
Qed.

Lemma sort_by_perm {A} (le : A -> A -> bool) (l : list A) :
  Permutation l (sort_by le l).
Proof.
  induction l as [|x l IH]; simpl; [reflexivity|].
  rewrite <- insert_by_perm. now apply perm_skip.
Qed.

Lemma in_sort_by {A} (le : A -> A -> bool) (l : list A) (x : A) :
  In x (sort_by le l) <-> In x l.
Proof.
  split; apply Permutation_in; [symmetry|]; apply sort_by_perm.
Qed.

(** *** Name filters *)




Lemma in_filter_items (items sw ew eq : list string) (j : string) :
  In j (filter_items items sw ew eq)
  <-> In j items
      /\ existsb (fun p => startswith j p) sw = false
      /\ existsb (fun e => endswith j e) ew = false
      /\ existsb (fun x => String.eqb x j) eq = false.
Proof.
  unfold filter_items. rewrite filter_In, negb_true_iff, orb_false_r, !orb_false_iff.
  tauto.
Qed.

(** Filtering with longer lists is filtering twice. *)
Lemma filter_items_app (items sw ew eq sw' ew' eq' : list string) :
  filter_items items (sw ++ sw') (ew ++ ew') (eq ++ eq')
  = filter_items (filter_items items sw ew eq) sw' ew' eq'.
Proof.
  unfold filter_items. induction items as [|j items IH]; simpl; [reflexivity|].
  rewrite !existsb_app, !orb_false_r.
  destruct (existsb (fun p => startswith j p) sw); simpl; [exact IH|].
  destruct (existsb (fun e => endswith j e) ew); simpl.
  { rewrite orb_true_r. simpl. exact IH. }
  destruct (existsb (fun x => String.eqb x j) eq); simpl.
  { rewrite !orb_true_r. simpl. exact IH. }
  rewrite !orb_false_r.
  destruct (existsb (fun p => startswith j p) sw'
            || (existsb (fun e => endswith j e) ew'
                || existsb (fun x => String.eqb x j) eq')); simpl; now rewrite IH.
Qed.

Lemma filter_items_incl (items sw ew eq sw' ew' eq' : list string) (j : string) :
  In j (filter_items items (sw ++ sw') (ew ++ ew') (eq ++ eq')) ->
  In j (filter_items items sw ew eq).
Proof.
  rewrite filter_items_app. unfold filter_items at 1. rewrite filter_In. tauto.
Qed.



(** *** What the walk enters and lists *)

Section Lists.

Variables sw ew eq : list string.

Lemma enters_trans (a b c : string) :
  enters sw ew eq a b -> enters sw ew eq b c -> enters sw ew eq a c.
Proof.
  intros Hab Hbc. induction Hbc as [|d items item Hd IH Hls Hin Hdir].
  - exact Hab.
  - exact (enters_sub listdir isdir sw ew eq a d items item IH Hls Hin Hdir).
Qed.

Lemma enters_head (root d : string) :
  enters sw ew eq root d ->
  d = root
  \/ exists items item,
       listdir root = Some items
       /\ In item (filter_items items sw ew eq)
       /\ isdir (path_join root item) = true
       /\ enters sw ew eq (path_join root item) d.
Proof.
  intros H. induction H as [|d items item Hd IH Hls Hin Hdir].
  - now left.
  - right. destruct IH as [->|(items0 & item0 & Hls0 & Hin0 & Hdir0 & Hent)].
    + exists items, item. repeat split; try assumption. apply enters_root.
    + exists items0, item0. repeat split; try assumption.
      exact (enters_sub listdir isdir sw ew eq _ d items item Hent Hls Hin Hdir).
Qed.

(** The files listed from [root] are its own passing files and the files
    listed from its passing subdirectories. *)
Lemma lists_unfold (root f : string) :
  lists sw ew eq root f
  <-> exists items item,
        listdir root = Some items
        /\ In item (filter_items items sw ew eq)
        /\ ((isdir (path_join root item) = false /\ f = path_join root item)
            \/ (isdir (path_join root item) = true
                /\ lists sw ew eq (path_join root item) f)).
Proof.
  split.
  - intros (d & items & item & Hent & Hls & Hin & Hdir & ->).
    destruct (enters_head root d Hent)
      as [->|(items0 & item0 & Hls0 & Hin0 & Hdir0 & Hent0)].
    + exists items, item. split; [exact Hls|]. split; [exact Hin|]. left. now split.
    + exists items0, item0. split; [exact Hls0|]. split; [exact Hin0|]. right.
      split; [exact Hdir0|]. exists d, items, item. now repeat split.
  - intros (items & item & Hls & Hin & [[Hdir ->]|[Hdir Hl]]).
    + exists root, items, item. repeat split; try assumption. apply enters_root.
    + destruct Hl as (d & items' & item' & Hent & Hls' & Hin' & Hdir' & ->).
      exists d, items', item'. repeat split; try assumption.
      apply (enters_trans root (path_join root item) d); [|exact Hent].
      exact (enters_sub listdir isdir sw ew eq root root items item
               (enters_root listdir isdir sw ew eq root) Hls Hin Hdir).
Qed.

Lemma enters_narrow (sw' ew' eq' : list string) (root d : string) :
  enters (sw ++ sw') (ew ++ ew') (eq ++ eq') root d -> enters sw ew eq root d.
Proof.
  intros H. induction H as [|d items item Hd IH Hls Hin Hdir].
  - apply enters_root.
  - apply (enters_sub listdir isdir sw ew eq root d items item IH Hls); [|exact Hdir].
    exact (filter_items_incl items sw ew eq sw' ew' eq' item Hin).
Qed.

Lemma lists_narrow (sw' ew' eq' : list string) (root f : string) :
  lists (sw ++ sw') (ew ++ ew') (eq ++ eq') root f -> lists sw ew eq root f.
Proof.
  intros (d & items & item & Hent & Hls & Hin & Hdir & ->).
  exists d, items, item. repeat split; try assumption.
  - exact (enters_narrow sw' ew' eq' root d Hent).
  - exact (filter_items_incl items sw ew eq sw' ew' eq' item Hin).
Qed.

End Lists.

(** *** The loop over the items of one directory *)

Lemma tree_loop_files (recurse : string -> string -> tree_result)
  (P : string -> string -> Prop) (dir_tree prefix : string) (n : Z) :
  (forall path pre t fs, recurse path pre = TreeOk t fs -> forall f, In f fs <-> P path f) ->
  forall names i p acc t files,
    loop recurse dir_tree prefix n i names p acc = TreeOk t files ->
    forall f,
      In f files
      <-> In f acc
          \/ exists item,
               In item names
               /\ ((isdir (path_join dir_tree item) = false
                    /\ f = path_join dir_tree item)
                   \/ (isdir (path_join dir_tree item) = true
                       /\ P (path_join dir_tree item) f)).
Proof.
  intros Hrec names. induction names as [|item rest IH]; intros i p acc t files Hloop f.
  - simpl in Hloop. inversion Hloop; subst. split; [now left|].
    intros [H|(item & [] & _)]. exact H.
  - simpl in Hloop. destruct (isdir (path_join dir_tree item)) eqn:Hdir.
    + assert (Hsub : exists q pre t' fs',
                 recurse (path_join dir_tree item) pre = TreeOk t' fs'
                 /\ loop recurse dir_tree prefix n (i + 1) rest q (acc ++ fs')
                    = TreeOk t files).
      { destruct (i =? n - 1)%Z;
          match type of Hloop with
          | match recurse ?a ?b with _ => _ end = _ =>
              destruct (recurse a b) as [t' fs'| |] eqn:Hr; try discriminate;
              eexists; exists b, t', fs'; split; [exact Hr|exact Hloop]
          end. }
      destruct Hsub as (q & pre & t' & fs' & Hr & Hrest).
      rewrite (IH _ _ _ _ _ Hrest f), in_app_iff, (Hrec _ _ _ _ Hr f). split.
      * intros [[H|H]|(item' & Hin & H)].
        -- now left.
        -- right. exists item. split; [now left|]. right. now split.
        -- right. exists item'. split; [now right|exact H].
      * intros [H|(item' & [<-|Hin] & H)].
        -- left. now left.
        -- destruct H as [[Hf _]|[_ H]]; [congruence|]. left. now right.
        -- right. exists item'. now split.
    + rewrite (IH _ _ _ _ _ Hloop f), in_app_iff. simpl. split.
      * intros [[H|[<-|[]]]|(item' & Hin & H)].
        -- now left.
        -- right. exists item. split; [now left|]. left. now split.
        -- right. exists item'. split; [now right|exact H].
      * intros [H|(item' & [<-|Hin] & H)].
        -- left. now left.
        -- destruct H as [[_ ->]|[Hd _]]; [|congruence]. left. right. now left.
        -- right. exists item'. now split.
Qed.

Lemma tree_loop_mono (recurse recurse' : string -> string -> tree_result)
  (dir_tree prefix : string) (n : Z) :
  (forall path pre t fs, recurse path pre = TreeOk t fs -> recurse' path pre = TreeOk t fs) ->
  forall names i p acc t files,
    loop recurse dir_tree prefix n i names p acc = TreeOk t files ->
    loop recurse' dir_tree prefix n i names p acc = TreeOk t files.
Proof.
  intros Hrec names. induction names as [|item rest IH]; intros i p acc t files Hloop.
  - exact Hloop.
  - simpl in Hloop |- *. destruct (isdir (path_join dir_tree item)); [|now apply IH].
    destruct (i =? n - 1)%Z;
      match type of Hloop with
      | match recurse ?a ?b with _ => _ end = _ =>
          destruct (recurse a b) as [t' fs'| |] eqn:Hr; try discriminate;
          rewrite (Hrec _ _ _ _ Hr); now apply IH
      end.
Qed.

Lemma tree_loop_total (recurse : string -> string -> tree_result)
  (dir_tree prefix : string) (n : Z) (items : list string) :
  (forall item pre,
     In item items -> isdir (path_join dir_tree item) = true ->
     exists t fs, recurse (path_join dir_tree item) pre = TreeOk t fs) ->
  forall i p acc, exists t files,
    loop recurse dir_tree prefix n i items p acc = TreeOk t files.
Proof.
  induction items as [|item rest IH]; intros Hrec i p acc.
  - now exists p, acc.
  - simpl. destruct (isdir (path_join dir_tree item)) eqn:Hdir.
    + destruct (i =? n - 1)%Z;
        match goal with
        | |- exists _ _, match recurse ?a ?b with _ => _ end = _ =>
            destruct (Hrec item b (or_introl eq_refl) Hdir) as (t' & fs' & ->);
            apply IH; intros item' pre Hin; apply Hrec; now right
        end.
    + apply IH. intros item' pre Hin. apply Hrec. now right.
Qed.

(** *** The walk *)

Lemma project_tree_files (sw ew eq : list string) (fuel : nat) :
  forall dir_tree level prefix t files,
    walk fuel (Some sw) (Some ew) (Some eq) dir_tree level prefix = TreeOk t files ->
    forall f, In f files <-> lists sw ew eq dir_tree f.
Proof.
  induction fuel as [|fuel IH]; intros dir_tree level prefix t files Hwalk f.
  - discriminate.
  - simpl in Hwalk. destruct (listdir dir_tree) as [items|] eqn:Hls; [|discriminate].
    rewrite (tree_loop_files _ (lists sw ew eq) dir_tree prefix _
               (fun path pre t fs H => IH path (level + 1)%Z pre t fs H)
               _ _ _ _ _ _ Hwalk f).
    rewrite lists_unfold. split.
    + intros [[]|(item & Hin & H)]. exists items, item.
      split; [exact Hls|]. split; [|exact H]. now apply in_sort_by in Hin.
    + intros (items' & item & Hls' & Hin & H). right.
      rewrite Hls in Hls'. inversion Hls'; subst items'.
      exists item. split; [|exact H]. now apply in_sort_by.
Qed.

Lemma project_tree_mono (sw ew eq : list string) (fuel : nat) :
  forall fuel' dir_tree level prefix t files,
    fuel <= fuel' ->
    walk fuel (Some sw) (Some ew) (Some eq) dir_tree level prefix = TreeOk t files ->
    walk fuel' (Some sw) (Some ew) (Some eq) dir_tree level prefix = TreeOk t files.
Proof.
  induction fuel as [|fuel IH]; intros fuel' dir_tree level prefix t files Hle Hwalk.
  - discriminate.
  - destruct fuel' as [|fuel']; [lia|]. simpl in Hwalk |- *.
    destruct (listdir dir_tree) as [items|]; [|discriminate].
    eapply tree_loop_mono; [|exact Hwalk].
    intros path pre t' fs' H. apply (IH fuel'); [lia|exact H].
Qed.

Lemma project_tree_total (sw ew eq : list string) (n : nat) :
  forall fuel dir_tree level prefix,
    within sw ew eq n dir_tree -> n <= fuel ->
    exists t files,
      walk fuel (Some sw) (Some ew) (Some eq) dir_tree level prefix = TreeOk t files.
Proof.
  induction n as [|n IH]; intros fuel dir_tree level prefix Hin Hle.
  - destruct Hin.
  - destruct fuel as [|fuel]; [lia|]. simpl in Hin |- *.
    destruct Hin as (items & -> & Hsub).
    apply tree_loop_total. intros item pre Hitem Hdir.
    apply IH; [|lia]. apply Hsub; [|exact Hdir]. now apply in_sort_by in Hitem.
Qed.

(** X1.  When [project_tree] returns, its file list holds exactly the
    files that the walk lists from [dir_tree]: the entries that are not
    directories, pass the three name filters, and are reached from
    [dir_tree] through directories that pass them too.  Nothing else is
    returned and none of them is missing. *)
Theorem project_tree_lists_exactly (fuel : nat)
  (ignore_starts_with ignore_ends_with ignore_equals : option (list string))
  (dir_tree : string) (level : Z) (prefix p_tree : string) (files : list string) :
  walk fuel ignore_starts_with ignore_ends_with ignore_equals dir_tree level prefix
  = TreeOk p_tree files ->
  forall f,
    In f files
    <-> lists
          (match ignore_starts_with with Some l => l | None => IGNORE_STARTS_WITH end)
          (match ignore_ends_with with Some l => l | None => IGNORE_ENDS_WITH end)
          (match ignore_equals with
           | Some l => l
           | None => IGNORE_EQUALS reviewer_folder_name
           end)
          dir_tree f.
Proof.
  intros Hwalk. eapply project_tree_files.
  destruct fuel as [|fuel]; [discriminate|].
  destruct ignore_starts_with, ignore_ends_with, ignore_equals; exact Hwalk.
Qed.

(** X2.  The recursion budget only decides whether the walk ends: a walk
    that returned with some budget returns the same tree and files with
    every larger one, and a budget of at least [n] is enough when the
    entered directories can all be listed and nest less than [n] deep. *)
Theorem project_tree_budget (sw ew eq : list string) (fuel : nat)
  (dir_tree : string) (level : Z) (prefix : string) :
  (forall fuel' p_tree files,
     fuel <= fuel' ->
     walk fuel (Some sw) (Some ew) (Some eq) dir_tree level prefix = TreeOk p_tree files ->
     walk fuel' (Some sw) (Some ew) (Some eq) dir_tree level prefix = TreeOk p_tree files)
  /\ (forall n,
        within sw ew eq n dir_tree -> n <= fuel ->
        exists p_tree files,
          walk fuel (Some sw) (Some ew) (Some eq) dir_tree level prefix
          = TreeOk p_tree files).
Proof.
  split.
  - intros fuel' p_tree files. apply project_tree_mono.
  - intros n Hin Hle. exact (project_tree_total sw ew eq n fuel dir_tree level prefix Hin Hle).
Qed.

(** X3.  Rules given on the command line can only narrow the walk: every
    file that the walk returns under the lists of the script is returned
    by the walk under the default lists as well.  Each returned file is
    an entry [item] of the listing of a directory [d] that the walk
    reaches from the root through directories passing the default rules;
    the entry is not a directory, and its name [item] neither starts with
    a default prefix, nor ends with a default suffix, nor is a default
    name, nor matches a rule of the command line (so no entry named
    [.reviewer], [venv], ... is ever returned, whatever the command line
    says). *)
Theorem cli_rules_only_narrow (args : cli_args) (fuel fuel0 : nat)
  (level level0 : Z) (prefix prefix0 p_tree p_tree0 : string) (files files0 : list string) :
  walk fuel (Some (cli_starts_with args)) (Some (cli_ends_with args))
    (Some (cli_equals reviewer_folder_name args)) (arg_directory args) level prefix
  = TreeOk p_tree files ->
  walk fuel0 None None None (arg_directory args) level0 prefix0 = TreeOk p_tree0 files0 ->
  incl files files0
  /\ forall f, In f files ->
       exists d names item,
         enters IGNORE_STARTS_WITH IGNORE_ENDS_WITH (IGNORE_EQUALS reviewer_folder_name)
           (arg_directory args) d
         /\ listdir d = Some names
         /\ In item names
         /\ isdir (path_join d item) = false
         /\ f = path_join d item
         /\ existsb (fun p => startswith item p) IGNORE_STARTS_WITH = false
         /\ existsb (fun e => endswith item e) IGNORE_ENDS_WITH = false
         /\ existsb (fun x => String.eqb x item) (IGNORE_EQUALS reviewer_folder_name)
            = false
         /\ existsb (fun p => startswith item p) (arg_ignore_starts_with args) = false
         /\ existsb (fun e => endswith item e) (arg_ignore_ends_with args) = false
         /\ existsb (fun x => String.eqb x item) (arg_ignore_equals args) = false.
Proof.
  intros Hcli Hdef.
  assert (Hnarrow : forall f, In f files ->
            lists IGNORE_STARTS_WITH IGNORE_ENDS_WITH (IGNORE_EQUALS reviewer_folder_name)
              (arg_directory args) f).
  { intros f Hf. apply (project_tree_files _ _ _ _ _ _ _ _ _ Hcli) in Hf.
    exact (lists_narrow _ _ _ _ _ _ _ f Hf). }
  split.
  - intros f Hf. rewrite project_tree_defaults in Hdef.
    apply (project_tree_files _ _ _ _ _ _ _ _ _ Hdef). now apply Hnarrow.
  - intros f Hf. apply (project_tree_files _ _ _ _ _ _ _ _ _ Hcli) in Hf.
    destruct Hf as (d & names & item & Hent & Hls & Hin & Hdir & ->).
    apply in_filter_items in Hin. destruct Hin as (Hin & Hsw & Hew & Heq).
    unfold cli_starts_with, cli_ends_with, cli_equals in Hsw, Hew, Heq.
    rewrite existsb_app, orb_false_iff in Hsw, Hew, Heq.
    exists d, names, item.
    split; [exact (enters_narrow _ _ _ _ _ _ _ d Hent)|].
    tauto.
Qed.

End TreeFacts.

(** ** The order of the items of a directory *)

Lemma ascii_compare_refl (a : ascii) : Ascii.compare a a = Eq.
Proof. unfold Ascii.compare. apply N.compare_refl. Qed.

Lemma ascii_compare_trans (a b c : ascii) :
  Ascii.compare a b <> Gt -> Ascii.compare b c <> Gt ->
  Ascii.compare a c <> Gt
  /\ (Ascii.compare a c = Eq -> Ascii.compare a b = Eq /\ Ascii.compare b c = Eq).
Proof.
  unfold Ascii.compare.
  destruct (N.compare_spec (N_of_ascii a) (N_of_ascii b));
    destruct (N.compare_spec (N_of_ascii b) (N_of_ascii c));
    destruct (N.compare_spec (N_of_ascii a) (N_of_ascii c));
    intros; split; intros; try split; try congruence; try lia.
Qed.

Lemma string_compare_trans (s1 : string) :
  forall s2 s3,
    String.compare s1 s2 <> Gt -> String.compare s2 s3 <> Gt ->
    String.compare s1 s3 <> Gt.
Proof.
  induction s1 as [|c1 s1 IH]; intros [|c2 s2] [|c3 s3]; simpl; try congruence.
  intros H12 H23.
  destruct (Ascii.compare c1 c2) eqn:E12; try congruence;
    destruct (Ascii.compare c2 c3) eqn:E23; try congruence;
    destruct (ascii_compare_trans c1 c2 c3) as [Hgt Heq];
    try (rewrite E12; congruence); try (rewrite E23; congruence);
    destruct (Ascii.compare c1 c3) eqn:E13; try congruence;
    try (destruct (Heq eq_refl); congruence).
  now apply (IH s2 s3).
Qed.

Lemma string_leb_trans (s1 s2 s3 : string) :
  String.leb s1 s2 = true -> String.leb s2 s3 = true -> String.leb s1 s3 = true.
Proof.
  unfold String.leb. intros H12 H23.
  pose proof (string_compare_trans s1 s2 s3) as H.
  destruct (String.compare s1 s2); destruct (String.compare s2 s3);
    destruct (String.compare s1 s3); try reflexivity; try discriminate;
    exfalso; apply H; congruence.
Qed.

Lemma string_leb_refl (s : string) : String.leb s s = true.
Proof. destruct (String.leb_total s s); assumption. Qed.

Section KeyOrder.

Import Tree.

Lemma key_le_total (k1 k2 : Z * string) : key_le k1 k2 = true \/ key_le k2 k1 = true.
Proof.
  unfold key_le. destruct k1 as [a x], k2 as [b y]. simpl.
  destruct (Z.ltb_spec a b); [now left|].
  destruct (Z.ltb_spec b a); [now right|].
  assert (a = b) as -> by lia. rewrite Z.eqb_refl. apply String.leb_total.
Qed.

Lemma key_le_trans (k1 k2 k3 : Z * string) :
  key_le k1 k2 = true -> key_le k2 k3 = true -> key_le k1 k3 = true.
Proof.
  unfold key_le. destruct k1 as [a x], k2 as [b y], k3 as [c z]. simpl.
  destruct (Z.ltb_spec a b), (Z.ltb_spec b c), (Z.ltb_spec a c);
    try reflexivity; try lia;
    destruct (Z.eqb_spec a b), (Z.eqb_spec b c), (Z.eqb_spec a c);
    try discriminate; try lia; try reflexivity.
  apply string_leb_trans.
Qed.

Lemma key_le_antisym (k1 k2 : Z * string) :
  key_le k1 k2 = true -> key_le k2 k1 = true -> k1 = k2.
Proof.
  unfold key_le. destruct k1 as [a x], k2 as [b y]. simpl.
  destruct (Z.ltb_spec a b), (Z.ltb_spec b a); try lia;
    destruct (Z.eqb_spec a b), (Z.eqb_spec b a); try discriminate; try lia.
  intros H1 H2. subst b. f_equal. now apply String.leb_antisym.
Qed.

End KeyOrder.

Section SortFacts.

Import Tree.

Context {A : Type}.
Variable le : A -> A -> bool.
Hypothesis le_total : forall x y, le x y = true \/ le y x = true.
Hypothesis le_trans : forall x y z, le x y = true -> le y z = true -> le x z = true.

Lemma insert_by_sorted (x : A) (l : list A) :
  StronglySorted (fun a b => le a b = true) l ->
  StronglySorted (fun a b => le a b = true) (insert_by le x l).
Proof.
  induction l as [|y l IH]; simpl; intros Hs.
  - constructor; constructor.
  - inversion Hs as [|? ? Hl Hy]; subst.
    destruct (le x y) eqn:Hxy.
    + constructor; [exact Hs|]. constructor; [exact Hxy|].
      eapply Forall_impl; [|exact Hy]. intros z Hz. now apply (le_trans x y z).
    + constructor; [now apply IH|].
      assert (Hyx : le y x = true) by (destruct (le_total x y); congruence).
      apply (Permutation_Forall (insert_by_perm le x l)).
      constructor; assumption.
Qed.

Lemma sort_by_sorted (l : list A) :
  StronglySorted (fun a b => le a b = true) (sort_by le l).
Proof.
  induction l as [|x l IH]; simpl; [constructor|]. now apply insert_by_sorted.
Qed.

Hypothesis le_antisym : forall x y, le x y = true -> le y x = true -> x = y.

Lemma sorted_perm_eq (l1 l2 : list A) :
  StronglySorted (fun a b => le a b = true) l1 ->
  StronglySorted (fun a b => le a b = true) l2 ->
  Permutation l1 l2 -> l1 = l2.
Proof.
  revert l2. induction l1 as [|x l1 IH]; intros l2 H1 H2 Hp.
  - apply Permutation_nil in Hp. now subst.
  - destruct l2 as [|y l2]; [symmetry in Hp; now apply Permutation_nil in Hp|].
    inversion H1 as [|? ? Hs1 Hx]; inversion H2 as [|? ? Hs2 Hy]; subst.
    assert (x = y) as ->.
    { assert (Hiy : In y (x :: l1)) by (apply (Permutation_in _ (Permutation_sym Hp)); now left).
      assert (Hix : In x (y :: l2)) by (apply (Permutation_in _ Hp); now left).
      destruct Hiy as [->|Hiy]; [reflexivity|]. destruct Hix as [->|Hix]; [reflexivity|].
      rewrite Forall_forall in Hx, Hy. apply le_antisym; [now apply Hx|now apply Hy]. }
    f_equal. apply IH; try assumption. now apply Permutation_cons_inv in Hp.
Qed.

Lemma sort_by_perm_eq (l1 l2 : list A) :
  Permutation l1 l2 -> sort_by le l1 = sort_by le l2.
Proof.
  intros Hp. apply sorted_perm_eq; try apply sort_by_sorted.
  rewrite <- (sort_by_perm le l1), <- (sort_by_perm le l2). exact Hp.
Qed.

End SortFacts.

(** ** The order of the walk *)

Lemma perm_filter {A} (f : A -> bool) (l l' : list A) :
  Permutation l l' -> Permutation (filter f l) (filter f l').
Proof.
  intros H. induction H as [|x l l' H IH|x y l|l l' l'' H IH H' IH']; simpl.
  - constructor.
  - destruct (f x); [now constructor|exact IH].
  - destruct (f x), (f y); try reflexivity. apply perm_swap.
  - now transitivity (filter f l').
Qed.

Lemma strongly_sorted_filter {A} (R : A -> A -> Prop) (f : A -> bool) (l : list A) :
  StronglySorted R l -> StronglySorted R (filter f l).
Proof.
  induction 1 as [|x l Hs IH Hx]; simpl; [constructor|].
  destruct (f x); [|exact IH]. constructor; [exact IH|].
  rewrite Forall_forall in Hx |- *. intros y Hy. apply Hx.
  apply filter_In in Hy. tauto.
Qed.

Lemma strongly_sorted_impl {A} (R R' : A -> A -> Prop) (l : list A) :
  (forall x y, In x l -> In y l -> R x y -> R' x y) ->
  StronglySorted R l -> StronglySorted R' l.
Proof.
  intros Himp Hs. induction Hs as [|x l Hs IH Hx]; [constructor|].
  constructor.
  - apply IH. intros a b Ha Hb. apply Himp; now right.
  - rewrite Forall_forall in Hx |- *. intros y Hy.
    apply Himp; [now left|now right|now apply Hx].
Qed.

Section TreeOrder.

Import Tree.

Variable isdir : string -> bool.
Variable reviewer_folder_name : string.

Local Abbreviation loop := (tree_loop isdir).

Lemma item_le_total (d x y : string) :
  item_le isdir d x y = true \/ item_le isdir d y x = true.
Proof. apply key_le_total. Qed.

Lemma item_le_trans (d x y z : string) :
  item_le isdir d x y = true -> item_le isdir d y z = true -> item_le isdir d x z = true.
Proof. apply key_le_trans. Qed.

Lemma item_le_antisym (d x y : string) :
  item_le isdir d x y = true -> item_le isdir d y x = true -> x = y.
Proof.
  intros H1 H2. pose proof (key_le_antisym _ _ H1 H2) as Hk.
  unfold custom_sort in Hk.
  destruct (isdir (path_join d x)), (isdir (path_join d y)); now inversion Hk.
Qed.

(** A plain file sorts before a directory, and two plain files by name. *)
Lemma item_le_dir_first (d x y : string) :
  isdir (path_join d x) = true -> item_le isdir d x y = true ->
  isdir (path_join d y) = true.
Proof.
  unfold item_le, custom_sort, key_le. intros ->.
  destruct (isdir (path_join d y)); [reflexivity|]. simpl. discriminate.
Qed.

Lemma item_le_plain (d x y : string) :
  isdir (path_join d x) = false -> isdir (path_join d y) = false ->
  item_le isdir d x y = String.leb x y.
Proof. unfold item_le, custom_sort, key_le. now intros -> ->. Qed.

(** A sorted list of items is its plain files followed by its directories. *)
Lemma sorted_files_first (d : string) (l : list string) :
  StronglySorted (fun a b => item_le isdir d a b = true) l ->
  l = filter (fun x => negb (isdir (path_join d x))) l
      ++ filter (fun x => isdir (path_join d x)) l.
Proof.
  induction 1 as [|x l Hs IH Hx]; simpl; [reflexivity|].
  destruct (isdir (path_join d x)) eqn:Hd; simpl.
  - assert (Hall : forallb (fun y => isdir (path_join d y)) l = true).
    { apply forallb_forall. intros y Hy. rewrite Forall_forall in Hx.
      exact (item_le_dir_first d x y Hd (Hx y Hy)). }
    rewrite (forallb_filter_id _ _ Hall).
    assert (Hnone : filter (fun y => negb (isdir (path_join d y))) l = []).
    { clear -Hall. induction l as [|y l IHl]; simpl in *; [reflexivity|].
      apply andb_true_iff in Hall. destruct Hall as [-> Hall]. simpl. now apply IHl. }
    now rewrite Hnone.
  - now rewrite <- IH.
Qed.

(** The loop appends to the file list it is given. *)
Lemma prepend_files_app (a b : list string) (r : tree_result) :
  prepend_files a (prepend_files b r) = prepend_files (a ++ b) r.
Proof. destruct r; simpl; [now rewrite app_assoc|reflexivity|reflexivity]. Qed.

Lemma tree_loop_acc (recurse : string -> string -> tree_result)
  (dir_tree prefix : string) (n : Z) :
  forall names i p acc,
    loop recurse dir_tree prefix n i names p acc
    = prepend_files acc (loop recurse dir_tree prefix n i names p []).
Proof.
  intros names. induction names as [|item rest IH]; intros i p acc.
  - simpl. now rewrite app_nil_r.
  - simpl. destruct (isdir (path_join dir_tree item)).
    + destruct (i =? n - 1)%Z;
        match goal with
        | |- match recurse ?a ?b with _ => _ end = _ =>
            destruct (recurse a b) as [t' fs'| |]; try reflexivity;
            rewrite (IH _ _ (acc ++ fs')), (IH _ _ fs');
            now rewrite prepend_files_app
        end.
    + rewrite (IH _ _ (acc ++ _)), (IH _ _ [_]). now rewrite prepend_files_app.
Qed.

(** Plain files at the head of the items go to the file list as they come. *)
Lemma tree_loop_plain (recurse : string -> string -> tree_result)
  (dir_tree prefix : string) (n : Z) (rest : list string) :
  forall plain i p acc,
    forallb (fun x => negb (isdir (path_join dir_tree x))) plain = true ->
    exists i' p',
      loop recurse dir_tree prefix n i (plain ++ rest) p acc
      = loop recurse dir_tree prefix n i' rest p'
          (acc ++ map (path_join dir_tree) plain).
Proof.
  intros plain. induction plain as [|x plain IH]; intros i p acc Hall.
  - exists i, p. simpl. now rewrite app_nil_r.
  - simpl in Hall. apply andb_true_iff in Hall. destruct Hall as [Hx Hall].
    apply negb_true_iff in Hx. simpl. rewrite Hx.
    match goal with
    | |- exists _ _, loop _ _ _ _ ?j _ ?q ?a = _ =>
        destruct (IH j q a Hall) as (i' & p' & ->)
    end.
    exists i', p'. now rewrite <- app_assoc.
Qed.

Lemma tree_loop_ext (recurse recurse' : string -> string -> tree_result)
  (dir_tree prefix : string) (n : Z) :
  (forall path pre, recurse path pre = recurse' path pre) ->
  forall names i p acc,
    loop recurse dir_tree prefix n i names p acc
    = loop recurse' dir_tree prefix n i names p acc.
Proof.
  intros Hrec names. induction names as [|item rest IH]; intros i p acc; simpl.
  - reflexivity.
  - destruct (isdir (path_join dir_tree item)); [|apply IH].
    destruct (i =? n - 1)%Z; rewrite Hrec;
      match goal with
      | |- match ?r with _ => _ end = _ => destruct r; try reflexivity; apply IH
      end.
Qed.

(** X6.  The result of [project_tree] does not depend on the order in
    which [os.listdir] returns the names: two file systems whose listings
    are permutations of each other (and fail on the same directories)
    give the same tree text and the same file list, in the same order. *)
Theorem project_tree_listing_order
  (listdir listdir' : string -> option (list string)) :
  (forall d,
     match listdir d, listdir' d with
     | Some names, Some names' => Permutation names names'
     | None, None => True
     | _, _ => False
     end) ->
  forall fuel ignore_starts_with ignore_ends_with ignore_equals dir_tree level prefix,
    project_tree listdir isdir reviewer_folder_name fuel
      ignore_starts_with ignore_ends_with ignore_equals dir_tree level prefix
    = project_tree listdir' isdir reviewer_folder_name fuel
        ignore_starts_with ignore_ends_with ignore_equals dir_tree level prefix.
Proof.
  intros Hperm fuel. induction fuel as [|fuel IH];
    intros osw oew oeq dir_tree level prefix; [reflexivity|].
  simpl. specialize (Hperm dir_tree).
  destruct (listdir dir_tree) as [names|], (listdir' dir_tree) as [names'|];
    try contradiction; [|reflexivity].
  match goal with
  | |- context [filter_items names ?a ?b ?c] =>
      rewrite (sort_by_perm_eq (item_le isdir dir_tree)
                 (item_le_total dir_tree) (item_le_trans dir_tree)
                 (item_le_antisym dir_tree)
                 (filter_items names a b c) (filter_items names' a b c))
        by (unfold filter_items; now apply perm_filter)
  end.
  apply tree_loop_ext. intros path pre. apply IH.
Qed.

(** X7.  The file list of a directory starts with the directory's own
    files that pass the filters, in ascending order of their names, and
    goes on with files listed from its passing subdirectories only: a file
    of a directory always comes before the files below it. *)
Theorem project_tree_files_first
  (listdir : string -> option (list string))
  (fuel : nat) (sw ew eq : list string) (dir_tree : string) (level : Z)
  (prefix p_tree : string) (files listing : list string) :
  project_tree listdir isdir reviewer_folder_name fuel (Some sw) (Some ew) (Some eq)
    dir_tree level prefix = TreeOk p_tree files ->
  listdir dir_tree = Some listing ->
  exists plain rest,
    files = map (path_join dir_tree) plain ++ rest
    /\ Permutation plain
         (filter (fun x => negb (isdir (path_join dir_tree x)))
            (filter_items listing sw ew eq))
    /\ StronglySorted (fun a b => String.leb a b = true) plain
    /\ forall f, In f rest ->
         exists item,
           In item (filter_items listing sw ew eq)
           /\ isdir (path_join dir_tree item) = true
           /\ Tree.lists listdir isdir sw ew eq (path_join dir_tree item) f.
Proof.
  intros Hwalk Hls. destruct fuel as [|fuel]; [discriminate|].
  simpl in Hwalk. rewrite Hls in Hwalk.
  set (sorted := sort_by (item_le isdir dir_tree) (filter_items listing sw ew eq)) in *.
  set (n := Z.of_nat (length sorted)) in *. clearbody n.
  assert (Hsorted : StronglySorted (fun a b => item_le isdir dir_tree a b = true) sorted)
    by (apply sort_by_sorted; [apply item_le_total|apply item_le_trans]).
  set (plain := filter (fun x => negb (isdir (path_join dir_tree x))) sorted).
  set (dirs := filter (fun x => isdir (path_join dir_tree x)) sorted).
  assert (Hsplit : sorted = plain ++ dirs) by (apply sorted_files_first; exact Hsorted).
  rewrite Hsplit in Hwalk.
  match type of Hwalk with
  | loop ?rec _ _ _ _ _ _ _ = _ =>
      destruct (tree_loop_plain rec dir_tree prefix n dirs plain 0%Z EmptyString []
                  (forallb_filter _ sorted)) as (i' & p' & Heq);
      rewrite Heq, tree_loop_acc in Hwalk;
      destruct (loop rec dir_tree prefix n i' dirs p' []) as [t' tail| |] eqn:Hd;
      try discriminate
  end.
  simpl in Hwalk. inversion Hwalk; subst. exists plain, tail.
  split; [reflexivity|]. split; [|split].
  - apply perm_filter. symmetry. apply sort_by_perm.
  - apply (strongly_sorted_impl (fun a b => item_le isdir dir_tree a b = true)).
    + intros x y Hx Hy Hle. unfold plain in Hx, Hy.
      apply filter_In in Hx, Hy. destruct Hx as [_ Hx], Hy as [_ Hy].
      apply negb_true_iff in Hx, Hy. now rewrite <- (item_le_plain dir_tree x y Hx Hy).
    + now apply strongly_sorted_filter.
  - intros f Hf.
    apply (tree_loop_files isdir _ (Tree.lists listdir isdir sw ew eq) dir_tree prefix n
             (fun path pre t fs H =>
                project_tree_files listdir isdir reviewer_folder_name sw ew eq fuel
                  path (level + 1)%Z pre t fs H)
             _ _ _ _ _ _ Hd f) in Hf.
    destruct Hf as [[]|(item & Hin & H)].
    unfold dirs in Hin. apply filter_In in Hin. destruct Hin as [Hin Hdir].
    exists item. split; [|split; [exact Hdir|]].
    + now apply in_sort_by in Hin.
    + destruct H as [[Hnd _]|[_ H]]; [congruence|exact H].
Qed.

End TreeOrder.

(** ** The script: the walk and the pipeline together *)


Section ScriptFacts.

Variable client : string -> list message -> option Z -> option string.
Variable open_read : string -> option string.
Variable relpath : string -> string -> string.
Variable listdir : string -> option (list string).
Variable isdir : string -> bool.
Variable reviewer_folder_name local_path : string.

Local Abbreviation run_script :=
  (Tree.script client open_read relpath listdir isdir reviewer_folder_name local_path).


(** X5.  When the script gets as far as [main], the identifiers of the
    detail prompts are exactly the relative paths of the files that the
    walk lists under the rules of the command line and that pass the
    marker test. *)
Theorem script_reviews_listed_files (fuel : nat) (args : Tree.cli_args) (run : io unit) :
  run_script fuel args = Some run ->
  exists p_tree files,
    run = main client open_read relpath (fun _ => (p_tree, files)) local_path
            (Tree.cli_reviewer_dir args) (Tree.arg_directory args)
    /\ forall k,
         In k (keys (detail_analysis_prompt_dict open_read relpath
                       (fun _ => (p_tree, files)) local_path (Tree.arg_directory args)))
         <-> exists f,
               Tree.lists listdir isdir (Tree.cli_starts_with args)
                 (Tree.cli_ends_with args)
                 (Tree.cli_equals reviewer_folder_name args)
                 (Tree.arg_directory args) f
               /\ relpath f (Tree.arg_directory args) = k
               /\ passes open_read relpath (Tree.arg_directory args) f = true.
Proof.
  unfold Tree.script. intros Hrun.
  destruct (Tree.project_tree _ _ _ _ _ _ _ _ _ _) as [p_tree files| |] eqn:Hwalk;
    try discriminate.
  inversion Hrun; subst run. exists p_tree, files. split; [reflexivity|].
  intros k. unfold detail_analysis_prompt_dict, detail_prompts. simpl snd.
  rewrite in_keys_fold_prompts. split.
  - intros [[]|(f & Hin & Hrel & Hpass)]. exists f. split; [|now split].
    now apply (project_tree_files _ _ _ _ _ _ _ _ _ _ _ _ Hwalk).
  - intros (f & Hl & Hrel & Hpass). right. exists f. split; [|now split].
    now apply (project_tree_files _ _ _ _ _ _ _ _ _ _ _ _ Hwalk).
Qed.

End ScriptFacts.

(** ** The walk on the sample project *)

Example sample_walk_files :
  exists p_tree,
    Tree.project_tree Tree.sample_listdir Tree.sample_isdir "AICodeReviewer" 5
      None None None "proj" 0 EmptyString
    = Tree.TreeOk p_tree
        ["proj/a.py"; "proj/b.py"; "proj/src/util.py"; "proj/src/core/a.py";
         "proj/src/core/z.py"].
Proof. eexists. vm_compute. reflexivity. Qed.

Example sample_walk_too_deep :
  Tree.project_tree Tree.sample_listdir Tree.sample_isdir "AICodeReviewer" 2
    None None None "proj" 0 EmptyString
  = Tree.RecursionError.
Proof. reflexivity. Qed.

Lemma project_tree_lists_exactly_witness :
  exists p_tree files,
    Tree.project_tree Tree.sample_listdir Tree.sample_isdir "AICodeReviewer" 5
      None None None "proj" 0 EmptyString = Tree.TreeOk p_tree files
    /\ forall f,
         In f files
         <-> Tree.lists Tree.sample_listdir Tree.sample_isdir Tree.IGNORE_STARTS_WITH
               Tree.IGNORE_ENDS_WITH (Tree.IGNORE_EQUALS "AICodeReviewer") "proj" f.
Proof.
  eexists. eexists. split; [vm_compute; reflexivity|].
  eapply (project_tree_lists_exactly Tree.sample_listdir Tree.sample_isdir
            "AICodeReviewer" 5 None None None "proj" 0%Z EmptyString).
  vm_compute. reflexivity.
Defined.

Ltac sample_within :=
  repeat match goal with
         | |- Tree.within _ _ _ _ _ _ _ => simpl Tree.within
         | |- exists _, _ /\ _ => eexists; split; [vm_compute; reflexivity|]
         | |- forall _, In _ _ -> _ -> _ =>
             let item := fresh "item" in
             let Hin := fresh "Hin" in
             let Hdir := fresh "Hdir" in
             intros item Hin Hdir; vm_compute in Hin;
             repeat (destruct Hin as [Hin|Hin]; [subst item|]);
             try contradiction; vm_compute in Hdir; try discriminate
         end.

Lemma project_tree_budget_witness :
  (exists p_tree files,
     Tree.project_tree Tree.sample_listdir Tree.sample_isdir "AICodeReviewer" 3
       (Some Tree.IGNORE_STARTS_WITH) (Some Tree.IGNORE_ENDS_WITH)
       (Some (Tree.IGNORE_EQUALS "AICodeReviewer")) "proj" 0 EmptyString
     = Tree.TreeOk p_tree files
     /\ Tree.project_tree Tree.sample_listdir Tree.sample_isdir "AICodeReviewer" 9
          (Some Tree.IGNORE_STARTS_WITH) (Some Tree.IGNORE_ENDS_WITH)
          (Some (Tree.IGNORE_EQUALS "AICodeReviewer")) "proj" 0 EmptyString
        = Tree.TreeOk p_tree files)
  /\ exists p_tree files,
       Tree.project_tree Tree.sample_listdir Tree.sample_isdir "AICodeReviewer" 3
         (Some Tree.IGNORE_STARTS_WITH) (Some Tree.IGNORE_ENDS_WITH)
         (Some (Tree.IGNORE_EQUALS "AICodeReviewer")) "proj" 0 EmptyString
       = Tree.TreeOk p_tree files.
Proof.
  split.
  - eexists. eexists. split; [vm_compute; reflexivity|].
    apply (proj1 (project_tree_budget Tree.sample_listdir Tree.sample_isdir
                    "AICodeReviewer" Tree.IGNORE_STARTS_WITH Tree.IGNORE_ENDS_WITH
                    (Tree.IGNORE_EQUALS "AICodeReviewer") 3 "proj" 0%Z EmptyString)).
    + lia.
    + vm_compute. reflexivity.
  - apply (proj2 (project_tree_budget Tree.sample_listdir Tree.sample_isdir
                    "AICodeReviewer" Tree.IGNORE_STARTS_WITH Tree.IGNORE_ENDS_WITH
                    (Tree.IGNORE_EQUALS "AICodeReviewer") 3 "proj" 0%Z EmptyString) 3).
    + sample_within.
    + lia.
Defined.

Lemma cli_rules_only_narrow_witness :
  exists files files0,
    (incl files files0
     /\ forall f, In f files ->
          exists d names item,
            Tree.enters Tree.sample_listdir Tree.sample_isdir
              Tree.IGNORE_STARTS_WITH Tree.IGNORE_ENDS_WITH
              (Tree.IGNORE_EQUALS "AICodeReviewer")
              (Tree.arg_directory Tree.sample_args) d
            /\ Tree.sample_listdir d = Some names
            /\ In item names
            /\ Tree.sample_isdir (Tree.path_join d item) = false
            /\ f = Tree.path_join d item
            /\ existsb (fun p => Tree.startswith item p) Tree.IGNORE_STARTS_WITH = false
            /\ existsb (fun e => Tree.endswith item e) Tree.IGNORE_ENDS_WITH = false
            /\ existsb (fun x => String.eqb x item) (Tree.IGNORE_EQUALS "AICodeReviewer")
               = false
            /\ existsb (fun p => Tree.startswith item p)
                 (Tree.arg_ignore_starts_with Tree.sample_args) = false
            /\ existsb (fun e => Tree.endswith item e)
                 (Tree.arg_ignore_ends_with Tree.sample_args) = false
            /\ existsb (fun x => String.eqb x item)
                 (Tree.arg_ignore_equals Tree.sample_args) = false)
    /\ files <> files0.
Proof.
  eexists. eexists. split.
  - eapply (cli_rules_only_narrow Tree.sample_listdir Tree.sample_isdir "AICodeReviewer"
              Tree.sample_args 5 5 0%Z 0%Z EmptyString EmptyString).
    + vm_compute. reflexivity.
    + vm_compute. reflexivity.
  - discriminate.
Defined.


Lemma script_reviews_listed_files_witness :
  exists run,
    Tree.script Sample.steady_client Sample.disk Sample.strip_base Tree.sample_listdir
      Tree.sample_isdir "AICodeReviewer" "rev" 5 Tree.sample_args = Some run
    /\ exists p_tree files,
         run = main Sample.steady_client Sample.disk Sample.strip_base
                 (fun _ => (p_tree, files)) "rev"
                 (Tree.cli_reviewer_dir Tree.sample_args)
                 (Tree.arg_directory Tree.sample_args)
         /\ forall k,
              In k (keys (detail_analysis_prompt_dict Sample.disk Sample.strip_base
                            (fun _ => (p_tree, files)) "rev"
                            (Tree.arg_directory Tree.sample_args)))
              <-> exists f,
                    Tree.lists Tree.sample_listdir Tree.sample_isdir
                      (Tree.cli_starts_with Tree.sample_args)
                      (Tree.cli_ends_with Tree.sample_args)
                      (Tree.cli_equals "AICodeReviewer" Tree.sample_args)
                      (Tree.arg_directory Tree.sample_args) f
                    /\ Sample.strip_base f (Tree.arg_directory Tree.sample_args) = k
                    /\ passes Sample.disk Sample.strip_base
                         (Tree.arg_directory Tree.sample_args) f = true.
Proof.
  eexists. split; [vm_compute; reflexivity|].
  apply (script_reviews_listed_files Sample.steady_client Sample.disk Sample.strip_base
           Tree.sample_listdir Tree.sample_isdir "AICodeReviewer" "rev" 5
           Tree.sample_args).
  vm_compute. reflexivity.
Defined.

Lemma project_tree_listing_order_witness :
  Tree.project_tree Tree.sample_listdir Tree.sample_isdir "AICodeReviewer" 5
    None None None "proj" 0 EmptyString
  = Tree.project_tree Tree.sample_listdir_rev Tree.sample_isdir "AICodeReviewer" 5
      None None None "proj" 0 EmptyString.
Proof.
  apply (project_tree_listing_order Tree.sample_isdir "AICodeReviewer"
           Tree.sample_listdir Tree.sample_listdir_rev).
  intros d. unfold Tree.sample_listdir_rev.
  destruct (Tree.sample_listdir d); [apply Permutation_rev|exact I].
Defined.

Lemma project_tree_files_first_witness :
  exists plain rest,
    ["proj/a.py"; "proj/b.py"; "proj/src/util.py"; "proj/src/core/a.py";
     "proj/src/core/z.py"]
    = map (Tree.path_join "proj") plain ++ rest
    /\ Permutation plain
         (filter (fun x => negb (Tree.sample_isdir (Tree.path_join "proj" x)))
            (Tree.filter_items
               ["src"; "README.md"; ".git"; "b.py"; "a.py"; "venv"; "poetry.lock"]
               Tree.IGNORE_STARTS_WITH Tree.IGNORE_ENDS_WITH
               (Tree.IGNORE_EQUALS "AICodeReviewer")))
    /\ StronglySorted (fun a b => String.leb a b = true) plain
    /\ forall f, In f rest ->
         exists item,
           In item (Tree.filter_items
                      ["src"; "README.md"; ".git"; "b.py"; "a.py"; "venv"; "poetry.lock"]
                      Tree.IGNORE_STARTS_WITH Tree.IGNORE_ENDS_WITH
                      (Tree.IGNORE_EQUALS "AICodeReviewer"))
           /\ Tree.sample_isdir (Tree.path_join "proj" item) = true
           /\ Tree.lists Tree.sample_listdir Tree.sample_isdir Tree.IGNORE_STARTS_WITH
                Tree.IGNORE_ENDS_WITH (Tree.IGNORE_EQUALS "AICodeReviewer")
                (Tree.path_join "proj" item) f.
Proof.
  eapply (project_tree_files_first Tree.sample_isdir "AICodeReviewer" Tree.sample_listdir
            5 Tree.IGNORE_STARTS_WITH Tree.IGNORE_ENDS_WITH
            (Tree.IGNORE_EQUALS "AICodeReviewer") "proj" 0%Z EmptyString).
  - vm_compute. reflexivity.
  - reflexivity.
Defined.

(** * The effects of a phase, in order *)

Lemma written_app (directory name : string) (tr tr' : list event) :
  written directory name (tr ++ tr')
  = written directory name tr ++ written directory name tr'.
Proof.
  induction tr as [|[model ms sd|d n data] tr IH]; simpl; [reflexivity|exact IH|].
  destruct (String.eqb d directory && String.eqb n name); simpl; now rewrite IH.
Qed.

Lemma written_requests (directory name : string) (b : dict (list message)) :
  written directory name (map (fun kv => Request MODEL (snd kv) (Some SEED)) b) = [].
Proof. induction b as [|kv b IH]; simpl; [reflexivity|exact IH]. Qed.

Lemma requests_of_requests (b : dict (list message)) :
  requests (map (fun kv => Request MODEL (snd kv) (Some SEED)) b)
  = map (fun kv => (snd kv, Some SEED)) b.
Proof. induction b as [|kv b IH]; simpl; [reflexivity|now rewrite IH]. Qed.

Section PhaseEffects.

Variable client : string -> list message -> option Z -> option string.
Variable Acc : Type.
Variable record : Acc -> string * string -> io Acc.
Variable writes : string * string -> list event.
Variable update : Acc -> string * string -> Acc.
Hypothesis record_spec : forall acc kr, record acc kr = (writes kr, Ok (update acc kr)).

Lemma phase_loop_cons (b : dict (list message)) (batches : list (dict (list message)))
  (acc : Acc) :
  Sched.phase_loop client Acc record (b :: batches) acc
  = (s <- (results <- process_batch client b ;; for_each record results acc) ;;
     Sched.phase_loop client Acc record batches s).
Proof. reflexivity. Qed.

(** Batches whose requests all succeed: one block of events per batch. *)
Lemma phase_loop_ok (batches : list (dict (list message))) (acc : Acc) :
  forallb (fun kv => succeeds client (snd kv)) (concat batches) = true ->
  Sched.phase_loop client Acc record batches acc
  = (flat_map (batch_events client writes) batches,
     Ok (fold_left update (answers client (concat batches)) acc)).
Proof.
  revert acc. induction batches as [|b batches IH]; intros acc Hall.
  - reflexivity.
  - simpl concat in *. rewrite forallb_app in Hall. apply andb_true_iff in Hall.
    destruct Hall as [Hb Hrest].
    rewrite phase_loop_cons, (stage_body_ok client Acc record writes update record_spec b acc Hb).
    erewrite bind_ok by reflexivity. rewrite (IH _ Hrest). simpl flat_map.
    cbn [events outcome fst snd]. rewrite events_process_batch.
    unfold batch_events, answers. rewrite map_app, fold_left_app. reflexivity.
Qed.

(** A failing batch after batches that succeed: the loop stops once the
    requests of the failing batch are sent. *)
Lemma phase_loop_stops (pre post : list (dict (list message))) (b : dict (list message))
  (acc : Acc) :
  forallb (fun kv => succeeds client (snd kv)) (concat pre) = true ->
  forallb (fun kv => succeeds client (snd kv)) b = false ->
  Sched.phase_loop client Acc record (pre ++ b :: post) acc
  = (flat_map (batch_events client writes) pre
       ++ map (fun kv => Request MODEL (snd kv) (Some SEED)) b,
     Raise ServiceError).
Proof.
  revert acc. induction pre as [|b0 pre IH]; intros acc Hpre Hb.
  - simpl app. rewrite phase_loop_cons,
      (stage_body_raise client Acc record b acc Hb).
    erewrite bind_raise by reflexivity. cbn [events fst flat_map app].
    now rewrite events_process_batch.
  - simpl concat in Hpre. rewrite forallb_app in Hpre. apply andb_true_iff in Hpre.
    destruct Hpre as [Hb0 Hpre]. simpl app.
    rewrite phase_loop_cons,
      (stage_body_ok client Acc record writes update record_spec b0 acc Hb0).
    erewrite bind_ok by reflexivity. rewrite (IH _ Hpre Hb). simpl flat_map.
    cbn [events outcome fst snd]. rewrite events_process_batch.
    unfold batch_events. now rewrite <- !app_assoc.
Qed.

(** The batches split at the first one with a failing request, if any. *)
Lemma first_failing_batch (batches : list (dict (list message))) :
  forallb (fun kv => succeeds client (snd kv)) (concat batches) = false ->
  exists pre b post,
    batches = pre ++ b :: post
    /\ forallb (fun kv => succeeds client (snd kv)) (concat pre) = true
    /\ forallb (fun kv => succeeds client (snd kv)) b = false.
Proof.
  induction batches as [|b batches IH]; simpl; [discriminate|].
  rewrite forallb_app. intros Hall.
  destruct (forallb (fun kv => succeeds client (snd kv)) b) eqn:Hb.
  - destruct (IH Hall) as (pre & b' & post & -> & Hpre & Hb').
    exists (b :: pre), b', post. repeat split; [|exact Hb'].
    simpl. now rewrite forallb_app, Hb, Hpre.
  - now exists [], b, batches.
Qed.

End PhaseEffects.

(** ** What the phases send and write *)

Lemma all_succeed (client : string -> list message -> option Z -> option string)
  (l : list (string * list message)) :
  (forall ms, client MODEL ms (Some SEED) <> None) ->
  forallb (fun kv => succeeds client (snd kv)) l = true.
Proof.
  intros Hup. apply forallb_forall. intros [k v] _. unfold succeeds. simpl.
  specialize (Hup v). now destruct (client MODEL v (Some SEED)).
Qed.

Lemma bind_lift_ok {A B} (a : A) (f : A -> io B) : bind (lift (Ok a)) f = f a.
Proof. unfold lift, bind. now destruct (f a). Qed.

Lemma detail_phase_loop (client : string -> list message -> option Z -> option string)
  (reviewer_dir : string) (M : dict (list message)) (c : Z)
  (batches : list (dict (list message))) :
  dict_to_batches M c = Ok batches ->
  detail_phase client reviewer_dir M c
  = Sched.phase_loop client (dict string) (detail_record reviewer_dir) batches [].
Proof.
  intros Hb. rewrite detail_phase_unfold, Hb.
  exact (bind_lift_ok batches
           (fun bs => Sched.phase_loop client (dict string) (detail_record reviewer_dir)
                        bs [])).
Qed.

Lemma short_phase_loop (client : string -> list message -> option Z -> option string)
  (reviewer_dir : string) (M : dict (list message)) (c : Z)
  (batches : list (dict (list message))) :
  dict_to_batches M c = Ok batches ->
  short_phase client reviewer_dir M c
  = Sched.phase_loop client (list string) (short_record reviewer_dir) batches [].
Proof.
  intros Hb. rewrite short_phase_unfold, Hb.
  exact (bind_lift_ok batches
           (fun bs => Sched.phase_loop client (list string) (short_record reviewer_dir)
                        bs [])).
Qed.

Lemma requests_batch_events
  (client : string -> list message -> option Z -> option string)
  (writes : string * string -> list event) (batches : list (dict (list message))) :
  (forall kr, requests (writes kr) = []) ->
  requests (flat_map (batch_events client writes) batches)
  = map (fun kv => (snd kv, Some SEED)) (concat batches).
Proof.
  intros Hw. induction batches as [|b batches IH]; simpl; [reflexivity|].
  rewrite requests_app, IH, map_app. f_equal. unfold batch_events.
  rewrite requests_app, requests_of_requests.
  assert (Hnone : forall rs, requests (flat_map writes rs) = []).
  { induction rs as [|kr rs IHrs]; simpl; [reflexivity|]. now rewrite requests_app, Hw, IHrs. }
  now rewrite Hnone, app_nil_r.
Qed.

Lemma requests_detail_writes (reviewer_dir : string) (kr : string * string) :
  requests (detail_writes reviewer_dir kr) = [].
Proof. reflexivity. Qed.

Lemma requests_short_writes (reviewer_dir : string) (kr : string * string) :
  requests (short_writes reviewer_dir kr) = [].
Proof. unfold short_writes. now destruct (str_in NO_CHANGES _). Qed.

(** X8.  A phase whose requests are all answered, run with a batch size
    [c] with [1 <= c <= sys.maxsize], works batch by batch: for each batch
    in turn it sends the requests of the batch, in the
    order of the batch, and then writes what it keeps of the results of
    that batch, in the same order, before any request of the next batch
    is sent. *)
Theorem phase_effects_in_order
  (client : string -> list message -> option Z -> option string)
  (reviewer_dir : string) (M : dict (list message)) (c : Z) :
  wf M -> (1 <= c <= maxsize)%Z ->
  (forall k v, In (k, v) M -> client MODEL v (Some SEED) <> None) ->
  exists batches,
    dict_to_batches M c = Ok batches
    /\ concat batches = items M
    /\ events (detail_phase client reviewer_dir M c)
       = flat_map (batch_events client (detail_writes reviewer_dir)) batches
    /\ events (short_phase client reviewer_dir M c)
       = flat_map (batch_events client (short_writes reviewer_dir)) batches.
Proof.
  intros Hwf Hc Hok. apply forallb_succeeds in Hok.
  destruct (dict_to_batches_spec M c Hwf Hc) as (batches & Hb & _ & Hcat & _).
  exists batches. split; [exact Hb|]. split; [exact Hcat|].
  unfold items in Hcat. rewrite <- Hcat in Hok. split.
  - rewrite (detail_phase_loop client reviewer_dir M c batches Hb).
    now rewrite (phase_loop_ok client _ _ _ _ (detail_record_spec reviewer_dir) batches [] Hok).
  - rewrite (short_phase_loop client reviewer_dir M c batches Hb).
    now rewrite (phase_loop_ok client _ _ _ _ (short_record_spec reviewer_dir) batches [] Hok).
Qed.

Lemma phase_effects_in_order_witness :
  exists batches,
    dict_to_batches Sample.three_prompts 2 = Ok batches
    /\ concat batches = items Sample.three_prompts
    /\ events (detail_phase Sample.steady_client "out" Sample.three_prompts 2)
       = flat_map (batch_events Sample.steady_client (detail_writes "out")) batches
    /\ events (short_phase Sample.steady_client "out" Sample.three_prompts 2)
       = flat_map (batch_events Sample.steady_client (short_writes "out")) batches.
Proof.
  apply (phase_effects_in_order Sample.steady_client "out" Sample.three_prompts 2).
  - exact three_prompts_wf.
  - unfold maxsize. lia.
  - intros k v _. discriminate.
Defined.

(** X9.  When a request fails, a phase run with a batch size [c] with
    [1 <= c <= sys.maxsize] stops at the first batch that holds a failing
    request: the batches before it are processed in full
    (requests and writes), the requests of that batch are all sent, and
    then nothing more happens: no result of that batch is written, and no
    request of a later batch is sent. *)
Theorem phase_stops_at_failing_batch
  (client : string -> list message -> option Z -> option string)
  (reviewer_dir : string) (M : dict (list message)) (c : Z)
  (k : string) (v : list message) :
  wf M -> (1 <= c <= maxsize)%Z ->
  In (k, v) M -> client MODEL v (Some SEED) = None ->
  exists pre b post,
    dict_to_batches M c = Ok (pre ++ b :: post)
    /\ forallb (fun kv => succeeds client (snd kv)) (concat pre) = true
    /\ forallb (fun kv => succeeds client (snd kv)) b = false
    /\ detail_phase client reviewer_dir M c
       = (flat_map (batch_events client (detail_writes reviewer_dir)) pre
            ++ map (fun kv => Request MODEL (snd kv) (Some SEED)) b,
          Raise ServiceError)
    /\ short_phase client reviewer_dir M c
       = (flat_map (batch_events client (short_writes reviewer_dir)) pre
            ++ map (fun kv => Request MODEL (snd kv) (Some SEED)) b,
          Raise ServiceError).
Proof.
  intros Hwf Hc Hin Hfail.
  destruct (dict_to_batches_spec M c Hwf Hc) as (batches & Hb & _ & Hcat & _).
  pose proof (exists_failing client M k v Hin Hfail) as Hall.
  unfold items in Hcat. rewrite <- Hcat in Hall.
  destruct (first_failing_batch client batches Hall) as (pre & b & post & -> & Hpre & Hbad).
  exists pre, b, post. split; [exact Hb|]. split; [exact Hpre|]. split; [exact Hbad|]. split.
  - rewrite (detail_phase_loop client reviewer_dir M c _ Hb).
    exact (phase_loop_stops client _ _ _ _ (detail_record_spec reviewer_dir)
             pre post b [] Hpre Hbad).
  - rewrite (short_phase_loop client reviewer_dir M c _ Hb).
    exact (phase_loop_stops client _ _ _ _ (short_record_spec reviewer_dir)
             pre post b [] Hpre Hbad).
Qed.

Lemma phase_stops_at_failing_batch_witness :
  exists pre b post,
    dict_to_batches Sample.three_prompts 1 = Ok (pre ++ b :: post)
    /\ forallb (fun kv => succeeds Sample.flaky_client (snd kv)) (concat pre) = true
    /\ forallb (fun kv => succeeds Sample.flaky_client (snd kv)) b = false
    /\ detail_phase Sample.flaky_client "out" Sample.three_prompts 1
       = (flat_map (batch_events Sample.flaky_client (detail_writes "out")) pre
            ++ map (fun kv => Request MODEL (snd kv) (Some SEED)) b,
          Raise ServiceError)
    /\ short_phase Sample.flaky_client "out" Sample.three_prompts 1
       = (flat_map (batch_events Sample.flaky_client (short_writes "out")) pre
            ++ map (fun kv => Request MODEL (snd kv) (Some SEED)) b,
          Raise ServiceError).
Proof.
  apply (phase_stops_at_failing_batch Sample.flaky_client "out" Sample.three_prompts 1
           "b.py"
           [to_openai_system_message "Review"; to_openai_user_message "b.py: print(2)"]).
  - exact three_prompts_wf.
  - unfold maxsize. lia.
  - simpl. right. left. reflexivity.
  - vm_compute. reflexivity.
Defined.

(** ** The report files *)

Lemma written_short_writes (reviewer_dir : string) (rs : list (string * string)) :
  written reviewer_dir SHORT_ANALYSIS_MD (flat_map (short_writes reviewer_dir) rs)
  = map (fun s => String.append s nl)
      (filter (fun s => negb (str_in NO_CHANGES s))
         (map (fun kr => format_title (fst kr) (snd kr)) rs)).
Proof.
  induction rs as [|kr rs IH]; simpl; [reflexivity|].
  rewrite written_app, IH. unfold short_writes.
  destruct (str_in NO_CHANGES (format_title (fst kr) (snd kr))); simpl; [reflexivity|].
  now rewrite !String.eqb_refl.
Qed.

Lemma written_detail_writes (reviewer_dir : string) (rs : list (string * string)) :
  written reviewer_dir DETAIL_ANALYSIS_MD (flat_map (detail_writes reviewer_dir) rs)
  = map (fun kr => String.append (format_title (fst kr) (snd kr)) nl) rs.
Proof.
  induction rs as [|kr rs IH]; simpl; [reflexivity|].
  now rewrite !String.eqb_refl, IH.
Qed.

Lemma written_batch_events
  (client : string -> list message -> option Z -> option string)
  (writes : string * string -> list event) (directory name : string)
  (batches : list (dict (list message))) :
  written directory name (flat_map (batch_events client writes) batches)
  = written directory name (flat_map writes (answers client (concat batches))).
Proof.
  induction batches as [|b batches IH]; simpl; [reflexivity|].
  unfold answers in *. rewrite map_app, flat_map_app, !written_app, IH.
  unfold batch_events. now rewrite written_app, written_requests.
Qed.

Lemma phase_loop_returns
  (client : string -> list message -> option Z -> option string)
  (Acc : Type) (record : Acc -> string * string -> io Acc)
  (writes : string * string -> list event) (update : Acc -> string * string -> Acc)
  (batches : list (dict (list message))) (acc R : Acc) :
  (forall acc kr, record acc kr = (writes kr, Ok (update acc kr))) ->
  outcome (Sched.phase_loop client Acc record batches acc) = Ok R ->
  Sched.phase_loop client Acc record batches acc
  = (flat_map (batch_events client writes) batches,
     Ok (fold_left update (answers client (concat batches)) acc)).
Proof.
  intros Hspec HR.
  destruct (forallb (fun kv => succeeds client (snd kv)) (concat batches)) eqn:Hall.
  - exact (phase_loop_ok client Acc record writes update Hspec batches acc Hall).
  - unfold Sched.phase_loop in HR.
    rewrite (stage_loop_raise client Acc record writes update Hspec batches acc Hall) in HR.
    discriminate.
Qed.

Lemma dict_to_batches_cases {V} (M : dict V) (c : Z) :
  (c = 0%Z /\ dict_to_batches M c = Raise ValueError)
  \/ ((c < 0)%Z /\ dict_to_batches M c = Ok [])
  \/ ((1 <= c)%Z).
Proof.
  unfold dict_to_batches, range_len.
  destruct (Z.eqb_spec c 0) as [->|Hne]; [now left|right].
  destruct (Z.ltb_spec 0 c); [right; lia|left]. split; [lia|].
  unfold len. destruct (Z.ltb_spec (Z.of_nat (length M)) 0); [lia|reflexivity].
Qed.

(** X10.  The report files say what the phases return.  Whenever the
    short phase returns, what it has appended to [short_analysis.md] is,
    entry by entry and in order, the list of texts it hands to the project
    phase; whenever the detail phase returns, what it has appended to
    [detail_analysis.md] is the values of its result dictionary, in order.
    (Each entry is followed by a line break.) *)
Theorem reports_match_results
  (client : string -> list message -> option Z -> option string)
  (reviewer_dir : string) (M : dict (list message)) (c : Z) :
  wf M ->
  (forall R,
     outcome (short_phase client reviewer_dir M c) = Ok R ->
     written reviewer_dir SHORT_ANALYSIS_MD (events (short_phase client reviewer_dir M c))
     = map (fun s => String.append s nl) R)
  /\ (forall D,
        outcome (detail_phase client reviewer_dir M c) = Ok D ->
        written reviewer_dir DETAIL_ANALYSIS_MD
          (events (detail_phase client reviewer_dir M c))
        = map (fun kv => String.append (snd kv) nl) D).
Proof.
  intros Hwf.
  assert (Hb : (exists e, dict_to_batches M c = Raise e)
               \/ exists batches, dict_to_batches M c = Ok batches /\ wf (concat batches)).
  { destruct (dict_to_batches_cases M c) as [[_ H]|[[_ H]|Hc]].
    - left. now exists ValueError.
    - right. exists []. split; [exact H|constructor].
    - destruct (Z.le_gt_cases c maxsize) as [Hmax|Hbig].
      + right.
        destruct (dict_to_batches_spec M c Hwf (conj Hc Hmax)) as (bs & H & _ & Hcat & _).
        exists bs. split; [exact H|]. now rewrite Hcat.
      + rewrite (dict_to_batches_too_large M c Hbig). destruct M as [|kv M'].
        * right. exists []. split; [reflexivity|constructor].
        * left. now exists ValueError. }
  destruct Hb as [(e & Hb)|(batches & Hb & Hwfb)].
  - split; intros X HX.
    + unfold short_phase in HX. rewrite Hb in HX. discriminate.
    + unfold detail_phase in HX. rewrite Hb in HX. discriminate.
  - split.
    + intros R HR. rewrite (short_phase_loop client reviewer_dir M c batches Hb) in *.
      pose proof (phase_loop_returns client _ _ _ _ batches [] R
                    (short_record_spec reviewer_dir) HR) as Heq.
      rewrite Heq in HR |- *. cbn [outcome events fst snd] in HR |- *.
      inversion HR as [HR']. rewrite fold_short_update. simpl app.
      now rewrite written_batch_events, written_short_writes.
    + intros D HD. rewrite (detail_phase_loop client reviewer_dir M c batches Hb) in *.
      pose proof (phase_loop_returns client (dict string) (detail_record reviewer_dir)
                    (detail_writes reviewer_dir) detail_update batches [] D
                    (detail_record_spec reviewer_dir) HD) as Heq.
      rewrite Heq in HD |- *. cbn [outcome events fst snd] in HD |- *.
      inversion HD as [HD']. rewrite fold_detail_update.
      * simpl app. rewrite written_batch_events, written_detail_writes.
        now rewrite map_map.
      * simpl. unfold answers. rewrite map_map. exact Hwfb.
Qed.

Lemma reports_match_results_witness :
  exists R D,
    outcome (short_phase Sample.steady_client "out" Sample.three_prompts 2) = Ok R
    /\ outcome (detail_phase Sample.steady_client "out" Sample.three_prompts 2) = Ok D
    /\ R <> [] /\ D <> []
    /\ written "out" SHORT_ANALYSIS_MD
         (events (short_phase Sample.steady_client "out" Sample.three_prompts 2))
       = map (fun s => String.append s nl) R
    /\ written "out" DETAIL_ANALYSIS_MD
         (events (detail_phase Sample.steady_client "out" Sample.three_prompts 2))
       = map (fun kv => String.append (snd kv) nl) D.
Proof.
  eexists. eexists.
  split; [vm_compute; reflexivity|]. split; [vm_compute; reflexivity|].
  split; [discriminate|]. split; [discriminate|].
  destruct (reports_match_results Sample.steady_client "out" Sample.three_prompts 2
              three_prompts_wf) as [Hshort Hdetail].
  split; [apply Hshort|apply Hdetail]; vm_compute; reflexivity.
Defined.

(** X12.  A batch size that is not positive: with 0 the batching raises
    [ValueError] (the step of [range]) and a phase ends with it before it
    sends anything; with a negative size the range is empty, so there is
    no batch at all and a phase returns an empty result without sending
    anything, however many prompts it was given. *)
Theorem batch_size_not_positive
  (client : string -> list message -> option Z -> option string)
  (reviewer_dir : string) (M : dict (list message)) (c : Z) :
  (c = 0%Z ->
   dict_to_batches M c = Raise ValueError
   /\ detail_phase client reviewer_dir M c = ([], Raise ValueError)
   /\ short_phase client reviewer_dir M c = ([], Raise ValueError))
  /\ ((c < 0)%Z ->
      dict_to_batches M c = Ok []
      /\ detail_phase client reviewer_dir M c = ([], Ok [])
      /\ short_phase client reviewer_dir M c = ([], Ok [])).
Proof.
  split; intros Hc; destruct (dict_to_batches_cases M c) as [[H0 H]|[[Hn H]|Hp]];
    try lia; (split; [exact H|]); unfold detail_phase, short_phase; rewrite H; now split.
Qed.

Lemma batch_size_not_positive_witness :
  (dict_to_batches Sample.three_prompts 0 = Raise ValueError
   /\ detail_phase Sample.steady_client "out" Sample.three_prompts 0
      = ([], Raise ValueError)
   /\ short_phase Sample.steady_client "out" Sample.three_prompts 0
      = ([], Raise ValueError))
  /\ (dict_to_batches Sample.three_prompts (-1) = Ok []
      /\ detail_phase Sample.steady_client "out" Sample.three_prompts (-1) = ([], Ok [])
      /\ short_phase Sample.steady_client "out" Sample.three_prompts (-1) = ([], Ok [])).
Proof.
  split.
  - apply (proj1 (batch_size_not_positive Sample.steady_client "out"
                    Sample.three_prompts 0)). reflexivity.
  - apply (proj2 (batch_size_not_positive Sample.steady_client "out"
                    Sample.three_prompts (-1))). lia.
Defined.

(** ** A run against a service that answers *)

Lemma short_prompts_map (short_analysis_prompt : string) (D : dict string) :
  wf D ->
  short_prompts short_analysis_prompt D
  = map (fun kv => (fst kv, [to_openai_system_message short_analysis_prompt;
                             to_openai_system_message (snd kv)])) D.
Proof.
  intros Hwf. unfold short_prompts, items.
  transitivity
    (fold_left (fun d kv => dict_set d (fst kv) (snd kv))
       (map (fun kv => (fst kv, [to_openai_system_message short_analysis_prompt;
                                 to_openai_system_message (snd kv)])) D) []).
  - clear Hwf. generalize (@nil (string * list message)).
    induction D as [|kv D IH]; intros acc; simpl; [reflexivity|]. apply IH.
  - apply (fold_dict_set_fresh _ []). simpl. rewrite map_map. exact Hwf.
Qed.

Section ServiceUp.

Variable client : string -> list message -> option Z -> option string.
Variable reviewer_dir : string.
Variable M : dict (list message).
Variable c : Z.
Hypothesis M_wf : wf M.
Hypothesis c_pos : (1 <= c <= maxsize)%Z.
Hypothesis M_ok : forallb (fun kv => succeeds client (snd kv)) M = true.

Lemma detail_phase_requests :
  requests (events (detail_phase client reviewer_dir M c))
  = map (fun kv => (snd kv, Some SEED)) M.
Proof.
  destruct (dict_to_batches_spec M c M_wf c_pos) as (batches & Hb & _ & Hcat & _).
  unfold items in Hcat.
  rewrite (detail_phase_loop client reviewer_dir M c batches Hb).
  rewrite (phase_loop_ok client _ _ _ _ (detail_record_spec reviewer_dir) batches [])
    by (now rewrite Hcat).
  cbn [events fst]. rewrite requests_batch_events, Hcat; [reflexivity|].
  apply requests_detail_writes.
Qed.

Lemma short_phase_requests :
  requests (events (short_phase client reviewer_dir M c))
  = map (fun kv => (snd kv, Some SEED)) M.
Proof.
  destruct (dict_to_batches_spec M c M_wf c_pos) as (batches & Hb & _ & Hcat & _).
  unfold items in Hcat.
  rewrite (short_phase_loop client reviewer_dir M c batches Hb).
  rewrite (phase_loop_ok client _ _ _ _ (short_record_spec reviewer_dir) batches [])
    by (now rewrite Hcat).
  cbn [events fst]. rewrite requests_batch_events, Hcat; [reflexivity|].
  apply requests_short_writes.
Qed.

End ServiceUp.

(** X11.  Against a completion service that answers every request, a run
    of [main] completes, and it sends two requests for every detail
    prompt (the detail request and the short request, also for the files
    whose short result is then filtered out) and one project request. *)
Theorem run_with_service_up
  (client : string -> list message -> option Z -> option string)
  (open_read : string -> option string) (relpath : string -> string -> string)
  (project_tree : string -> string * list string)
  (local_path reviewer_dir directory : string) :
  (forall ms, client MODEL ms (Some SEED) <> None) ->
  outcome (main client open_read relpath project_tree local_path reviewer_dir directory)
  = Ok tt
  /\ length (requests (events (main client open_read relpath project_tree local_path
                                 reviewer_dir directory)))
     = 2 * length (detail_analysis_prompt_dict open_read relpath project_tree local_path
                     directory) + 1.
Proof.
  intros Hup.
  set (P := detail_analysis_prompt_dict open_read relpath project_tree local_path directory).
  assert (HP : wf P) by (apply fold_prompts_wf; constructor).
  pose proof limit_in_range as H20.
  set (D := map (fun kv => (fst kv, titled client kv)) P).
  assert (HD : outcome (detail_phase client reviewer_dir P NUMBER_OF_CONCURRENT_REQUESTS)
               = Ok D)
    by (apply detail_phase_ok; [exact HP|exact H20|now apply all_succeed]).
  assert (HwfD : wf D) by (unfold wf, keys, D; rewrite map_map; exact HP).
  set (S := short_prompts (short_analysis_prompt open_read relpath local_path) D).
  assert (HS : S = map (fun kv => (fst kv,
                          [to_openai_system_message
                             (short_analysis_prompt open_read relpath local_path);
                           to_openai_system_message (snd kv)])) D)
    by (apply short_prompts_map; exact HwfD).
  assert (HwfS : wf S) by (unfold wf, keys; rewrite HS, map_map; exact HwfD).
  assert (HR : outcome (short_phase client reviewer_dir S NUMBER_OF_CONCURRENT_REQUESTS)
               = Ok (filter (fun s => negb (str_in NO_CHANGES s)) (map (titled client) S)))
    by (apply short_phase_ok; [exact HwfS|exact H20|now apply all_succeed]).
  split.
  - unfold main. cbv zeta.
    rewrite (outcome_bind_ok (write_to_md _ _ _) _ tt eq_refl).
    rewrite (outcome_bind_ok _ _ D HD), (outcome_bind_ok _ _ _ HR).
    unfold project_phase, openai_request.
    match goal with
    | |- context [client MODEL ?ms (Some SEED)] =>
        specialize (Hup ms); destruct (client MODEL ms (Some SEED)) as [text|];
        [|congruence]
    end.
    reflexivity.
  - rewrite (main_requests client open_read relpath project_tree local_path reviewer_dir
               directory D _ HD HR).
    fold P. fold S.
    rewrite (detail_phase_requests client reviewer_dir P _ HP H20 (all_succeed client P Hup)).
    rewrite (short_phase_requests client reviewer_dir S _ HwfS H20 (all_succeed client S Hup)).
    rewrite !length_app, !length_map. fold P. rewrite HS. unfold D.
    rewrite !length_map. simpl. lia.
Qed.

Lemma run_with_service_up_witness :
  outcome (main Sample.steady_client Sample.disk Sample.strip_base Sample.listing
             "rev" "out" "proj") = Ok tt
  /\ length (requests (events (main Sample.steady_client Sample.disk Sample.strip_base
                                 Sample.listing "rev" "out" "proj")))
     = 2 * length (detail_analysis_prompt_dict Sample.disk Sample.strip_base
                     Sample.listing "rev" "proj") + 1.
Proof.
  apply (run_with_service_up Sample.steady_client Sample.disk Sample.strip_base
           Sample.listing "rev" "out" "proj").
  intros ms. discriminate.
Defined.

(** ** The detail prompts *)

Section PromptFacts.

Variable open_read : string -> option string.
Variable relpath : string -> string -> string.

Lemma fold_prompts_in_order (dp directory : string) (files : list string)
  (d : dict (list message)) :
  NoDup (keys d ++ map (fun f => relpath f directory) files) ->
  fold_left
    (fun d f_path =>
       let (file_detail_analysis, relative_path) :=
         read_file_content open_read relpath f_path directory false in
       if str_in CANT_READ_FILE_MES file_detail_analysis then d
       else dict_set d relative_path
              [to_openai_system_message dp;
               to_openai_user_message file_detail_analysis])
    files d
  = d ++ map (fun f => (relpath f directory,
                        [to_openai_system_message dp;
                         to_openai_user_message
                           (fst (read_file_content open_read relpath f directory false))]))
         (filter (passes open_read relpath directory) files).
Proof.
  revert d. induction files as [|f files IH]; intros d Hnd; simpl fold_left.
  - simpl. now rewrite app_nil_r.
  - rewrite detail_prompts_step. simpl filter. simpl map in Hnd.
    destruct (passes open_read relpath directory f).
    + rewrite dict_set_fresh.
      * rewrite IH; [simpl; now rewrite <- app_assoc|].
        rewrite keys_app. simpl. now rewrite <- app_assoc.
      * apply NoDup_remove_2 in Hnd. intros Hin. apply Hnd. apply in_or_app. now left.
    + apply IH. now apply NoDup_remove_1 in Hnd.
Qed.

Lemma in_dict_set {V} (d : dict V) (k k0 : string) (v v0 : V) :
  In (k, v) (dict_set d k0 v0) -> (k, v) = (k0, v0) \/ In (k, v) d.
Proof.
  induction d as [|[k' v'] d IH]; simpl.
  - intros [H|[]]. left. now symmetry.
  - destruct (String.eqb_spec k' k0) as [->|Hne]; simpl.
    + intros [H|H]; [left; now symmetry|right; now right].
    + intros [H|H]; [right; now left|]. destruct (IH H); [now left|right; now right].
Qed.

End PromptFacts.

(** X13.  When the enumerated files have pairwise distinct relative
    paths, the detail prompts are the files that pass the marker test, in
    the order of the enumeration, each under its relative path with the
    detail instruction as system message and the titled content of the
    file as user message. *)
Theorem detail_prompts_in_order
  (open_read : string -> option string) (relpath : string -> string -> string)
  (detail_analysis_prompt directory : string) (project_files : list string) :
  NoDup (map (fun f => relpath f directory) project_files) ->
  detail_prompts open_read relpath detail_analysis_prompt directory project_files
  = map (fun f => (relpath f directory,
                   [to_openai_system_message detail_analysis_prompt;
                    to_openai_user_message
                      (fst (read_file_content open_read relpath f directory false))]))
        (filter (passes open_read relpath directory) project_files)
  /\ forall f text,
       open_read f = Some text ->
       fst (read_file_content open_read relpath f directory false)
       = String.append (String.append (file_title (relpath f directory)) text) nl.
Proof.
  intros Hnd. split.
  - unfold detail_prompts.
    now rewrite (fold_prompts_in_order open_read relpath detail_analysis_prompt directory
                   project_files [] Hnd).
  - intros f text Hf. unfold read_file_content. now rewrite Hf.
Qed.

Lemma detail_prompts_in_order_witness :
  detail_prompts Sample.disk Sample.strip_base "Review this file" "proj"
    (snd (Sample.listing "proj"))
  = map (fun f => (Sample.strip_base f "proj",
                   [to_openai_system_message "Review this file";
                    to_openai_user_message
                      (fst (read_file_content Sample.disk Sample.strip_base f "proj" false))]))
        (filter (passes Sample.disk Sample.strip_base "proj") (snd (Sample.listing "proj")))
  /\ forall f text,
       Sample.disk f = Some text ->
       fst (read_file_content Sample.disk Sample.strip_base f "proj" false)
       = String.append (String.append (file_title (Sample.strip_base f "proj")) text) nl.
Proof.
  apply (detail_prompts_in_order Sample.disk Sample.strip_base "Review this file" "proj"
           (snd (Sample.listing "proj"))).
  vm_compute. repeat constructor; simpl; intuition discriminate.
Defined.

(** X14.  The marker test guards the contents of the files, not the
    instructions: every detail prompt is the detail instruction as system
    message followed by one user message that does not contain "Can not
    read file"; the instruction is the content of the prompt file followed
    by a line break when that file can be read, and otherwise the text
    with the marker, which is then sent as the instruction of every
    detail request. *)
Theorem instructions_not_marker_tested
  (open_read : string -> option string) (relpath : string -> string -> string)
  (project_tree : string -> string * list string) (local_path directory : string) :
  (forall k ms,
     In (k, ms) (detail_analysis_prompt_dict open_read relpath project_tree local_path
                   directory) ->
     exists content,
       ms = [to_openai_system_message (detail_analysis_prompt open_read relpath local_path);
             to_openai_user_message content]
       /\ str_in CANT_READ_FILE_MES content = false)
  /\ (forall text,
        open_read (DETAIL_ANALYSIS_PROMPT local_path) = Some text ->
        detail_analysis_prompt open_read relpath local_path = String.append text nl)
  /\ (open_read (DETAIL_ANALYSIS_PROMPT local_path) = None ->
      str_in CANT_READ_FILE_MES (detail_analysis_prompt open_read relpath local_path)
      = true).
Proof.
  split; [|split].
  - unfold detail_analysis_prompt_dict, detail_prompts.
    generalize (snd (project_tree directory)). intros files.
    assert (Hgen : forall d : dict (list message),
              (forall k ms, In (k, ms) d ->
                 exists content,
                   ms = [to_openai_system_message
                           (detail_analysis_prompt open_read relpath local_path);
                         to_openai_user_message content]
                   /\ str_in CANT_READ_FILE_MES content = false) ->
              forall k ms,
                In (k, ms)
                  (fold_left
                     (fun d f_path =>
                        let (file_detail_analysis, relative_path) :=
                          read_file_content open_read relpath f_path directory false in
                        if str_in CANT_READ_FILE_MES file_detail_analysis then d
                        else dict_set d relative_path
                               [to_openai_system_message
                                  (detail_analysis_prompt open_read relpath local_path);
                                to_openai_user_message file_detail_analysis])
                     files d) ->
                exists content,
                  ms = [to_openai_system_message
                          (detail_analysis_prompt open_read relpath local_path);
                        to_openai_user_message content]
                  /\ str_in CANT_READ_FILE_MES content = false).
    { induction files as [|f files IH]; intros d Hd k ms; simpl fold_left.
      - apply Hd.
      - apply IH. rewrite detail_prompts_step.
        destruct (passes open_read relpath directory f) eqn:Hp; [|exact Hd].
        intros k' ms' Hin. apply in_dict_set in Hin. destruct Hin as [Heq|Hin].
        + inversion Heq; subst. eexists. split; [reflexivity|].
          unfold passes in Hp. now apply negb_true_iff in Hp.
        + exact (Hd k' ms' Hin). }
    apply Hgen. intros k ms [].
  - intros text Hf. unfold detail_analysis_prompt, read_file_content. now rewrite Hf.
  - intros Hf. unfold detail_analysis_prompt, read_file_content. rewrite Hf.
    cbn [fst]. apply cant_read_in_failure.
Qed.

Lemma instructions_not_marker_tested_witness :
  detail_analysis_prompt Sample.disk Sample.strip_base "rev"
  = String.append "Review this file" nl
  /\ str_in CANT_READ_FILE_MES (detail_analysis_prompt Sample.disk Sample.strip_base "gone")
     = true.
Proof.
  split.
  - apply (proj1 (proj2 (instructions_not_marker_tested Sample.disk Sample.strip_base
                           Sample.listing "rev" "proj"))). reflexivity.
  - apply (proj2 (proj2 (instructions_not_marker_tested Sample.disk Sample.strip_base
                           Sample.listing "gone" "proj"))). reflexivity.
Defined.

(** ** A failing request *)

Lemma written_flat_none (writes : string * string -> list event)
  (directory name : string) (rs : list (string * string)) :
  (forall kr, written directory name (writes kr) = []) ->
  written directory name (flat_map writes rs) = [].
Proof.
  intros Hw. induction rs as [|kr rs IH]; simpl; [reflexivity|].
  now rewrite written_app, Hw, IH.
Qed.

(** A phase writes to its own report only. *)
Lemma written_phase_other
  (client : string -> list message -> option Z -> option string)
  (Acc : Type) (record : Acc -> string * string -> io Acc)
  (writes : string * string -> list event) (update : Acc -> string * string -> Acc)
  (directory name : string) (batches : list (dict (list message))) (acc : Acc) :
  (forall acc kr, record acc kr = (writes kr, Ok (update acc kr))) ->
  (forall kr, written directory name (writes kr) = []) ->
  written directory name (events (Sched.phase_loop client Acc record batches acc)) = [].
Proof.
  intros Hspec Hw.
  destruct (forallb (fun kv => succeeds client (snd kv)) (concat batches)) eqn:Hall.
  - rewrite (phase_loop_ok client Acc record writes update Hspec batches acc Hall).
    cbn [events fst]. rewrite written_batch_events. now apply written_flat_none.
  - destruct (first_failing_batch client batches Hall)
      as (pre & b & post & -> & Hpre & Hbad).
    rewrite (phase_loop_stops client Acc record writes update Hspec pre post b acc
               Hpre Hbad).
    cbn [events fst]. rewrite written_app, written_batch_events, written_requests.
    now rewrite (written_flat_none writes directory name _ Hw).
Qed.

Section RunFailure.

Variable client : string -> list message -> option Z -> option string.
Variable open_read : string -> option string.
Variable relpath : string -> string -> string.
Variable project_tree : string -> string * list string.
Variable local_path : string.
Variable reviewer_dir : string.

Local Abbreviation run := (main client open_read relpath project_tree local_path reviewer_dir).
Local Abbreviation detail_input :=
  (detail_analysis_prompt_dict open_read relpath project_tree local_path).
Local Abbreviation short_prompt := (short_analysis_prompt open_read relpath local_path).
Local Abbreviation project_prompt := (project_analysis_prompt open_read relpath local_path).
Local Abbreviation tree_write directory :=
  (WriteMd reviewer_dir DETAIL_ANALYSIS_MD
     (String.append (tree_block (fst (project_tree directory))) nl)).

Lemma detail_phase_no_project_report (M : dict (list message)) (c : Z) :
  written reviewer_dir PROJECT_ANALYSIS_MD (events (detail_phase client reviewer_dir M c))
  = [].
Proof.
  destruct (dict_to_batches M c) as [batches|e] eqn:Hb.
  - rewrite (detail_phase_loop client reviewer_dir M c batches Hb).
    apply (written_phase_other client _ _ _ _ _ _ _ _ (detail_record_spec reviewer_dir)).
    intros kr. simpl. now rewrite andb_false_r.
  - unfold detail_phase. now rewrite Hb.
Qed.

Lemma short_phase_no_project_report (M : dict (list message)) (c : Z) :
  written reviewer_dir PROJECT_ANALYSIS_MD (events (short_phase client reviewer_dir M c))
  = [].
Proof.
  destruct (dict_to_batches M c) as [batches|e] eqn:Hb.
  - rewrite (short_phase_loop client reviewer_dir M c batches Hb).
    apply (written_phase_other client _ _ _ _ _ _ _ _ (short_record_spec reviewer_dir)).
    intros kr. unfold short_writes.
    destruct (str_in NO_CHANGES _); [reflexivity|]. simpl. now rewrite andb_false_r.
  - unfold short_phase. now rewrite Hb.
Qed.

(** An exception of the detail phase ends the run after the tree block
    and the events of that phase. *)
Lemma main_stops_detail (directory : string) (e : exn) :
  outcome (detail_phase client reviewer_dir (detail_input directory)
             NUMBER_OF_CONCURRENT_REQUESTS) = Raise e ->
  run directory
  = (tree_write directory
       :: events (detail_phase client reviewer_dir (detail_input directory)
                    NUMBER_OF_CONCURRENT_REQUESTS),
     Raise e).
Proof.
  intros HD. unfold main. cbv zeta.
  rewrite (bind_ok (write_to_md _ _ _) _ tt eq_refl).
  now rewrite (bind_raise _ _ e HD).
Qed.

(** An exception of the short phase ends the run after the events of the
    two phases. *)
Lemma main_stops_short (directory : string) (D : dict string) (e : exn) :
  outcome (detail_phase client reviewer_dir (detail_input directory)
             NUMBER_OF_CONCURRENT_REQUESTS) = Ok D ->
  outcome (short_phase client reviewer_dir (short_prompts short_prompt D)
             NUMBER_OF_CONCURRENT_REQUESTS) = Raise e ->
  run directory
  = (tree_write directory
       :: events (detail_phase client reviewer_dir (detail_input directory)
                    NUMBER_OF_CONCURRENT_REQUESTS)
       ++ events (short_phase client reviewer_dir (short_prompts short_prompt D)
                    NUMBER_OF_CONCURRENT_REQUESTS),
     Raise e).
Proof.
  intros HD HS. unfold main. cbv zeta.
  rewrite (bind_ok (write_to_md _ _ _) _ tt eq_refl).
  rewrite (bind_ok _ _ D HD). cbn [events outcome fst snd].
  now rewrite (bind_raise _ _ e HS).
Qed.

(** A failure of the project request ends the run after that request. *)
Lemma main_stops_project (directory : string) (D : dict string) (R : list string) :
  outcome (detail_phase client reviewer_dir (detail_input directory)
             NUMBER_OF_CONCURRENT_REQUESTS) = Ok D ->
  outcome (short_phase client reviewer_dir (short_prompts short_prompt D)
             NUMBER_OF_CONCURRENT_REQUESTS) = Ok R ->
  client MODEL (project_system_messages project_prompt R) (Some SEED) = None ->
  run directory
  = (tree_write directory
       :: events (detail_phase client reviewer_dir (detail_input directory)
                    NUMBER_OF_CONCURRENT_REQUESTS)
       ++ events (short_phase client reviewer_dir (short_prompts short_prompt D)
                    NUMBER_OF_CONCURRENT_REQUESTS)
       ++ [Request MODEL (project_system_messages project_prompt R) (Some SEED)],
     Raise ServiceError).
Proof.
  intros HD HS Hp. unfold main. cbv zeta.
  rewrite (bind_ok (write_to_md _ _ _) _ tt eq_refl).
  rewrite (bind_ok _ _ D HD). cbn [events outcome fst snd].
  rewrite (bind_ok _ _ R HS). cbn [events outcome fst snd].
  unfold project_phase, openai_request. rewrite Hp.
  erewrite bind_raise by reflexivity. reflexivity.
Qed.

(** A run in which a request fails ends with the service error and has
    not written the project report. *)
Lemma main_failing_request (directory : string) (ms : list message) :
  In (ms, Some SEED) (requests (events (run directory))) ->
  client MODEL ms (Some SEED) = None ->
  outcome (run directory) = Raise ServiceError
  /\ written reviewer_dir PROJECT_ANALYSIS_MD (events (run directory)) = [].
Proof.
  intros Hin Hfail.
  set (P := detail_input directory) in *.
  assert (HP : wf P) by (apply fold_prompts_wf; constructor).
  pose proof limit_in_range as H20.
  assert (Htree : forall tr,
            written reviewer_dir PROJECT_ANALYSIS_MD (tree_write directory :: tr)
            = written reviewer_dir PROJECT_ANALYSIS_MD tr).
  { intros tr. simpl. now rewrite andb_false_r. }
  assert (Hsent : forall (L : dict (list message)),
            forallb (fun kv => succeeds client (snd kv)) L = true ->
            ~ In (ms, Some SEED) (map (fun kv => (snd kv, Some SEED)) L)).
  { intros L HL Hm. apply in_map_iff in Hm. destruct Hm as (kv & Heq & Hkv).
    rewrite forallb_forall in HL. specialize (HL kv Hkv). unfold succeeds in HL.
    inversion Heq as [Hms]. rewrite Hms, Hfail in HL. discriminate. }
  destruct (forallb (fun kv => succeeds client (snd kv)) P) eqn:HPok.
  - set (D := map (fun kv => (fst kv, titled client kv)) P).
    assert (HD : outcome (detail_phase client reviewer_dir P NUMBER_OF_CONCURRENT_REQUESTS)
                 = Ok D)
      by (apply detail_phase_ok; assumption).
    assert (HwfD : wf D) by (unfold wf, keys, D; rewrite map_map; exact HP).
    set (S := short_prompts short_prompt D) in *.
    assert (HS : S = map (fun kv => (fst kv,
                            [to_openai_system_message short_prompt;
                             to_openai_system_message (snd kv)])) D)
      by (apply short_prompts_map; exact HwfD).
    assert (HwfS : wf S) by (unfold wf, keys; rewrite HS, map_map; exact HwfD).
    destruct (forallb (fun kv => succeeds client (snd kv)) S) eqn:HSok.
    + set (R := filter (fun s => negb (str_in NO_CHANGES s)) (map (titled client) S)).
      assert (HR : outcome (short_phase client reviewer_dir S NUMBER_OF_CONCURRENT_REQUESTS)
                   = Ok R)
        by (apply short_phase_ok; assumption).
      destruct (client MODEL (project_system_messages project_prompt R) (Some SEED))
        as [text|] eqn:Hp.
      * exfalso.
        rewrite (main_requests client open_read relpath project_tree local_path
                   reviewer_dir directory D R HD HR) in Hin.
        fold P in Hin. fold S in Hin.
        rewrite (detail_phase_requests client reviewer_dir P _ HP H20 HPok) in Hin.
        rewrite (short_phase_requests client reviewer_dir S _ HwfS H20 HSok) in Hin.
        apply in_app_or in Hin. destruct Hin as [Hin|Hin]; [exact (Hsent P HPok Hin)|].
        apply in_app_or in Hin. destruct Hin as [Hin|[Heq|[]]]; [exact (Hsent S HSok Hin)|].
        inversion Heq as [Hms]. rewrite Hms, Hfail in Hp. discriminate.
      * rewrite (main_stops_project directory D R HD HR Hp). split; [reflexivity|].
        cbn [events fst]. rewrite Htree, !written_app.
        fold P. fold S.
        now rewrite detail_phase_no_project_report, short_phase_no_project_report.
    + assert (HR : outcome (short_phase client reviewer_dir S NUMBER_OF_CONCURRENT_REQUESTS)
                   = Raise ServiceError)
        by (apply short_phase_raise; assumption).
      rewrite (main_stops_short directory D ServiceError HD HR). split; [reflexivity|].
      cbn [events fst]. rewrite Htree, written_app.
      fold P. fold S.
      now rewrite detail_phase_no_project_report, short_phase_no_project_report.
  - assert (HD : outcome (detail_phase client reviewer_dir P NUMBER_OF_CONCURRENT_REQUESTS)
                 = Raise ServiceError)
      by (apply detail_phase_raise; assumption).
    rewrite (main_stops_detail directory ServiceError HD). split; [reflexivity|].
    cbn [events fst]. rewrite Htree. fold P.
    apply detail_phase_no_project_report.
Qed.

End RunFailure.

(** C2 (amended).  When the request of one identifier of a dictionary
    fails, the failure is not isolated.  (1) Every batch that contains
    the identifier still sends all its requests, and then raises the
    service error to its caller instead of returning results: the
    results of its siblings are lost with it.  (2) A phase run on the
    dictionary with a batch size from 1 to [sys.maxsize] stops at the
    first batch that holds a failing request: the batches before it are
    processed in full, the requests of that batch are sent, and the phase
    ends with the service error; what the phase has written to its
    report is the titled results of the batches before that one and
    nothing else, so nothing is recorded for the failing request, for its
    siblings or for a later batch.  (3) A run of [main] in which any
    request fails, in the detail phase, in the short phase or as the
    project request, ends with the service error and writes no project
    report. *)
Theorem failure_aborts_phase
  (client : string -> list message -> option Z -> option string)
  (reviewer_dir : string) (M : dict (list message)) (c : Z)
  (k : string) (v : list message) :
  wf M -> (1 <= c <= maxsize)%Z ->
  In (k, v) M -> client MODEL v (Some SEED) = None ->
  (forall b : dict (list message), In (k, v) b ->
     process_batch client b
     = (map (fun kv => Request MODEL (snd kv) (Some SEED)) b, Raise ServiceError))
  /\ (exists pre b post,
        dict_to_batches M c = Ok (pre ++ b :: post)
        /\ forallb (fun kv => succeeds client (snd kv)) (concat pre) = true
        /\ forallb (fun kv => succeeds client (snd kv)) b = false
        /\ detail_phase client reviewer_dir M c
           = (flat_map (batch_events client (detail_writes reviewer_dir)) pre
                ++ map (fun kv => Request MODEL (snd kv) (Some SEED)) b,
              Raise ServiceError)
        /\ short_phase client reviewer_dir M c
           = (flat_map (batch_events client (short_writes reviewer_dir)) pre
                ++ map (fun kv => Request MODEL (snd kv) (Some SEED)) b,
              Raise ServiceError)
        /\ written reviewer_dir DETAIL_ANALYSIS_MD
             (events (detail_phase client reviewer_dir M c))
           = map (fun kv => String.append (titled client kv) nl) (concat pre)
        /\ written reviewer_dir SHORT_ANALYSIS_MD
             (events (short_phase client reviewer_dir M c))
           = map (fun s => String.append s nl)
               (filter (fun s => negb (str_in NO_CHANGES s))
                  (map (titled client) (concat pre))))
  /\ (forall open_read relpath project_tree local_path directory ms,
        In (ms, Some SEED)
           (requests (events (main client open_read relpath project_tree local_path
                                reviewer_dir directory))) ->
        client MODEL ms (Some SEED) = None ->
        outcome (main client open_read relpath project_tree local_path reviewer_dir
                   directory) = Raise ServiceError
        /\ written reviewer_dir PROJECT_ANALYSIS_MD
             (events (main client open_read relpath project_tree local_path
                        reviewer_dir directory)) = []).
Proof.
  intros Hwf Hc Hin Hfail. split; [|split].
  - intros b Hb.
    rewrite (surjective_pairing (process_batch client b)). f_equal.
    + apply events_process_batch.
    + apply process_batch_raise. exact (exists_failing client b k v Hb Hfail).
  - destruct (dict_to_batches_spec M c Hwf Hc) as (batches & Hb & _ & Hcat & _).
    pose proof (exists_failing client M k v Hin Hfail) as Hall.
    unfold items in Hcat. rewrite <- Hcat in Hall.
    destruct (first_failing_batch client batches Hall)
      as (pre & b & post & -> & Hpre & Hbad).
    pose proof (phase_loop_stops client _ _ _ _ (detail_record_spec reviewer_dir)
                  pre post b [] Hpre Hbad) as Hdetail.
    pose proof (phase_loop_stops client _ _ _ _ (short_record_spec reviewer_dir)
                  pre post b [] Hpre Hbad) as Hshort.
    rewrite <- (detail_phase_loop client reviewer_dir M c _ Hb) in Hdetail.
    rewrite <- (short_phase_loop client reviewer_dir M c _ Hb) in Hshort.
    exists pre, b, post.
    split; [exact Hb|]. split; [exact Hpre|]. split; [exact Hbad|].
    split; [exact Hdetail|]. split; [exact Hshort|]. split.
    + rewrite Hdetail. cbn [events fst].
      rewrite written_app, written_batch_events, written_requests, app_nil_r.
      rewrite written_detail_writes. unfold answers, titled. now rewrite map_map.
    + rewrite Hshort. cbn [events fst].
      rewrite written_app, written_batch_events, written_requests, app_nil_r.
      rewrite written_short_writes. unfold answers, titled. now rewrite map_map.
  - intros open_read relpath project_tree local_path directory ms.
    apply main_failing_request.
Qed.

Lemma failure_aborts_phase_witness :
  (forall b : dict (list message),
     In ("b.py", [to_openai_system_message "Review";
                  to_openai_user_message "b.py: print(2)"]) b ->
     process_batch Sample.flaky_client b
     = (map (fun kv => Request MODEL (snd kv) (Some SEED)) b, Raise ServiceError))
  /\ (exists pre b post,
        dict_to_batches Sample.three_prompts 1 = Ok (pre ++ b :: post)
        /\ forallb (fun kv => succeeds Sample.flaky_client (snd kv)) (concat pre) = true
        /\ forallb (fun kv => succeeds Sample.flaky_client (snd kv)) b = false
        /\ detail_phase Sample.flaky_client "out" Sample.three_prompts 1
           = (flat_map (batch_events Sample.flaky_client (detail_writes "out")) pre
                ++ map (fun kv => Request MODEL (snd kv) (Some SEED)) b,
              Raise ServiceError)
        /\ short_phase Sample.flaky_client "out" Sample.three_prompts 1
           = (flat_map (batch_events Sample.flaky_client (short_writes "out")) pre
                ++ map (fun kv => Request MODEL (snd kv) (Some SEED)) b,
              Raise ServiceError)
        /\ written "out" DETAIL_ANALYSIS_MD
             (events (detail_phase Sample.flaky_client "out" Sample.three_prompts 1))
           = map (fun kv => String.append (titled Sample.flaky_client kv) nl) (concat pre)
        /\ written "out" SHORT_ANALYSIS_MD
             (events (short_phase Sample.flaky_client "out" Sample.three_prompts 1))
           = map (fun s => String.append s nl)
               (filter (fun s => negb (str_in NO_CHANGES s))
                  (map (titled Sample.flaky_client) (concat pre))))
  /\ (forall open_read relpath project_tree local_path directory ms,
        In (ms, Some SEED)
           (requests (events (main Sample.flaky_client open_read relpath project_tree
                                local_path "out" directory))) ->
        Sample.flaky_client MODEL ms (Some SEED) = None ->
        outcome (main Sample.flaky_client open_read relpath project_tree local_path
                   "out" directory) = Raise ServiceError
        /\ written "out" PROJECT_ANALYSIS_MD
             (events (main Sample.flaky_client open_read relpath project_tree
                        local_path "out" directory)) = []).
Proof.
  apply (failure_aborts_phase Sample.flaky_client "out" Sample.three_prompts 1 "b.py"
           [to_openai_system_message "Review"; to_openai_user_message "b.py: print(2)"]).
  - exact three_prompts_wf.
  - unfold maxsize. lia.
  - simpl. right. left. reflexivity.
  - vm_compute. reflexivity.
Defined.
